(** * Table Construct System (front end): XML to HTML transducer, storage
      facade and selection store.

    A shallow embedding of
      - [src/utils/xml2html.js]  (escapeHtml, parseXML, nodeToHtml, xml2html,
        xml2htmlFormatted, xml2htmlFragment),
      - [src/utils/storage.js]   (getStorage, setStorage, removeStorage,
        clearStorage and the table id helpers),
      - [src/views/DisplayView.vue] (addToSelected, removeSelectedByIndex,
        isSelected, onDragEnd, clearSelected, syncSelectedTableIds,
        loadSelectedTables, handleDownload, getTablePdfUrl; and of the
        version that keeps ids: toggleSelect, removeSelected, moveUp,
        moveDown),
      - [src/api/index.js]       (uploadFile),
      - [src/views/UploadView.vue] (handleFileChange, uploadFile),
    followed by the properties of these functions. *)

From Stdlib Require Import NArith List String Ascii Lia.
From stdpp Require Import base option list gmap.

Set Default Proof Using "Type".
Set Warnings "-register-all".

(** ** JavaScript strings

    A JavaScript string is a sequence of UTF-16 code units.  The empty
    string is [[]]; [js] turns an ASCII literal into such a string. *)

Abbreviation jsstring := (list N).

Definition js (s : string) : jsstring :=
  N_of_ascii <$> list_ascii_of_string s.
Arguments js _%_string : simpl never.

(** The quotation mark, U+0022. *)
Definition quot : N := 34.

(** A string is truthy when it is not empty ([a || b], [if (s)]). *)
Definition truthy (s : jsstring) : bool :=
  match s with [] => false | _ :: _ => true end.

(** [a || b] on strings. *)
Definition or_else (a b : jsstring) : jsstring :=
  if truthy a then a else b.

(** [Array.prototype.includes] on an array of strings. *)
Definition includes {A} `{EqDecision A} (x : A) (l : list A) : bool :=
  bool_decide (x ∈ l).

(** The code units removed by [String.prototype.trim]: ECMAScript's
    WhiteSpace and LineTerminator productions. *)
Definition isWhiteSpace (c : N) : bool :=
  ((9 <=? c) && (c <=? 13) || (c =? 32) || (c =? 160) || (c =? 5760)
   || (8192 <=? c) && (c <=? 8202) || (c =? 8232) || (c =? 8233)
   || (c =? 8239) || (c =? 8287) || (c =? 12288) || (c =? 65279))%N.

Fixpoint trimStart (s : jsstring) : jsstring :=
  match s with
  | [] => []
  | c :: s' => if isWhiteSpace c then trimStart s' else s
  end.

Definition trimEnd (s : jsstring) : jsstring :=
  reverse (trimStart (reverse s)).

Definition trim (s : jsstring) : jsstring := trimEnd (trimStart s).

(** ** Exceptions

    A call of the host environment either returns or throws. *)

Inductive Exception := Error (message : jsstring).

Inductive Completion (A : Type) :=
| Normal (a : A)
| Throw (e : Exception).
Arguments Normal {A} a.
Arguments Throw {A} e.

Module Xml2Html.

(** ** escapeHtml *)

(** The character class of the regular expression in [escapeHtml]:
    ampersand, less-than, greater-than, quotation mark, apostrophe. *)
Definition reserved : list N := [38; 60; 62; quot; 39]%N.

(** The object [map] of [escapeHtml]. *)
Definition entityMap : list (N * jsstring) :=
  [ (38%N, js "&amp;"); (60%N, js "&lt;"); (62%N, js "&gt;");
    (quot, js "&quot;"); (39%N, js "&#39;") ].

(** [map[char]]; a property that is absent reads as [undefined], which
    [replace] would insert as the text [undefined]. *)
Definition entityOf (char : N) : jsstring :=
  match list_find (λ p, p.1 = char) entityMap with
  | Some (_, p) => p.2
  | None => js "undefined"
  end.

(** [text.replace(re, (char) => map[char])] with the global flag: every
    code unit of the class is replaced, every other one is copied. *)
Definition escapeHtml (text : jsstring) : jsstring :=
  flat_map (λ char, if includes char reserved then entityOf char else [char]) text.

(** ** The DOM tree handed over by the XML parser *)

Record Attr := { name : jsstring; value : jsstring }.

(** [attr.name || attr.nodeName]: in the DOM [nodeName] of an attribute is
    its [name], and [nodeValue] its [value]. *)
Definition attrName (attr : Attr) : jsstring := or_else (name attr) (name attr).
Definition attrValue (attr : Attr) : jsstring :=
  or_else (or_else (value attr) (value attr)) [].

Inductive Node :=
| TextNode (textContent : jsstring)
| CDataSection (textContent : jsstring)
| CommentNode (textContent : jsstring)
| ProcessingInstruction (target data : jsstring)
| DocumentType (doctypeName : jsstring)
| ElementNode (tagName : jsstring) (attributes : list Attr) (childNodes : list Node)
| DocumentNode (childNodes : list Node)
| DocumentFragment (childNodes : list Node).

(** The options of [nodeToHtml] and [xml2html], with their defaults. *)
Record Options := {
  preserveAttributes : bool;
  preserveTextNodes : bool;
  tagMapping : gmap jsstring jsstring;
  wrapperTag : jsstring
}.

Definition defaultOptions : Options :=
  {| preserveAttributes := true; preserveTextNodes := true;
     tagMapping := ∅; wrapperTag := [] |}.

Definition selfClosingTags : list jsstring :=
  [ js "br"; js "hr"; js "img"; js "input"; js "meta"; js "link"; js "area";
    js "base"; js "col"; js "embed"; js "source"; js "track"; js "wbr" ].

(** [tagMapping[tagName]]: an absent key reads as [undefined], falsy like
    the empty string.  The map holds the keys that the caller gave; the
    properties that a JavaScript object inherits are not keys of it. *)
Definition mapped (options : Options) (tagName : jsstring) : jsstring :=
  default [] (tagMapping options !! tagName).

Section Transducer.
(** [String.prototype.toLowerCase], provided by the JavaScript engine. *)
Context (toLowerCase : jsstring → jsstring).

(** [node.tagName ? node.tagName.toLowerCase() : ''] *)
Definition lowerTagName (tagName : jsstring) : jsstring :=
  if truthy tagName then toLowerCase tagName else [].

(** [tagMapping[tagName] || tagName || 'div'] *)
Definition htmlTagNameOf (options : Options) (tagName : jsstring) : jsstring :=
  or_else (or_else (mapped options tagName) tagName) (js "div").

(** One turn of the attribute loop. *)
Definition appendAttr (html : jsstring) (attr : Attr) : jsstring :=
  html ++ js " " ++ attrName attr ++ js "=" ++ [quot]
       ++ escapeHtml (attrValue attr) ++ [quot].

(** The open tag up to, and without, its closing [>] or [ />]. *)
Definition openTag (options : Options) (htmlTagName : jsstring)
    (attributes : list Attr) : jsstring :=
  let html := js "<" ++ htmlTagName in
  if preserveAttributes options then foldl appendAttr html attributes else html.

Fixpoint nodeToHtml (options : Options) (node : Node) {struct node} : jsstring :=
  match node with
  | TextNode text =>
      if negb (preserveTextNodes options) then []
      else escapeHtml (trim text)
  | CDataSection text => text
  | ElementNode tagName attributes childNodes =>
      let tagName := lowerTagName tagName in
      let htmlTagName := htmlTagNameOf options tagName in
      let html := openTag options htmlTagName attributes in
      let '(childrenHtml, hasChildren) :=
        (fix loop (children : list Node) (acc : jsstring * bool) :=
           match children with
           | [] => acc
           | child :: rest =>
               let childHtml := nodeToHtml options child in
               loop rest (if truthy childHtml then (acc.1 ++ childHtml, true) else acc)
           end) childNodes ([], false) in
      if includes htmlTagName selfClosingTags && negb hasChildren
      then html ++ js " />"
      else html ++ js ">" ++ (if hasChildren then childrenHtml else [])
                ++ js "</" ++ htmlTagName ++ js ">"
  | CommentNode text => js "<!--" ++ text ++ js "-->"
  | DocumentNode childNodes | DocumentFragment childNodes =>
      (fix loop (children : list Node) (html : jsstring) :=
         match children with
         | [] => html
         | child :: rest => loop rest (html ++ nodeToHtml options child)
         end) childNodes []
  | ProcessingInstruction _ _ | DocumentType _ => []
  end.

(** [nodeToHtml] reads three of the four options: [xml2html] and
    [xml2htmlFragment] hand it an object without [wrapperTag]. *)
Definition nodeOptions (options : Options) : Options :=
  {| preserveAttributes := preserveAttributes options;
     preserveTextNodes := preserveTextNodes options;
     tagMapping := tagMapping options;
     wrapperTag := [] |}.

(** *** The parser's results, as [parseXML] inspects them *)

(** The local name of an element: its tag name without a namespace
    prefix. *)
Fixpoint afterColon (s : jsstring) : option jsstring :=
  match s with
  | [] => None
  | c :: rest => if (c =? 58)%N then Some rest else afterColon rest
  end.

Definition localName (tagName : jsstring) : jsstring :=
  default tagName (afterColon tagName).

(** The elements named [selector] among a node and its descendants, in
    document order. *)
Fixpoint elementsNamed (selector : jsstring) (node : Node) {struct node}
    : list Node :=
  match node with
  | ElementNode tagName _ childNodes =>
      (if bool_decide (localName tagName = selector) then [node] else [])
      ++ (fix descend (children : list Node) :=
            match children with
            | [] => []
            | child :: rest => elementsNamed selector child ++ descend rest
            end) childNodes
  | DocumentNode childNodes | DocumentFragment childNodes =>
      (fix descend (children : list Node) :=
         match children with
         | [] => []
         | child :: rest => elementsNamed selector child ++ descend rest
         end) childNodes
  | _ => []
  end.

(** [xmlDoc.querySelector(selector)] for a type selector: the first
    such element of the document, or [null]. *)
Definition querySelector (selector : jsstring) (xmlDoc : Node) : option Node :=
  head (elementsNamed selector xmlDoc).

Definition isElement (node : Node) : bool :=
  match node with ElementNode _ _ _ => true | _ => false end.

Definition childNodesOf (node : Node) : list Node :=
  match node with
  | ElementNode _ _ childNodes | DocumentNode childNodes
  | DocumentFragment childNodes => childNodes
  | _ => []
  end.

(** [xmlDoc.documentElement]: the element child of the document. *)
Definition documentElement (xmlDoc : Node) : option Node :=
  match xmlDoc with
  | DocumentNode childNodes => snd <$> list_find (λ n, isElement n = true) childNodes
  | _ => None
  end.

(** [new DOMParser().parseFromString(xmlString, 'text/xml')], provided by
    the browser. *)
Context (parseFromString : jsstring → Completion Node).

Definition parseXML (xmlString : jsstring) : option Node :=
  if negb (truthy (trim xmlString)) then None
  else
    match parseFromString xmlString with
    | Normal xmlDoc =>
        match querySelector (js "parsererror") xmlDoc with
        | Some parserError => None
        | None => Some xmlDoc
        end
    | Throw error => None
    end.

Definition xml2html (xmlString : jsstring) (options : Options) : jsstring :=
  if negb (truthy (trim xmlString)) then []
  else
    match parseXML xmlString with
    | None => []
    | Some xmlDoc =>
        let html :=
          nodeToHtml (nodeOptions options)
                     (default xmlDoc (documentElement xmlDoc)) in
        if truthy (wrapperTag options)
        then js "<" ++ wrapperTag options ++ js ">" ++ html
               ++ js "</" ++ wrapperTag options ++ js ">"
        else html
    end.

Definition xml2htmlFragment (xmlString : jsstring) (options : Options) : jsstring :=
  if negb (truthy (trim xmlString)) then []
  else
    match parseXML xmlString with
    | None => []
    | Some xmlDoc =>
        let rootElement := default xmlDoc (documentElement xmlDoc) in
        foldl (λ html child, html ++ nodeToHtml (nodeOptions options) child)
              [] (childNodesOf rootElement)
    end.
End Transducer.

End Xml2Html.

(** ** A reference environment

    The transducer is a function of two things the browser provides:
    [toLowerCase] and the XML parser.  The theorems below hold for every
    such pair; the definitions here are one instance, on which the
    transducer can be run: lower-casing of the ASCII letters, and a parser
    for the fragment of XML made of elements, attributes, character data
    with the five predefined entities, comments, CDATA sections and
    processing instructions.  Like the browser's parser it reports a
    malformed input as a document that holds a [parsererror] element. *)

Module Reference.
Import Xml2Html.

Definition toLowerCase (s : jsstring) : jsstring :=
  (λ c, if (65 <=? c) && (c <=? 90) then c + 32 else c)%N <$> s.

(** [stripPrefix p s] is [Some r] when [s = p ++ r]. *)
Fixpoint stripPrefix (p s : jsstring) : option jsstring :=
  match p, s with
  | [], _ => Some s
  | a :: p', b :: s' => if (a =? b)%N then stripPrefix p' s' else None
  | _ :: _, [] => None
  end.

(** [splitAt d s] cuts [s] at the first occurrence of [d]. *)
Fixpoint splitAt (d s : jsstring) : option (jsstring * jsstring) :=
  match stripPrefix d s with
  | Some rest => Some ([], rest)
  | None =>
      match s with
      | [] => None
      | c :: s' => (λ r, (c :: r.1, r.2)) <$> splitAt d s'
      end
  end.

Definition isNameChar (c : N) : bool :=
  negb (isWhiteSpace c || bool_decide (c ∈ [60; 62; 47; 61; 38; 34; 39; 33; 63]%N)).

Fixpoint span (f : N → bool) (s : jsstring) : jsstring * jsstring :=
  match s with
  | c :: s' => if f c then let r := span f s' in (c :: r.1, r.2) else ([], s)
  | [] => ([], [])
  end.

Definition predefined : list (jsstring * N) :=
  [ (js "amp;", 38); (js "lt;", 60); (js "gt;", 62); (js "quot;", 34);
    (js "apos;", 39) ]%N.

(** Character data with its entity references replaced; [None] on a
    reference that is not predefined and on a bare less-than sign. *)
Fixpoint decode (fuel : nat) (s : jsstring) : option jsstring :=
  match fuel, s with
  | _, [] => Some []
  | O, _ => None
  | S fuel, c :: s' =>
      if (c =? 60)%N then None
      else if (c =? 38)%N then
        match list_find (λ e, is_Some (stripPrefix e.1 s')) predefined with
        | Some (_, e) =>
            r ← stripPrefix e.1 s'; d ← decode fuel r; Some (e.2 :: d)
        | None => None
        end
      else (c ::.) <$> decode fuel s'
  end.

(** The attributes of an open tag, up to its [>] or [/>]; the boolean
    tells whether the tag closed itself. *)
Fixpoint parseAttributes (fuel : nat) (s : jsstring)
    : option (list Attr * bool * jsstring) :=
  match fuel with
  | O => None
  | S fuel =>
      let s := trimStart s in
      match s with
      | 62%N :: rest => Some ([], false, rest)
      | 47%N :: 62%N :: rest => Some ([], true, rest)
      | _ =>
          let '(n, s1) := span isNameChar s in
          if negb (truthy n) then None
          else
            match trimStart s1 with
            | 61%N :: s2 =>
                match trimStart s2 with
                | q :: s3 =>
                    if bool_decide (q ∈ [34; 39]%N) then
                      '(raw, s4) ← splitAt [q] s3;
                      v ← decode (S (length raw)) raw;
                      '(attrs, closed, rest) ← parseAttributes fuel s4;
                      Some ({| name := n; value := v |} :: attrs, closed, rest)
                    else None
                | [] => None
                end
            | _ => None
            end
      end
  end.

(** The nodes in front of the next close tag, or of the end of input. *)
Fixpoint parseNodes (fuel : nat) (s : jsstring) : option (list Node * jsstring) :=
  match fuel with
  | O => None
  | S fuel =>
      match s with
      | [] => Some ([], [])
      | 60%N :: s0 =>
          match s0 with
          | 47%N :: _ => Some ([], s)
          | 33%N :: _ =>
              match stripPrefix (js "!--") s0, stripPrefix (js "![CDATA[") s0 with
              | Some s1, _ =>
                  '(body, s2) ← splitAt (js "-->") s1;
                  '(nodes, rest) ← parseNodes fuel s2;
                  Some (CommentNode body :: nodes, rest)
              | None, Some s1 =>
                  '(body, s2) ← splitAt (js "]]>") s1;
                  '(nodes, rest) ← parseNodes fuel s2;
                  Some (CDataSection body :: nodes, rest)
              | None, None => None
              end
          | 63%N :: s1 =>
              '(body, s2) ← splitAt (js "?>") s1;
              '(nodes, rest) ← parseNodes fuel s2;
              let '(target, data) := span isNameChar body in
              Some (ProcessingInstruction target (trimStart data) :: nodes, rest)
          | _ =>
              let '(tag, s1) := span isNameChar s0 in
              if negb (truthy tag) then None
              else
                '(attrs, closed, s2) ← parseAttributes (S (length s1)) s1;
                if (closed : bool) then
                  '(nodes, rest) ← parseNodes fuel s2;
                  Some (ElementNode tag attrs [] :: nodes, rest)
                else
                  '(children, s3) ← parseNodes fuel s2;
                  s4 ← stripPrefix (js "</" ++ tag) s3;
                  match trimStart s4 with
                  | 62%N :: s5 =>
                      '(nodes, rest) ← parseNodes fuel s5;
                      Some (ElementNode tag attrs children :: nodes, rest)
                  | _ => None
                  end
          end
      | _ =>
          let '(raw, s1) := span (λ c, negb (c =? 60)%N) s in
          text ← decode (S (length raw)) raw;
          '(nodes, rest) ← parseNodes fuel s1;
          Some (TextNode text :: nodes, rest)
      end
  end.

Definition isBlankText (node : Node) : bool :=
  match node with
  | TextNode text => negb (truthy (trim text))
  | _ => false
  end.

Definition parserError : Node :=
  DocumentNode
    [ElementNode (js "parsererror") [] [TextNode (js "XML parsing error")]].

(** A document is one element, with comments, processing instructions and
    white space around it; an XML declaration is not a node. *)
Definition parseFromString (xmlString : jsstring) : Completion Node :=
  Normal
    match parseNodes (S (length xmlString)) xmlString with
    | Some (nodes, []) =>
        let nodes :=
          filter (λ n, isBlankText n = false) nodes in
        let nodes :=
          match nodes with
          | ProcessingInstruction target _ :: rest =>
              if bool_decide (target = js "xml") then rest else nodes
          | _ => nodes
          end in
        if bool_decide (length (filter (λ n, isElement n = true) nodes) = 1)
           && forallb (λ n, match n with
                            | TextNode _ | CDataSection _ => false
                            | _ => true
                            end) nodes
        then DocumentNode nodes
        else parserError
    | _ => parserError
    end.

Definition xml2html := Xml2Html.xml2html toLowerCase parseFromString.
Definition xml2htmlFragment := Xml2Html.xml2htmlFragment toLowerCase parseFromString.

End Reference.

(** ** The storage facade of [storage.js] *)

Module Storage.

Definition TABLE_IDS_KEY : jsstring := js "table_ids".
Definition TABLE_ORDER_KEY : jsstring := js "table_order".

Module StorageType.
Definition LOCAL : jsstring := js "localStorage".
Definition SESSION : jsstring := js "sessionStorage".
End StorageType.

Section Facade.
(** [World] is the state of the browser, [StorageObject] the type of its
    [Storage] objects, [Value] the type of the values handed to the
    facade. *)
Context {World StorageObject Value : Type}.

(** A computation reads and changes the world, and returns or throws. *)
Definition M (A : Type) : Type := World → Completion A * World.

Definition ret {A} (a : A) : M A := λ w, (Normal a, w).

Definition bind {A B} (m : M A) (k : A → M B) : M B :=
  λ w, match m w with
       | (Normal a, w') => k a w'
       | (Throw e, w') => (Throw e, w')
       end.

(** [try { body } catch (error) { handler }] *)
Definition tryCatch {A} (body : M A) (handler : Exception → M A) : M A :=
  λ w, match body w with
       | (Normal a, w') => (Normal a, w')
       | (Throw e, w') => handler e w'
       end.

#[local] Notation "x <- m ;; k" := (bind m (λ x, k))
  (at level 100, m at next level, right associativity).
#[local] Notation "m ;;; k" := (bind m (λ _, k))
  (at level 100, right associativity).

(** What the facade asks of the browser.  Reading [window.localStorage]
    or [window.sessionStorage] throws when storage is forbidden and can
    give [null]; every method of a [Storage] object and both [JSON]
    functions can throw; [JSON.stringify] gives [undefined] on a value
    without JSON form.  [console.error] changes the world and returns. *)
Record Host := {
  window_localStorage : M (option StorageObject);
  window_sessionStorage : M (option StorageObject);
  getItem : StorageObject → jsstring → M (option jsstring);
  setItem : StorageObject → jsstring → jsstring → M unit;
  removeItem : StorageObject → jsstring → M unit;
  clear : StorageObject → M unit;
  JSON_stringify : Value → M (option jsstring);
  JSON_parse : jsstring → M Value;
  console_error : jsstring → Exception → World → World
}.

Context (host : Host).

Definition log (label : jsstring) (error : Exception) : M unit :=
  λ w, (Normal (), console_error host label error w).

(** [setItem] takes the string of its argument: [undefined] is stored as
    the text [undefined]. *)
Definition toString (stringValue : option jsstring) : jsstring :=
  default (js "undefined") stringValue.

Definition getStorageInstance (type : jsstring) : M (option StorageObject) :=
  tryCatch
    (if bool_decide (type = StorageType.LOCAL) then window_localStorage host
     else if bool_decide (type = StorageType.SESSION) then window_sessionStorage host
     else window_sessionStorage host)
    (λ error, log (js "Storage access error:") error ;;; ret None).

Definition setStorage (key : jsstring) (value : Value) (type : jsstring) : M bool :=
  tryCatch
    (storage <- getStorageInstance type ;;
     match storage with
     | None => ret false
     | Some storage =>
         stringValue <- JSON_stringify host value ;;
         setItem host storage key (toString stringValue) ;;;
         ret true
     end)
    (λ error, log (js "Set storage error:") error ;;; ret false).

Definition getStorage (key : jsstring) (defaultValue : Value) (type : jsstring)
    : M Value :=
  tryCatch
    (storage <- getStorageInstance type ;;
     match storage with
     | None => ret defaultValue
     | Some storage =>
         value <- getItem host storage key ;;
         match value with
         | None => ret defaultValue
         | Some value => JSON_parse host value
         end
     end)
    (λ error, log (js "Get storage error:") error ;;; ret defaultValue).

Definition removeStorage (key : jsstring) (type : jsstring) : M bool :=
  tryCatch
    (storage <- getStorageInstance type ;;
     match storage with
     | None => ret false
     | Some storage => removeItem host storage key ;;; ret true
     end)
    (λ error, log (js "Remove storage error:") error ;;; ret false).

Definition clearStorage (type : jsstring) : M bool :=
  tryCatch
    (storage <- getStorageInstance type ;;
     match storage with
     | None => ret false
     | Some storage => clear host storage ;;; ret true
     end)
    (λ error, log (js "Clear storage error:") error ;;; ret false).
End Facade.
Arguments Host : clear implicits.

End Storage.

(** A browser to run the facade on: storage can be switched off, a write
    beyond the quota throws, and the values stored are strings whose JSON
    text needs no escape. *)

Module ReferenceHost.
Import Storage.

Inductive Area := LocalArea | SessionArea.

Record World := {
  enabled : bool;
  quota : nat;
  localArea : gmap jsstring jsstring;
  sessionArea : gmap jsstring jsstring;
  console : list (jsstring * Exception)
}.

Definition area (a : Area) (w : World) : gmap jsstring jsstring :=
  match a with LocalArea => localArea w | SessionArea => sessionArea w end.

Definition setArea (a : Area) (m : gmap jsstring jsstring) (w : World) : World :=
  match a with
  | LocalArea =>
      {| enabled := enabled w; quota := quota w; localArea := m;
         sessionArea := sessionArea w; console := console w |}
  | SessionArea =>
      {| enabled := enabled w; quota := quota w; localArea := localArea w;
         sessionArea := m; console := console w |}
  end.

Definition access (a : Area) : @M World (option Area) :=
  λ w, if enabled w then (Normal (Some a), w)
       else (Throw (Error (js "SecurityError")), w).

Definition unquote (s : jsstring) : option jsstring :=
  match s with
  | q :: rest =>
      match reverse rest with
      | q' :: body =>
          if ((q =? quot) && (q' =? quot))%N
             && forallb (λ c, negb (c =? quot)%N) body
          then Some (reverse body) else None
      | [] => None
      end
  | [] => None
  end.

Definition host : Host World Area jsstring := {|
  window_localStorage := access LocalArea;
  window_sessionStorage := access SessionArea;
  getItem a key := λ w, (Normal (area a w !! key), w);
  setItem a key text := λ w,
    if bool_decide (length text ≤ quota w)
    then (Normal (), setArea a (<[key := text]> (area a w)) w)
    else (Throw (Error (js "QuotaExceededError")), w);
  removeItem a key := λ w, (Normal (), setArea a (delete key (area a w)) w);
  clear a := λ w, (Normal (), setArea a ∅ w);
  JSON_stringify value := λ w, (Normal (Some (quot :: value ++ [quot])), w);
  JSON_parse text := λ w,
    match unquote text with
    | Some value => (Normal value, w)
    | None => (Throw (Error (js "SyntaxError")), w)
    end;
  console_error label error := λ w,
    {| enabled := enabled w; quota := quota w; localArea := localArea w;
       sessionArea := sessionArea w; console := console w ++ [(label, error)] |}
|}.

Definition world (on : bool) (q : nat) : World :=
  {| enabled := on; quota := q; localArea := ∅; sessionArea := ∅; console := [] |}.

End ReferenceHost.

(** ** The selection store: the table id helpers of [storage.js] and the
       selection methods of [DisplayView.vue]

    The session storage is seen here through a facade that works:
    [getStorage] gives the value last written under a key, or its default
    when the key is absent, and [setStorage], [removeStorage] change the
    key.  A key holds [None] when it is absent. *)

Module DisplayView.

Section Selection.
(** [similarity] and [metadata] are carried along, never inspected. *)
Context {Json : Type}.

(** An entry of the ranked result list. *)
Record Table := {
  id : jsstring;
  html : jsstring;
  xml : jsstring;
  similarity : Json;
  metadata : Json
}.

(** A selected entry: the fields [id], [html], [xml], [similarity],
    [metadata] copied from the result, under a [uniqueId]. *)
Record TableItem := {
  uniqueId : jsstring;
  fields : Table
}.

Record Session := {
  table_ids : option (list jsstring);
  table_order : option (list jsstring);
  selected_tables_items : option (list TableItem)
}.

Definition setTableIds (ids : list jsstring) (s : Session) : Session :=
  {| table_ids := Some ids; table_order := table_order s;
     selected_tables_items := selected_tables_items s |}.

Definition setOrder (order : list jsstring) (s : Session) : Session :=
  {| table_ids := table_ids s; table_order := Some order;
     selected_tables_items := selected_tables_items s |}.

Definition setItems (items : list TableItem) (s : Session) : Session :=
  {| table_ids := table_ids s; table_order := table_order s;
     selected_tables_items := Some items |}.

(** *** storage.js *)

Definition getAllTableIds (s : Session) : list jsstring :=
  default [] (table_ids s).

Definition getTableOrder (s : Session) : list jsstring :=
  default [] (table_order s).

Definition getStoredItems (s : Session) : list TableItem :=
  default [] (selected_tables_items s).

(** [orderArray] is an array: the guard [Array.isArray] passes. *)
Definition updateTableOrder (orderArray : list jsstring) (s : Session)
    : bool * Session :=
  let ids := getAllTableIds s in
  let validOrder := filter (λ id, includes id ids = true) orderArray in
  let missingIds := filter (λ id, includes id orderArray = false) ids in
  let finalOrder := validOrder ++ missingIds in
  (true, setOrder finalOrder s).

Definition addTableId (tableId : jsstring) (s : Session) : bool * Session :=
  if negb (truthy tableId) then (false, s)
  else
    let ids := getAllTableIds s in
    if includes tableId ids then (false, s)
    else
      let s := setTableIds (ids ++ [tableId]) s in
      let order := getTableOrder s in
      (true, setOrder (order ++ [tableId]) s).

Definition clearTableIds (s : Session) : bool * Session :=
  (true, {| table_ids := None; table_order := None;
            selected_tables_items := selected_tables_items s |}).

(** [array.indexOf(x)], with [None] for -1. *)
Definition indexOf {A} `{EqDecision A} (x : A) (l : list A) : option nat :=
  fst <$> list_find (λ y, y = x) l.

(** [array.splice(i, 1)] *)
Definition splice1 {A} (i : nat) (l : list A) : list A := delete i l.

(** *** DisplayView.vue *)

(** The messages shown: the warning 表格不存在, and the successes
    已添加到列表 and 已移除. *)
Inductive Message :=
| Warning_TableDoesNotExist
| Success_AddedToList
| Success_Removed.

(** The data of the component that the selection methods touch, and the
    session storage. *)
Record State := {
  tableList : list Table;
  selectedTables : list TableItem;
  currentSelectedIndex : Z;
  session : Session
}.

(** [addToSelected(tableId)]; [now] and [random] are the texts of
    [Date.now()] and of [Math.random().toString(36).substr(2, 9)].  The
    method returns no value: its result is the new state and the message
    shown. *)
Definition addToSelected (now random : jsstring) (tableId : jsstring) (st : State)
    : State * option Message :=
  if negb (truthy tableId) then (st, None)
  else
    match snd <$> list_find (λ t, id t = tableId) (tableList st) with
    | None => (st, Some Warning_TableDoesNotExist)
    | Some table =>
        let uniqueId := tableId ++ js "_" ++ now ++ js "_" ++ random in
        let tableItem := {| uniqueId := uniqueId; fields := table |} in
        let selectedTables := selectedTables st ++ [tableItem] in
        let storedItems := getStoredItems (session st) ++ [tableItem] in
        let s := setItems storedItems (session st) in
        let ids := getAllTableIds s ++ [tableId] in
        let s := setTableIds ids s in
        let order := getTableOrder s ++ [tableId] in
        let s := (updateTableOrder order s).2 in
        ({| tableList := tableList st; selectedTables := selectedTables;
            currentSelectedIndex := currentSelectedIndex st; session := s |},
         Some Success_AddedToList)
    end.

Definition removeSelectedByIndex (index : Z) (st : State)
    : State * option Message :=
  if bool_decide (index < 0 ∨ index >= Z.of_nat (length (selectedTables st)))%Z
  then (st, None)
  else
    let i := Z.to_nat index in
    match selectedTables st !! i with
    | None => (st, None)
    | Some tableItem =>
        let selectedTables := splice1 i (selectedTables st) in
        let storedItems := getStoredItems (session st) in
        let s :=
          match fst <$> list_find (λ item, uniqueId item = uniqueId tableItem)
                                  storedItems with
          | Some itemIndex => setItems (splice1 itemIndex storedItems) (session st)
          | None => session st
          end in
        let order := getTableOrder s in
        let s :=
          if bool_decide (i < length order) then
            let s := (updateTableOrder (splice1 i order) s).2 in
            let ids := getAllTableIds s in
            match indexOf (id (fields tableItem)) ids with
            | Some tableIdIndex => setTableIds (splice1 tableIdIndex ids) s
            | None => s
            end
          else s in
        let currentSelectedIndex :=
          if bool_decide (currentSelectedIndex st = index) then (-1)%Z
          else if bool_decide (currentSelectedIndex st > index)%Z
               then (currentSelectedIndex st - 1)%Z
               else currentSelectedIndex st in
        ({| tableList := tableList st; selectedTables := selectedTables;
            currentSelectedIndex := currentSelectedIndex; session := s |},
         Some Success_Removed)
    end.
End Selection.
Arguments Table : clear implicits.
Arguments TableItem : clear implicits.
Arguments Session : clear implicits.
Arguments State : clear implicits.

End DisplayView.

(** A session to run the selection store on: a search gave the tables
    [t1] and [t2]; nothing is selected yet. *)

Module Scenario.
Import DisplayView.

Definition table (i : jsstring) : Table unit :=
  {| id := i; html := js "<table></table>"; xml := js "<tbl/>";
     similarity := (); metadata := () |}.

Definition start : State unit :=
  {| tableList := [table (js "t1"); table (js "t2")];
     selectedTables := [];
     currentSelectedIndex := (-1)%Z;
     session := {| table_ids := None; table_order := None;
                   selected_tables_items := None |} |}.

(** [add], at a time [now]. *)
Definition add (now : jsstring) (tableId : jsstring) (st : State unit) : State unit :=
  (addToSelected now (js "k3j9x2m1q") tableId st).1.

Definition removeAt (index : Z) (st : State unit) : State unit :=
  (removeSelectedByIndex index st).1.

(** A later search replaces the ranked result list. *)
Definition search (results : list (Table unit)) (st : State unit) : State unit :=
  {| tableList := results; selectedTables := selectedTables st;
     currentSelectedIndex := currentSelectedIndex st; session := session st |}.

(** [t1] selected, then a search that gives [t2] only. *)
Definition searched : State unit :=
  search [table (js "t2")] (add (js "1700000000001") (js "t1") start).

(** [t1] and [t2] selected, then the first entry removed. *)
Definition afterRemoval : State unit :=
  removeAt 0 (add (js "1700000000002") (js "t2")
                (add (js "1700000000001") (js "t1") start)).

(** A result whose id is the empty string. *)
Definition unnamed : State unit :=
  search [table []] start.

(** A session whose id list and order list are [t1], [t2]. *)
Definition selectedBoth : Session unit :=
  session (add (js "1700000000002") (js "t2")
             (add (js "1700000000001") (js "t1") start)).

End Scenario.

(** ** Vocabulary of the properties *)

Module Vocabulary.
Import Xml2Html.

(** The markup that one attribute adds to an open tag. *)
Definition attrToHtml (attr : Attr) : jsstring :=
  js " " ++ name attr ++ js "=" ++ [quot] ++ escapeHtml (value attr) ++ [quot].

(** The markup of a sequence of children, one after the other. *)
Definition childrenToHtml (toLowerCase : jsstring → jsstring) (options : Options)
    (children : list Node) : jsstring :=
  flat_map (nodeToHtml toLowerCase options) children.

(** The close tag of an element. *)
Definition closeTag (htmlTagName : jsstring) : jsstring :=
  js "</" ++ htmlTagName ++ js ">".

(** An element closes itself when its mapped name is in the fixed set and
    its children gave no markup. *)
Definition closesItself (toLowerCase : jsstring → jsstring) (options : Options)
    (tagName : jsstring) (childNodes : list Node) : bool :=
  includes (htmlTagNameOf options (lowerTagName toLowerCase tagName)) selfClosingTags
  && negb (truthy (childrenToHtml toLowerCase options childNodes)).

(** The named entity of a reserved character. *)
Definition namedEntity (c : N) : option jsstring :=
  if (c =? 38)%N then Some (js "&amp;")
  else if (c =? 60)%N then Some (js "&lt;")
  else if (c =? 62)%N then Some (js "&gt;")
  else if (c =? 34)%N then Some (js "&quot;")
  else if (c =? 39)%N then Some (js "&apos;")
  else None.

(** The five entities that the escaper writes. *)
Definition entities : list jsstring :=
  [ js "&amp;"; js "&lt;"; js "&gt;"; js "&quot;"; js "&#39;" ].

(** A text is escaped when it is made of entities and of code units other
    than the five reserved ones. *)
Inductive Escaped : jsstring → Prop :=
| Escaped_nil : Escaped []
| Escaped_plain c s : c ∉ reserved → Escaped s → Escaped (c :: s)
| Escaped_entity e s : e ∈ entities → Escaped s → Escaped (e ++ s).

(** Where a piece of the output comes from: the markup that the transducer
    writes (tags with their names, attribute names, quotes, comment
    delimiters), or a text of the source. *)
Inductive Origin :=
| Structure
| TextValue
| AttributeValue
| CDataContent
| CommentContent.

Definition attrPieces (attr : Attr) : list (Origin * jsstring) :=
  [ (Structure, js " " ++ name attr ++ js "=" ++ [quot]);
    (AttributeValue, escapeHtml (value attr));
    (Structure, [quot]) ].

(** The output of [nodeToHtml], cut into pieces with their origin. *)
Fixpoint pieces (toLowerCase : jsstring → jsstring) (options : Options)
    (node : Node) {struct node} : list (Origin * jsstring) :=
  match node with
  | TextNode text =>
      if preserveTextNodes options then [(TextValue, escapeHtml (trim text))] else []
  | CDataSection text => [(CDataContent, text)]
  | CommentNode text =>
      [(Structure, js "<!--"); (CommentContent, text); (Structure, js "-->")]
  | ElementNode tagName attributes childNodes =>
      let htmlTagName := htmlTagNameOf options (lowerTagName toLowerCase tagName) in
      (Structure, js "<" ++ htmlTagName)
      :: (if preserveAttributes options then flat_map attrPieces attributes else [])
      ++ (if closesItself toLowerCase options tagName childNodes
          then [(Structure, js " />")]
          else (Structure, js ">")
               :: flat_map (pieces toLowerCase options) childNodes
               ++ [(Structure, closeTag htmlTagName)])
  | DocumentNode childNodes | DocumentFragment childNodes =>
      flat_map (pieces toLowerCase options) childNodes
  | ProcessingInstruction _ _ | DocumentType _ => []
  end.

(** The pieces of the output of [xml2html] on a parsed document. *)
Definition xml2htmlPieces (toLowerCase : jsstring → jsstring) (options : Options)
    (xmlDoc : Node) : list (Origin * jsstring) :=
  let ps := pieces toLowerCase options (default xmlDoc (documentElement xmlDoc)) in
  if truthy (wrapperTag options)
  then (Structure, js "<" ++ wrapperTag options ++ js ">") :: ps
       ++ [(Structure, js "</" ++ wrapperTag options ++ js ">")]
  else ps.

(** The text that a list of pieces spells. *)
Definition spell (ps : list (Origin * jsstring)) : jsstring := flat_map snd ps.

(** Every text of the source is escaped in the output. *)
Definition escapesSource (ps : list (Origin * jsstring)) : Prop :=
  Forall (λ p, p.1 ≠ Structure → Escaped p.2) ps.

(** Every value of a text node and of an attribute is escaped in the
    output. *)
Definition escapesValues (ps : list (Origin * jsstring)) : Prop :=
  Forall (λ p, p.1 = TextValue ∨ p.1 = AttributeValue → Escaped p.2) ps.

(** A piece that is not the content of a CDATA section or of a comment. *)
Definition notVerbatim (p : Origin * jsstring) : Prop :=
  p.1 ≠ CDataContent ∧ p.1 ≠ CommentContent.

(** A tree without CDATA section and without comment. *)
Fixpoint verbatimFree (node : Node) : bool :=
  match node with
  | CDataSection _ | CommentNode _ => false
  | ElementNode _ _ childNodes | DocumentNode childNodes
  | DocumentFragment childNodes => forallb verbatimFree childNodes
  | _ => true
  end.

(** An input that [xml2html] gives up on: nothing but white space, or the
    parser throws, or its result holds a [parsererror] element. *)
Definition rejected (parseFromString : jsstring → Completion Node)
    (xmlString : jsstring) : Prop :=
  forallb isWhiteSpace xmlString = true
  ∨ (∃ error, parseFromString xmlString = Throw error)
  ∨ (∃ xmlDoc, parseFromString xmlString = Normal xmlDoc
               ∧ elementsNamed (js "parsererror") xmlDoc ≠ []).

(** *** The selection store *)

(** How many times an id occurs in a list of ids. *)
Definition occurrences (x : jsstring) (l : list jsstring) : nat :=
  length (filter (λ y, y = x) l).

(** The ids of the selected entries, in order. *)
Definition itemIds {Json} (items : list (DisplayView.TableItem Json)) : list jsstring :=
  (λ item, DisplayView.id (DisplayView.fields item)) <$> items.

(** The ids of the ranked result list. *)
Definition resultIds {Json} (tables : list (DisplayView.Table Json)) : list jsstring :=
  DisplayView.id <$> tables.

(** The entry that [addToSelected] builds for a result. *)
Definition newItem {Json} (now random : jsstring) (table : DisplayView.Table Json)
    : DisplayView.TableItem Json :=
  {| DisplayView.uniqueId :=
       DisplayView.id table ++ js "_" ++ now ++ js "_" ++ random;
     DisplayView.fields := table |}.

(** *** The storage facade *)

Section Failures.
Import Storage.
Context {World StorageObject Value : Type} (host : Host World StorageObject Value).

Definition throws {A} (m : M A) (w : World) : Prop :=
  ∃ error w', m w = (Throw error, w').

Definition returns {A} (m : M A) (w : World) (a : A) : Prop :=
  ∃ w', m w = (Normal a, w').

(** The window property of a storage type. *)
Definition windowStorage (type : jsstring) : M (option StorageObject) :=
  if bool_decide (type = StorageType.LOCAL) then window_localStorage host
  else window_sessionStorage host.

(** No storage object: reading the window property throws or gives
    [null]. *)
Definition unavailable (type : jsstring) (w : World) : Prop :=
  throws (windowStorage type) w ∨ returns (windowStorage type) w None.

(** The storage object is there, in world [w1]. *)
Definition available (type : jsstring) (w : World) (storage : StorageObject)
    (w1 : World) : Prop :=
  windowStorage type w = (Normal (Some storage), w1).

(** What can go wrong under [getStorage]: no storage, [getItem] throws,
    or the text stored does not parse. *)
Definition getFails (key type : jsstring) (w : World) : Prop :=
  unavailable type w
  ∨ ∃ storage w1, available type w storage w1
      ∧ (throws (getItem host storage key) w1
         ∨ ∃ text w2, getItem host storage key w1 = (Normal (Some text), w2)
             ∧ throws (JSON_parse host text) w2).

(** What can go wrong under [setStorage]: no storage, the value does not
    serialize, or [setItem] throws (the quota is exceeded). *)
Definition setFails (key : jsstring) (value : Value) (type : jsstring)
    (w : World) : Prop :=
  unavailable type w
  ∨ ∃ storage w1, available type w storage w1
      ∧ (throws (JSON_stringify host value) w1
         ∨ ∃ stringValue w2,
             JSON_stringify host value w1 = (Normal stringValue, w2)
             ∧ throws (setItem host storage key (toString stringValue)) w2).

Definition removeFails (key type : jsstring) (w : World) : Prop :=
  unavailable type w
  ∨ ∃ storage w1, available type w storage w1
      ∧ throws (removeItem host storage key) w1.

Definition clearFails (type : jsstring) (w : World) : Prop :=
  unavailable type w
  ∨ ∃ storage w1, available type w storage w1
      ∧ throws (clear host storage) w1.
End Failures.

End Vocabulary.

(** ** Trees and options

    Operations on the parsed tree, to say what the options of
    [nodeToHtml] and the white space of the source do to its output. *)

Module TreeOps.
Import Xml2Html.

(** A text node of white space only. *)
Definition blankText (node : Node) : bool :=
  match node with
  | TextNode text => negb (truthy (trim text))
  | _ => false
  end.

Definition isTextNode (node : Node) : bool :=
  match node with TextNode _ => true | _ => false end.

(** The tree without the children that satisfy [drop], at every depth. *)
Fixpoint without (drop : Node → bool) (node : Node) {struct node} : Node :=
  match node with
  | ElementNode tagName attributes childNodes =>
      ElementNode tagName attributes
        ((fix prune (children : list Node) :=
            match children with
            | [] => []
            | child :: rest =>
                if drop child then prune rest else without drop child :: prune rest
            end) childNodes)
  | DocumentNode childNodes =>
      DocumentNode
        ((fix prune (children : list Node) :=
            match children with
            | [] => []
            | child :: rest =>
                if drop child then prune rest else without drop child :: prune rest
            end) childNodes)
  | DocumentFragment childNodes =>
      DocumentFragment
        ((fix prune (children : list Node) :=
            match children with
            | [] => []
            | child :: rest =>
                if drop child then prune rest else without drop child :: prune rest
            end) childNodes)
  | _ => node
  end.

(** The children of a node list that [without] keeps. *)
Definition pruned (drop : Node → bool) (children : list Node) : list Node :=
  without drop <$> filter (λ child, drop child = false) children.

(** The tree with the attributes of every element taken away. *)
Fixpoint withoutAttributes (node : Node) {struct node} : Node :=
  match node with
  | ElementNode tagName _ childNodes =>
      ElementNode tagName []
        ((fix strip (children : list Node) :=
            match children with
            | [] => []
            | child :: rest => withoutAttributes child :: strip rest
            end) childNodes)
  | DocumentNode childNodes =>
      DocumentNode
        ((fix strip (children : list Node) :=
            match children with
            | [] => []
            | child :: rest => withoutAttributes child :: strip rest
            end) childNodes)
  | DocumentFragment childNodes =>
      DocumentFragment
        ((fix strip (children : list Node) :=
            match children with
            | [] => []
            | child :: rest => withoutAttributes child :: strip rest
            end) childNodes)
  | _ => node
  end.

(** The options with one switch set. *)
Definition withTextNodes (keep : bool) (options : Options) : Options :=
  {| preserveAttributes := preserveAttributes options;
     preserveTextNodes := keep;
     tagMapping := tagMapping options;
     wrapperTag := wrapperTag options |}.

Definition withAttributes (keep : bool) (options : Options) : Options :=
  {| preserveAttributes := keep;
     preserveTextNodes := preserveTextNodes options;
     tagMapping := tagMapping options;
     wrapperTag := wrapperTag options |}.

(** The nodes that give no markup: a text node that is blank or switched
    off, an empty CDATA section, a processing instruction, a document
    type, and a document or fragment of such nodes.  An element and a
    comment always give markup. *)
Fixpoint silent (options : Options) (node : Node) {struct node} : bool :=
  match node with
  | TextNode text => negb (preserveTextNodes options) || negb (truthy (trim text))
  | CDataSection text => negb (truthy text)
  | CommentNode _ | ElementNode _ _ _ => false
  | ProcessingInstruction _ _ | DocumentType _ => true
  | DocumentNode childNodes | DocumentFragment childNodes =>
      forallb (silent options) childNodes
  end.

End TreeOps.

(** ** The table id store of [storage.js], and the view that keeps ids

    [removeTableId] with the helpers already given, and the methods of the
    [DisplayView.vue] that selects each table at most once: its selection is
    the stored order list. *)

Module IdStore.
Import DisplayView.

Section Store.
Context {Json : Type}.

Definition removeTableId (tableId : jsstring) (s : Session Json)
    : bool * Session Json :=
  if negb (truthy tableId) then (false, s)
  else
    let ids := getAllTableIds s in
    match indexOf tableId ids with
    | None => (false, s)
    | Some index =>
        let s := setTableIds (splice1 index ids) s in
        let order := getTableOrder s in
        match indexOf tableId order with
        | Some orderIndex => (true, setOrder (splice1 orderIndex order) s)
        | None => (true, s)
        end
    end.

(** The data of the component: the selection shown, the index of the
    entry picked in it (-1 for none), and the session storage. *)
Record View := {
  selectedTableIds : list jsstring;
  currentIndex : Z;
  store : Session Json
}.

(** The messages shown: 已从列表移除, 已添加到列表, 已移除, 已上移, 已下移,
    顺序已更新. *)
Inductive Notice :=
| Info_RemovedFromList
| Success_Added
| Success_Removed
| Success_MovedUp
| Success_MovedDown
| Success_OrderUpdated.

Definition syncSelectedTableIds (v : View) : View :=
  {| selectedTableIds := getTableOrder (store v);
     currentIndex := currentIndex v;
     store := store v |}.

Definition toggleSelect (tableId : jsstring) (v : View) : View * option Notice :=
  if negb (truthy tableId) then (v, None)
  else
    match indexOf tableId (selectedTableIds v) with
    | Some index =>
        let s := (removeTableId tableId (store v)).2 in
        (syncSelectedTableIds
           {| selectedTableIds := selectedTableIds v;
              currentIndex := currentIndex v; store := s |},
         Some Info_RemovedFromList)
    | None =>
        let s := (addTableId tableId (store v)).2 in
        (syncSelectedTableIds
           {| selectedTableIds := selectedTableIds v;
              currentIndex := currentIndex v; store := s |},
         Some Success_Added)
    end.

Definition removeSelected (tableId : jsstring) (v : View) : View * option Notice :=
  match indexOf tableId (selectedTableIds v) with
  | Some index =>
      let s := (removeTableId tableId (store v)).2 in
      let current :=
        if bool_decide (currentIndex v = Z.of_nat index) then (-1)%Z
        else if bool_decide (currentIndex v > Z.of_nat index)%Z
             then (currentIndex v - 1)%Z
             else currentIndex v in
      (syncSelectedTableIds
         {| selectedTableIds := selectedTableIds v;
            currentIndex := current; store := s |},
       Some Success_Removed)
  | None => (v, None)
  end.

(** [newOrder[i] = newOrder[j]; newOrder[j] = temp] on a copy, for two
    indices in range. *)
Definition swapped (i j : nat) (l : list jsstring) : list jsstring :=
  match l !! i, l !! j with
  | Some temp, Some other => <[j := temp]> (<[i := other]> l)
  | _, _ => l
  end.

Definition moveUp (v : View) : View * option Notice :=
  if bool_decide (currentIndex v <= 0
                  ∨ currentIndex v >= Z.of_nat (length (selectedTableIds v)))%Z
  then (v, None)
  else
    let i := Z.to_nat (currentIndex v) in
    let newOrder := swapped i (i - 1) (selectedTableIds v) in
    let s := (updateTableOrder newOrder (store v)).2 in
    (syncSelectedTableIds
       {| selectedTableIds := selectedTableIds v;
          currentIndex := (currentIndex v - 1)%Z; store := s |},
     Some Success_MovedUp).

Definition moveDown (v : View) : View * option Notice :=
  if bool_decide (currentIndex v < 0
                  ∨ currentIndex v >= Z.of_nat (length (selectedTableIds v)) - 1)%Z
  then (v, None)
  else
    let i := Z.to_nat (currentIndex v) in
    let newOrder := swapped i (i + 1) (selectedTableIds v) in
    let s := (updateTableOrder newOrder (store v)).2 in
    (syncSelectedTableIds
       {| selectedTableIds := selectedTableIds v;
          currentIndex := (currentIndex v + 1)%Z; store := s |},
     Some Success_MovedDown).

(** *** Runs of the store *)

Inductive Op :=
| Add (tableId : jsstring)
| Remove (tableId : jsstring)
| Reorder (orderArray : list jsstring)
| Clear.

Definition step (s : Session Json) (op : Op) : Session Json :=
  match op with
  | Add tableId => (addTableId tableId s).2
  | Remove tableId => (removeTableId tableId s).2
  | Reorder orderArray => (updateTableOrder orderArray s).2
  | Clear => (clearTableIds s).2
  end.

Definition run (ops : list Op) (s : Session Json) : Session Json :=
  foldl step s ops.

(** The id list holds no id twice, and the order list is a rearrangement
    of it. *)
Definition wellFormed (s : Session Json) : Prop :=
  NoDup (getAllTableIds s) ∧ getTableOrder s ≡ₚ getAllTableIds s.

(** A proposal that names no id twice, as a drag or a swap of the selection
    gives. *)
Definition admissible (op : Op) : Prop :=
  match op with
  | Reorder orderArray => NoDup orderArray
  | _ => True
  end.

(** The view shows the stored order, and the store is well formed. *)
Definition inStep (v : View) : Prop :=
  wellFormed (store v) ∧ selectedTableIds v = getTableOrder (store v).
End Store.
Arguments View : clear implicits.

End IdStore.

(** ** The rest of the selection methods of [DisplayView.vue]

    [isSelected], [onDragEnd], [clearSelected], [syncSelectedTableIds],
    [loadSelectedTables] and [handleDownload] of the view that keeps whole
    entries.  The component data they touch beyond [State] is gathered in
    [Page]. *)

Module SelectionView.
Import DisplayView.

Section View.
Context {Json : Type}.

Record Page := {
  state : State Json;
  selectedTableIds : list jsstring;
  downloading : bool;
  errorMessage : jsstring
}.

Definition withState (st : State Json) (p : Page) : Page :=
  {| state := st; selectedTableIds := selectedTableIds p;
     downloading := downloading p; errorMessage := errorMessage p |}.

Definition withSession (s : Session Json) (st : State Json) : State Json :=
  {| tableList := tableList st; selectedTables := selectedTables st;
     currentSelectedIndex := currentSelectedIndex st; session := s |}.

(** The messages shown: 顺序已更新, 已清空, 请先选择要下载的表格, 下载成功！
    and the error text of a failed download. *)
Inductive Toast :=
| Success_OrderUpdated
| Success_Cleared
| Warning_SelectFirst
| Success_Downloaded
| Error_Shown (text : jsstring).

Definition isSelected (tableId : jsstring) (st : State Json) : bool :=
  existsb (λ item, bool_decide (id (fields item) = tableId)) (selectedTables st).

(** [onDragEnd()], after the list component has rearranged
    [selectedTables]. *)
Definition onDragEnd (st : State Json) : State Json * Toast :=
  let tableIds := (λ item, id (fields item)) <$> selectedTables st in
  let s := (updateTableOrder tableIds (session st)).2 in
  let s := setItems (selectedTables st) s in
  (withSession s st, Success_OrderUpdated).

(** [clearSelected()]: [confirmed] tells whether the dialog was
    confirmed; when it is dismissed nothing happens. *)
Definition clearSelected (confirmed : bool) (p : Page) : Page * option Toast :=
  if confirmed then
    let s := (clearTableIds (session (state p))).2 in
    let s := setItems [] s in
    ({| state := {| tableList := tableList (state p); selectedTables := [];
                    currentSelectedIndex := (-1)%Z; session := s |};
        selectedTableIds := [];
        downloading := downloading p; errorMessage := errorMessage p |},
     Some Success_Cleared)
  else (p, None).

(** *** syncSelectedTableIds *)

(** [itemMap.get(tableId) || []]: the stored entries of that id, in
    their stored order. *)
Definition itemsOf (storedItems : list (TableItem Json)) (tableId : jsstring)
    : list (TableItem Json) :=
  filter (λ item, id (fields item) = tableId) storedItems.

(** One round of [order.forEach]: the first entry of that id whose
    [uniqueId] is not used yet, or else the first entry of that id, or
    nothing when no entry has that id. *)
Definition place (storedItems : list (TableItem Json))
    (acc : gset jsstring * list (TableItem Json)) (tableId : jsstring)
    : gset jsstring * list (TableItem Json) :=
  let usedUniqueIds := acc.1 in
  let orderedItems := acc.2 in
  let items := itemsOf storedItems tableId in
  match snd <$> list_find (λ i, uniqueId i ∉ usedUniqueIds) items with
  | Some item => ({[uniqueId item]} ∪ usedUniqueIds, orderedItems ++ [item])
  | None =>
      match items with
      | first :: _ => ({[uniqueId first]} ∪ usedUniqueIds, orderedItems ++ [first])
      | [] => acc
      end
  end.

Definition orderedItems (storedItems : list (TableItem Json)) (order : list jsstring)
    : list (TableItem Json) :=
  (foldl (place storedItems) (∅, []) order).2.

(** The entries rebuilt from the result list when only the order list is
    stored; [now k] and [random k] are the texts of [Date.now()] and of
    [Math.random().toString(36).substr(2, 9)] at the entry [k] of the
    order list. *)
Definition rebuilt (now random : nat → jsstring) (tables : list (Table Json))
    (order : list jsstring) : list (TableItem Json) :=
  omap (λ item, item)
    (imap (λ k tableId,
             match snd <$> list_find (λ t, id t = tableId) tables with
             | Some table =>
                 Some {| uniqueId := tableId ++ js "_" ++ now k ++ js "_" ++ random k;
                         fields := table |}
             | None => None
             end) order).

Definition syncSelectedTableIds (now random : nat → jsstring) (p : Page) : Page :=
  let st := state p in
  let storedItems := getStoredItems (session st) in
  let order := getTableOrder (session st) in
  if bool_decide (0 < length storedItems)
     && bool_decide (length storedItems = length order)
  then
    {| state := {| tableList := tableList st;
                   selectedTables := orderedItems storedItems order;
                   currentSelectedIndex := currentSelectedIndex st;
                   session := session st |};
       selectedTableIds := order;
       downloading := downloading p; errorMessage := errorMessage p |}
  else if bool_decide (0 < length storedItems) then
    let newOrder := (λ item, id (fields item)) <$> storedItems in
    let s := (updateTableOrder newOrder (session st)).2 in
    {| state := {| tableList := tableList st;
                   selectedTables := storedItems;
                   currentSelectedIndex := currentSelectedIndex st;
                   session := s |};
       selectedTableIds := newOrder;
       downloading := downloading p; errorMessage := errorMessage p |}
  else if bool_decide (0 < length order) then
    let selected := rebuilt now random (tableList st) order in
    let s := if bool_decide (0 < length selected)
             then setItems selected (session st) else session st in
    {| state := {| tableList := tableList st;
                   selectedTables := selected;
                   currentSelectedIndex := currentSelectedIndex st;
                   session := s |};
       selectedTableIds := order;
       downloading := downloading p; errorMessage := errorMessage p |}
  else
    {| state := {| tableList := tableList st;
                   selectedTables := [];
                   currentSelectedIndex := currentSelectedIndex st;
                   session := session st |};
       selectedTableIds := order;
       downloading := downloading p; errorMessage := errorMessage p |}.

Definition loadSelectedTables (now random : nat → jsstring) (p : Page) : Page :=
  let order := getTableOrder (session (state p)) in
  syncSelectedTableIds now random
    {| state := state p; selectedTableIds := order;
       downloading := downloading p; errorMessage := errorMessage p |}.

(** *** handleDownload *)

(** 下载失败: and 未知错误 *)
Definition downloadFailed : jsstring :=
  [19979; 36733; 22833; 36133]%N ++ js ": ".

Definition unknownError : jsstring := [26410; 30693; 38169; 35823]%N.

(** [handleDownload()].  [downloadTables ids] is how the awaited request
    and the click on the link built for its document end: normally, or
    with an error whose [message] is given.  The link and the route change
    touch nothing of the page's data; no other method runs while the
    request is awaited.
    The result is the page, the ids requested if any, and the message
    shown. *)
Definition handleDownload {Blob} (downloadTables : list jsstring → Completion Blob)
    (p : Page) : Page * option (list jsstring) * Toast :=
  let st := state p in
  let ids := (λ item, id (fields item)) <$> selectedTables st in
  if bool_decide (length ids = 0) then
    ({| state := st; selectedTableIds := ids;
        downloading := downloading p; errorMessage := errorMessage p |},
     None, Warning_SelectFirst)
  else
    match downloadTables ids with
    | Normal blob =>
        let s := (clearTableIds (session st)).2 in
        ({| state := {| tableList := tableList st; selectedTables := [];
                        currentSelectedIndex := (-1)%Z; session := s |};
            selectedTableIds := [];
            downloading := false; errorMessage := [] |},
         Some ids, Success_Downloaded)
    | Throw (Error message) =>
        let text := downloadFailed ++ or_else message unknownError in
        ({| state := st; selectedTableIds := ids;
            downloading := false; errorMessage := text |},
         Some ids, Error_Shown text)
    end.

(** *** What the properties speak of *)

(** The stored entries whose [uniqueId] is not used yet. *)
Definition unused (usedUniqueIds : gset jsstring) (storedItems : list (TableItem Json))
    : list (TableItem Json) :=
  filter (λ i, uniqueId i ∉ usedUniqueIds) storedItems.

(** The session mirrors the selection shown: the stored entries are the
    selection, the order list names its ids in order, the id list names
    them in some order, and no two entries share a [uniqueId]. *)
Definition aligned (st : State Json) : Prop :=
  getStoredItems (session st) = selectedTables st
  ∧ getTableOrder (session st) = ((λ item, id (fields item)) <$> selectedTables st)
  ∧ getAllTableIds (session st) ≡ₚ ((λ item, id (fields item)) <$> selectedTables st)
  ∧ NoDup (uniqueId <$> selectedTables st).
End View.
Arguments Page : clear implicits.

End SelectionView.
(** ** Sessions to run the views on *)

Module Cases.
Import DisplayView.

(** The view that keeps ids, showing [t1], [t2] with [t2] picked. *)
Definition idView : IdStore.View unit :=
  {| IdStore.selectedTableIds := [js "t1"; js "t2"];
     IdStore.currentIndex := 1%Z;
     IdStore.store := Scenario.selectedBoth |}.

(** [t1] selected; and [t1], [t2] selected. *)
Definition one : State unit :=
  Scenario.add (js "1700000000001") (js "t1") Scenario.start.

Definition both : State unit :=
  Scenario.add (js "1700000000002") (js "t2") one.

Definition page (st : State unit) : SelectionView.Page unit :=
  {| SelectionView.state := st; SelectionView.selectedTableIds := [];
     SelectionView.downloading := false; SelectionView.errorMessage := [] |}.

(** [both] with the order list [t2], [t1]. *)
Definition reordered : State unit :=
  SelectionView.withSession
    (updateTableOrder [js "t2"; js "t1"] (session both)).2 both.

(** [both] with an order list that names [t3], which no stored entry has. *)
Definition strayOrder : State unit :=
  SelectionView.withSession (setOrder [js "t1"; js "t3"] (session both)) both.

(** [both] after the list component has put [t2] first. *)
Definition dragged : State unit :=
  {| tableList := tableList both; selectedTables := reverse (selectedTables both);
     currentSelectedIndex := currentSelectedIndex both; session := session both |}.

Definition now (k : nat) : jsstring := js "1700000000009".
Definition random (k : nat) : jsstring := js "k3j9x2m1q".

(** A result list that holds the id [t1] twice, with different markup. *)
Definition firstTwin : Table unit :=
  {| id := js "t1"; html := js "<p>first</p>"; xml := js "<p>first</p>";
     similarity := (); metadata := () |}.

Definition secondTwin : Table unit :=
  {| id := js "t1"; html := js "<p>second</p>"; xml := js "<p>second</p>";
     similarity := (); metadata := () |}.

Definition twins : State unit :=
  Scenario.search [firstTwin; secondTwin] Scenario.start.

(** [t2] selected, then [t1], then [t1] dragged before [t2]: the list
    component has rearranged [selectedTables], and [onDragEnd] has run. *)
Definition draggedFirst : State unit :=
  let st := Scenario.add (js "1700000000002") (js "t1")
              (Scenario.add (js "1700000000001") (js "t2") Scenario.start) in
  (SelectionView.onDragEnd
     {| tableList := tableList st; selectedTables := reverse (selectedTables st);
        currentSelectedIndex := currentSelectedIndex st; session := session st |}).1.

(** A request that gives its document. *)
Definition downloadTables (ids : list jsstring) : Completion unit := Normal ().

End Cases.
(** ** The requests of [api/index.js] and the upload page

    [uploadFile] of the api module, and [handleFileChange], [uploadFile]
    of [UploadView.vue]. *)

Module Api.

(** [s.endsWith(suffix)] and [s.startsWith(prefix)] *)
Definition endsWith (s suffix : jsstring) : bool :=
  bool_decide (suffix `suffix_of` s).

Definition startsWith (s prefix : jsstring) : bool :=
  bool_decide (prefix `prefix_of` s).

(** A [File]: its name and its size in bytes. *)
Record File := { name : jsstring; size : Z }.

(** The body of a response, as the response interceptor hands it on; a
    [message] that is absent is the empty string. *)
Record Response {Data : Type} := {
  success : bool;
  message : jsstring;
  data : Data
}.
Arguments Response : clear implicits.

(** How a request fails: with [error.response] set (a reply with an
    error status, whose body may hold a [message] and a [detail]; each is
    the empty string when absent), else with [error.request] set (no
    reply), else with neither and an [error.message]. *)
Inductive Failure :=
| Responded (message detail : jsstring)
| NoResponse
| Other (message : jsstring).

(** How an awaited request ends. *)
Inductive Outcome (A : Type) :=
| Resolved (response : A)
| Rejected (error : Failure).
Arguments Resolved {A} response.
Arguments Rejected {A} error.

(** 文件不能为空, 只支持.docx格式的文件, 文件大小超过限制（最大10MB），当前文件大小：,
    上传失败, 网络错误，请检查网络连接 *)
Definition fileIsEmpty : jsstring := [25991; 20214; 19981; 33021; 20026; 31354]%N.

Definition onlyDocx : jsstring :=
  [21482; 25903; 25345]%N ++ js ".docx" ++ [26684; 24335; 30340; 25991; 20214]%N.

Definition tooLarge : jsstring :=
  [25991; 20214; 22823; 23567; 36229; 36807; 38480; 21046; 65288; 26368; 22823]%N
  ++ js "10MB" ++ [65289; 65292; 24403; 21069; 25991; 20214; 22823; 23567; 65306]%N.

Definition uploadFailed : jsstring := [19978; 20256; 22833; 36133]%N.

Definition networkError : jsstring :=
  [32593; 32476; 38169; 35823; 65292; 35831; 26816; 26597; 32593; 32476; 36830; 25509]%N.

Definition MAX_FILE_SIZE : Z := 10 * 1024 * 1024.

(** The message of the error that the [catch] block throws. *)
Definition explain (fallback : jsstring) (error : Failure) : jsstring :=
  match error with
  | Responded message detail => or_else message (or_else detail fallback)
  | NoResponse => networkError
  | Other message => or_else message fallback
  end.

Section Requests.
(** [toLowerCase] is [String.prototype.toLowerCase]; [megabytes size] is
    the text of [(size / (1024 * 1024)).toFixed(2)]. *)
Context (toLowerCase : jsstring → jsstring) (megabytes : Z → jsstring).
Context {Data : Type}.

(** [uploadFile(file)]; [post file] is how the request ends.  An error
    thrown in the [try] block for a reply that is not a success is caught
    like a failed request. *)
Definition uploadFile (post : File → Outcome (Response Data)) (file : option File)
    : Completion (Response Data) :=
  match file with
  | None => Throw (Error fileIsEmpty)
  | Some file =>
      if negb (truthy (name file))
         || negb (endsWith (toLowerCase (name file)) (js ".docx"))
      then Throw (Error onlyDocx)
      else if bool_decide (size file > MAX_FILE_SIZE)%Z
      then Throw (Error (tooLarge ++ megabytes (size file) ++ js "MB"))
      else
        let attempt :=
          match post file with
          | Resolved response =>
              if success response then Resolved response
              else Rejected (Other (or_else (message response) uploadFailed))
          | Rejected error => Rejected error
          end in
        match attempt with
        | Resolved response => Normal response
        | Rejected error => Throw (Error (explain uploadFailed error))
        end
  end.
End Requests.

End Api.

Module UploadView.
Import Api.

(** 只能上传 .docx 格式的文件, 文件大小超过限制（最大50MB），当前文件大小：,
    上传成功！, 文件上传成功, 上传失败, 上传失败，请重试, 文件上传成功！ *)
Definition onlyDocx : jsstring :=
  [21482; 33021; 19978; 20256]%N ++ js " .docx "
  ++ [26684; 24335; 30340; 25991; 20214]%N.

Definition tooLarge : jsstring :=
  [25991; 20214; 22823; 23567; 36229; 36807; 38480; 21046; 65288; 26368; 22823]%N
  ++ js "50MB" ++ [65289; 65292; 24403; 21069; 25991; 20214; 22823; 23567; 65306]%N.

Definition uploadSucceeded : jsstring := [19978; 20256; 25104; 21151; 65281]%N.

Definition fileUploaded : jsstring := [25991; 20214; 19978; 20256; 25104; 21151]%N.

Definition retry : jsstring :=
  [19978; 20256; 22833; 36133; 65292; 35831; 37325; 35797]%N.

Definition MAX_FILE_SIZE : Z := 50 * 1024 * 1024.

Inductive Status := StatusSuccess | StatusException.

Inductive ResultType := TypeSuccess | TypeError.

Section Page.
Context (toLowerCase : jsstring → jsstring) (megabytes formatFileSize : Z → jsstring).
Context {Data Entry : Type}.

(** [uploadResult]: type, title, message, and the data of a success. *)
Record UploadResult := {
  type : ResultType;
  title : jsstring;
  text : jsstring;
  payload : option Data
}.

Record Page := {
  selectedFile : option File;
  uploading : bool;
  fileList : list Entry;
  uploadProgress : Z;
  uploadStatus : option Status;
  uploadResult : option UploadResult
}.

(** The message shown, if any. *)
Inductive Toast :=
| ErrorToast (text : jsstring)
| SuccessToast (text : jsstring).

(** [handleFileChange(file, fileList)]: [raw] is [file.raw].  Clearing
    the files of the upload component touches nothing of the page's
    data. *)
Definition handleFileChange (raw : option File) (entries : list Entry) (p : Page)
    : Page * option Toast :=
  match raw with
  | None => (p, None)
  | Some raw =>
      if negb (endsWith (toLowerCase (name raw)) (js ".docx")) then
        ({| selectedFile := None; uploading := uploading p; fileList := [];
            uploadProgress := uploadProgress p; uploadStatus := uploadStatus p;
            uploadResult := uploadResult p |},
         Some (ErrorToast onlyDocx))
      else if bool_decide (size raw > MAX_FILE_SIZE)%Z then
        ({| selectedFile := None; uploading := uploading p; fileList := [];
            uploadProgress := uploadProgress p; uploadStatus := uploadStatus p;
            uploadResult := uploadResult p |},
         Some (ErrorToast (tooLarge ++ formatFileSize (size raw))))
      else
        ({| selectedFile := Some raw; uploading := uploading p; fileList := entries;
            uploadProgress := uploadProgress p; uploadStatus := uploadStatus p;
            uploadResult := None |},
         None)
  end.

(** [uploadFile()], when the awaited call has ended; the timer that
    moves the progress bar meanwhile is stopped on both ways out. *)
Definition uploadFile (post : File → Outcome (Response Data)) (p : Page)
    : Page * option Toast :=
  match selectedFile p with
  | None => (p, None)
  | Some file =>
      match Api.uploadFile toLowerCase megabytes post (Some file) with
      | Normal response =>
          ({| selectedFile := selectedFile p; uploading := false;
              fileList := fileList p;
              uploadProgress := 100; uploadStatus := Some StatusSuccess;
              uploadResult :=
                Some {| type := TypeSuccess; title := uploadSucceeded;
                        text := or_else (message response) fileUploaded;
                        payload := Some (data response) |} |},
           Some (SuccessToast (fileUploaded ++ [65281%N])))
      | Throw (Error message) =>
          ({| selectedFile := selectedFile p; uploading := false;
              fileList := fileList p;
              uploadProgress := 0; uploadStatus := Some StatusException;
              uploadResult :=
                Some {| type := TypeError; title := Api.uploadFailed;
                        text := or_else message retry;
                        payload := None |} |},
           Some (ErrorToast (or_else message Api.uploadFailed)))
      end
  end.
End Page.
Arguments Page : clear implicits.
Arguments UploadResult : clear implicits.

End UploadView.
(** ** Splitting a string, and the link to the PDF of a table *)

Module Text.

(** [s.split(separator)] for a separator that matches one code unit, told
    by [isSeparator]: the pieces between the separators, of which there is
    always at least one. *)
Fixpoint split (isSeparator : N → bool) (s : jsstring) : list jsstring :=
  match s with
  | [] => [[]]
  | c :: rest =>
      if isSeparator c then [] :: split isSeparator rest
      else
        match split isSeparator rest with
        | piece :: pieces => (c :: piece) :: pieces
        | [] => [[c]]
        end
  end.

(** [array.pop()] of a fresh array: its last element. *)
Definition pop {A} (l : list A) : option A := last l.

(** [array.join(separator)] *)
Fixpoint join (separator : jsstring) (pieces : list jsstring) : jsstring :=
  match pieces with
  | [] => []
  | [piece] => piece
  | piece :: pieces => piece ++ separator ++ join separator pieces
  end.

End Text.

Module PdfLink.

(** The class [[/\\]] of the regular expression: a slash or a
    backslash. *)
Definition isPathSeparator (c : N) : bool := ((c =? 47) || (c =? 92))%N.

Definition base : jsstring := js "http://localhost/table-pdf/".

(** [getTablePdfUrl(table)] and [getSelectedTablePdfUrl(tableItem)], which
    have the same body: [pdf_path] is [table.metadata.pdf_path], and
    [None] when the table, its metadata or that field is missing. *)
Definition getTablePdfUrl (pdf_path : option jsstring) : option jsstring :=
  match pdf_path with
  | None => None
  | Some pdfPath =>
      if negb (truthy pdfPath) then None
      else
        match Text.pop (Text.split isPathSeparator pdfPath) with
        | None => None
        | Some fileName =>
            if negb (truthy fileName) then None
            else Some (base ++ fileName)
        end
  end.

End PdfLink.
(** ** xml2htmlFormatted *)

Module Formatter.
Import Xml2Html.

Definition lineFeed : N := 10.

Definition isLineFeed (c : N) : bool := (c =? lineFeed)%N.

(** [html.replace(/></g, '>\n<')]: every greater-than sign that a
    less-than sign follows gets a line feed after it (two matches cannot
    overlap). *)
Fixpoint breakTags (html : jsstring) : jsstring :=
  match html with
  | [] => []
  | c :: rest =>
      if (c =? 62)%N && bool_decide (head rest = Some 60%N)
      then c :: lineFeed :: breakTags rest
      else c :: breakTags rest
  end.

(** [s.repeat(count)] for a count that is not negative. *)
Definition repeated (s : jsstring) (count : nat) : jsstring :=
  concat (replicate count s).

(** The callback of [map], run over the lines in order; [indentLevel] is
    the variable that it reads and updates. *)
Fixpoint indented (indent : jsstring) (indentLevel : nat) (lines : list jsstring)
    : list jsstring :=
  match lines with
  | [] => []
  | line :: rest =>
      let trimmed := trim line in
      if negb (truthy trimmed) then [] :: indented indent indentLevel rest
      else
        let indentLevel :=
          if Api.startsWith trimmed (js "</") then Nat.pred indentLevel
          else indentLevel in
        let indentedLine := repeated indent indentLevel ++ trimmed in
        let indentLevel :=
          if Api.startsWith trimmed (js "<")
             && negb (Api.startsWith trimmed (js "</"))
             && negb (Api.endsWith trimmed (js "/>"))
          then S indentLevel else indentLevel in
        indentedLine :: indented indent indentLevel rest
  end.

(** The two options that only [xml2htmlFormatted] reads; [None] stands
    for a property that is absent.  [indentSize] is a whole number. *)
Record Layout := {
  indentSize : option Z;
  indentChar : option jsstring
}.

Definition sizeOf (layout : Layout) : Z := default 2%Z (indentSize layout).
Definition charOf (layout : Layout) : jsstring := default (js " ") (indentChar layout).

Section Formatted.
Context (toLowerCase : jsstring → jsstring)
        (parseFromString : jsstring → Completion Node).

(** [repeat] throws a [RangeError] on a negative count; its message is
    the engine's, and these are the first words of one.  It throws as
    well on an infinite count and on a result beyond the length that the
    engine allows for a string: here [indentSize] is a whole number, and
    the strings built stay within that length. *)
Definition xml2htmlFormatted (xmlString : jsstring) (options : Options)
    (layout : Layout) : Completion jsstring :=
  let html := xml2html toLowerCase parseFromString xmlString options in
  if negb (truthy html) then Normal []
  else if bool_decide (sizeOf layout < 0)%Z
  then Throw (Error (js "Invalid count value"))
  else
    let indent := repeated (charOf layout) (Z.to_nat (sizeOf layout)) in
    Normal
      (Text.join [lineFeed]
         (filter (λ line, truthy line = true)
            (indented indent 0 (Text.split isLineFeed (breakTags html))))).
End Formatted.

(** *** What the properties speak of *)

(** The code units of a string that are not white space. *)
Definition visible (s : jsstring) : jsstring :=
  filter (λ c, isWhiteSpace c = false) s.

(** A code unit that is no less-than sign, greater-than sign, slash or
    line feed. *)
Definition plain (c : N) : bool :=
  negb ((c =? 60) || (c =? 62) || (c =? 47) || (c =? lineFeed))%N.

Section Layout.
Context (toLowerCase : jsstring → jsstring).

(** The name of an element in the markup. *)
Definition htmlName (options : Options) (tagName : jsstring) : jsstring :=
  htmlTagNameOf options (lowerTagName toLowerCase tagName).

(** A tree of elements only, whose names in the markup and attribute
    names are made of plain code units and whose attribute values hold no
    line feed. *)
Fixpoint tidy (options : Options) (node : Node) {struct node} : bool :=
  match node with
  | ElementNode tagName attributes childNodes =>
      forallb plain (htmlName options tagName)
      && forallb (λ attr, forallb plain (attrName attr)
                          && forallb (λ c, negb (isLineFeed c)) (attrValue attr))
                 attributes
      && forallb (tidy options) childNodes
  | _ => false
  end.

(** The lines of a tidy tree laid out: every tag on a line of its own,
    indented once for each element around it. *)
Fixpoint layoutOf (options : Options) (indent : jsstring) (depth : nat) (node : Node)
    {struct node} : list jsstring :=
  match node with
  | ElementNode tagName attributes childNodes =>
      let htmlTagName := htmlName options tagName in
      let html := openTag options htmlTagName attributes in
      if includes htmlTagName selfClosingTags
         && match childNodes with [] => true | _ => false end
      then [repeated indent depth ++ html ++ js " />"]
      else [repeated indent depth ++ html ++ js ">"]
           ++ flat_map (layoutOf options indent (S depth)) childNodes
           ++ [repeated indent depth ++ js "</" ++ htmlTagName ++ js ">"]
  | _ => []
  end.
End Layout.

End Formatter.
(** *** The lines of the formatter *)

Module Lines.

(** A code unit inside a tag: no less-than sign, greater-than sign or
    line feed. *)
Definition inner (c : N) : Prop :=
  c ≠ 60%N ∧ c ≠ 62%N ∧ c ≠ Formatter.lineFeed.

(** A line that is one tag. *)
Definition tagLine (line : jsstring) : Prop :=
  ∃ body, line = 60%N :: body ++ [62%N] ∧ Forall inner body.

End Lines.
(** *** Rows of cells *)

Module Rows.
Import Xml2Html Formatter.

(** A line that [breakTags] leaves in one piece, whatever follows its
    last code unit but one. *)
Definition unbroken (line : jsstring) : Prop :=
  ∃ front, line = 60%N :: front ++ [62%N]
    ∧ ∀ rest, breakTags (60%N :: front ++ rest) = 60%N :: front ++ breakTags rest.

(** A line whose first tag is an open tag that is not closed in itself. *)
Definition opening (line : jsstring) : Prop :=
  ∃ body, line = 60%N :: body ++ [62%N]
    ∧ head body ≠ Some 47%N ∧ last body ≠ Some 47%N.

Section Row.
Context (toLowerCase : jsstring → jsstring).

(** An element that holds one text node, whose text is not blank and
    holds no line feed once trimmed; its names are as in a tidy tree. *)
Definition cell (options : Options) (node : Node) : bool :=
  match node with
  | ElementNode tagName attributes [TextNode text] =>
      forallb plain (htmlName toLowerCase options tagName)
      && forallb (λ attr, forallb plain (attrName attr)
                          && forallb (λ c, negb (isLineFeed c)) (attrValue attr))
                 attributes
      && truthy (trim text)
      && forallb (λ c, negb (isLineFeed c)) (trim text)
  | _ => false
  end.

(** What the formatter gives for an element whose children are cells:
    the open tag, each cell on a line that is indented once more than the
    line before it, and the close tag, indented as many times as there
    are cells. *)
Definition rowLayout (options : Options) (indent : jsstring) (tagName : jsstring)
    (attributes : list Attr) (cells : list Node) : list jsstring :=
  let htmlTagName := htmlName toLowerCase options tagName in
  [openTag options htmlTagName attributes ++ js ">"]
  ++ imap (λ i child, repeated indent (S i) ++ nodeToHtml toLowerCase options child)
          cells
  ++ [repeated indent (length cells) ++ js "</" ++ htmlTagName ++ js ">"].
End Row.

End Rows.
(** * Properties *)

Import Xml2Html Vocabulary.

(** ** Strings *)

Lemma truthy_false (s : jsstring) : truthy s = false ↔ s = [].
Proof. destruct s; simpl; split; congruence. Qed.

Lemma truthy_app (s t : jsstring) : truthy (s ++ t) = truthy s || truthy t.
Proof. by destruct s. Qed.

Lemma or_else_same (s t : jsstring) : or_else (or_else s s) t = or_else s t.
Proof. by destruct s. Qed.

Lemma trimStart_blank (s : jsstring) :
  forallb isWhiteSpace s = true → trimStart s = [].
Proof.
  induction s as [|c s IH]; simpl; [done|].
  intros [-> Hs]%andb_prop. auto.
Qed.

Lemma trim_blank (s : jsstring) : forallb isWhiteSpace s = true → trim s = [].
Proof. intros Hs. unfold trim, trimEnd. by rewrite (trimStart_blank s). Qed.

(** ** The escaper *)

Lemma escapeHtml_app (s t : jsstring) :
  escapeHtml (s ++ t) = escapeHtml s ++ escapeHtml t.
Proof. unfold escapeHtml. induction s as [|c s IH]; simpl; [done|]. by rewrite IH, app_assoc. Qed.

Lemma escapeHtml_cons (c : N) (s : jsstring) :
  escapeHtml (c :: s) = escapeHtml [c] ++ escapeHtml s.
Proof. apply (escapeHtml_app [c] s). Qed.

Lemma escapeHtml_plain (c : N) : c ∉ reserved → escapeHtml [c] = [c].
Proof.
  intros Hc. unfold escapeHtml, includes. simpl.
  by rewrite bool_decide_eq_false_2.
Qed.

Lemma escapeHtml_reserved (c : N) :
  c ∈ reserved → escapeHtml [c] ∈ entities ∧ escapeHtml [c] ≠ [c].
Proof.
  unfold reserved. rewrite !elem_of_cons, elem_of_nil.
  intros [->|[->|[->|[->|[->|[]]]]]]; (split; [|done]);
    apply list_elem_of_In; vm_compute; auto 10.
Qed.

Lemma escapeHtml_Escaped (s : jsstring) : Escaped (escapeHtml s).
Proof.
  induction s as [|c s IH]; [constructor|].
  rewrite escapeHtml_cons.
  destruct (decide (c ∈ reserved)) as [Hc|Hc].
  - apply Escaped_entity; [by apply escapeHtml_reserved | done].
  - rewrite escapeHtml_plain by done. by constructor.
Qed.

Lemma Escaped_no_reserved_head (c : N) (s : jsstring) :
  Escaped (c :: s) → c ∈ [60; 62; quot; 39]%N → False.
Proof.
  intros H Hc. inversion H as [|c' s' Hn _ Heq|e s' He _ Heq]; subst.
  - apply Hn. unfold reserved. apply elem_of_cons. by right.
  - unfold entities in He. rewrite !elem_of_cons, elem_of_nil in He.
    destruct He as [->|[->|[->|[->|[->|[]]]]]];
      vm_compute in Heq; injection Heq as <- _;
      apply list_elem_of_In in Hc; vm_compute in Hc;
      repeat (destruct Hc as [Hc|Hc]; [discriminate Hc|]); done.
Qed.

(** ** The transducer *)

Section NodeInduction.
Context (P : Node → Prop).
Hypothesis Htext : ∀ t, P (TextNode t).
Hypothesis Hcdata : ∀ t, P (CDataSection t).
Hypothesis Hcomment : ∀ t, P (CommentNode t).
Hypothesis Hpi : ∀ t d, P (ProcessingInstruction t d).
Hypothesis Hdoctype : ∀ n, P (DocumentType n).
Hypothesis Helement : ∀ t a cs, Forall P cs → P (ElementNode t a cs).
Hypothesis Hdocument : ∀ cs, Forall P cs → P (DocumentNode cs).
Hypothesis Hfragment : ∀ cs, Forall P cs → P (DocumentFragment cs).

Lemma Node_nested_ind : ∀ node, P node.
Proof using All.
  fix IH 1. intros [t|t|t|t d|n|t a cs|cs|cs].
  - apply Htext.
  - apply Hcdata.
  - apply Hcomment.
  - apply Hpi.
  - apply Hdoctype.
  - apply Helement. induction cs as [|c cs IHcs]; constructor; [apply IH | apply IHcs].
  - apply Hdocument. induction cs as [|c cs IHcs]; constructor; [apply IH | apply IHcs].
  - apply Hfragment. induction cs as [|c cs IHcs]; constructor; [apply IH | apply IHcs].
Qed.
End NodeInduction.

Section TransducerFacts.
Context (toLowerCase : jsstring → jsstring).
Implicit Types (options : Options) (node : Node).

Lemma attribute_loop (html : jsstring) (attributes : list Attr) :
  foldl appendAttr html attributes = html ++ flat_map attrToHtml attributes.
Proof.
  revert html. induction attributes as [|a l IH]; intros html; cbn [foldl flat_map].
  - by rewrite app_nil_r.
  - rewrite IH. unfold appendAttr at 1. unfold attrToHtml at 2. unfold attrName, attrValue.
    rewrite !or_else_same.
    replace (or_else (value a) []) with (value a) by (by destruct (value a)).
    replace (or_else (name a) (name a)) with (name a) by (by destruct (name a)).
    by rewrite <- !app_assoc.
Qed.

Lemma openTag_eq options (htmlTagName : jsstring) (attributes : list Attr) :
  openTag options htmlTagName attributes
  = js "<" ++ htmlTagName
    ++ (if preserveAttributes options then flat_map attrToHtml attributes else []).
Proof.
  unfold openTag. destruct (preserveAttributes options).
  - by rewrite attribute_loop, <- app_assoc.
  - by rewrite app_nil_r.
Qed.

Lemma children_loop options (children : list Node) (acc : jsstring * bool) :
  (fix loop (children : list Node) (acc : jsstring * bool) :=
     match children with
     | [] => acc
     | child :: rest =>
         let childHtml := nodeToHtml toLowerCase options child in
         loop rest (if truthy childHtml then (acc.1 ++ childHtml, true) else acc)
     end) children acc
  = (acc.1 ++ childrenToHtml toLowerCase options children,
     acc.2 || truthy (childrenToHtml toLowerCase options children)).
Proof.
  revert acc. induction children as [|c cs IH]; intros [html has]; simpl.
  - by rewrite app_nil_r, orb_false_r.
  - rewrite IH. unfold childrenToHtml. simpl. rewrite truthy_app.
    destruct (nodeToHtml toLowerCase options c) as [|x r] eqn:E; simpl.
    + done.
    + by rewrite <- app_assoc, orb_true_r.
Qed.

Lemma document_loop options (children : list Node) (html : jsstring) :
  (fix loop (children : list Node) (html : jsstring) :=
     match children with
     | [] => html
     | child :: rest => loop rest (html ++ nodeToHtml toLowerCase options child)
     end) children html
  = html ++ childrenToHtml toLowerCase options children.
Proof.
  revert html. induction children as [|c cs IH]; intros html; simpl.
  - by rewrite app_nil_r.
  - rewrite IH. unfold childrenToHtml. simpl. by rewrite <- app_assoc.
Qed.


(** The element branch in closed form. *)
Lemma nodeToHtml_element options (tagName : jsstring) (attributes : list Attr)
    (childNodes : list Node) :
  nodeToHtml toLowerCase options (ElementNode tagName attributes childNodes)
  = let htmlTagName := htmlTagNameOf options (lowerTagName toLowerCase tagName) in
    let html := openTag options htmlTagName attributes in
    if closesItself toLowerCase options tagName childNodes
    then html ++ js " />"
    else html ++ js ">" ++ childrenToHtml toLowerCase options childNodes
              ++ closeTag htmlTagName.
Proof.
  cbn [nodeToHtml]. rewrite children_loop. cbn [fst snd orb app].
  unfold closesItself, closeTag.
  destruct (childrenToHtml toLowerCase options childNodes) eqn:E;
    cbn [truthy negb]; [|rewrite andb_false_r]; by rewrite <- ?app_assoc.
Qed.

Lemma childrenToHtml_ext options options' (children : list Node) :
  Forall (λ node, nodeToHtml toLowerCase options node
                  = nodeToHtml toLowerCase options' node) children →
  childrenToHtml toLowerCase options children
  = childrenToHtml toLowerCase options' children.
Proof.
  unfold childrenToHtml. induction 1 as [|c cs Hc _ IH]; cbn [flat_map]; congruence.
Qed.

(** [wrapperTag] plays no part in [nodeToHtml]. *)
Lemma nodeToHtml_nodeOptions options node :
  nodeToHtml toLowerCase (nodeOptions options) node
  = nodeToHtml toLowerCase options node.
Proof.
  induction node as [t|t|t|t d|n|t a cs IH|cs IH|cs IH] using Node_nested_ind;
    try reflexivity.
  - rewrite !nodeToHtml_element. unfold closesItself.
    by rewrite (childrenToHtml_ext _ _ _ IH).
  - cbn [nodeToHtml]. rewrite !document_loop. f_equal. by apply childrenToHtml_ext.
  - cbn [nodeToHtml]. rewrite !document_loop. f_equal. by apply childrenToHtml_ext.
Qed.

End TransducerFacts.

Section TransducerClaims.
Context (toLowerCase : jsstring → jsstring).
Implicit Types (options : Options) (node : Node).

Lemma escapeHtml_single (c : N) :
  escapeHtml [c]
  = if (c =? 38)%N then js "&amp;"
    else if (c =? 60)%N then js "&lt;"
    else if (c =? 62)%N then js "&gt;"
    else if (c =? 34)%N then js "&quot;"
    else if (c =? 39)%N then js "&#39;"
    else [c].
Proof.
  destruct (N.eqb_spec c 38) as [->|?]; [reflexivity|].
  destruct (N.eqb_spec c 60) as [->|?]; [reflexivity|].
  destruct (N.eqb_spec c 62) as [->|?]; [reflexivity|].
  destruct (N.eqb_spec c 34) as [->|?]; [reflexivity|].
  destruct (N.eqb_spec c 39) as [->|?]; [reflexivity|].
  apply escapeHtml_plain. unfold reserved, quot.
  rewrite !elem_of_cons, elem_of_nil. tauto.
Qed.

(** C8, amended.  The escaper replaces the ampersand, the less-than sign,
    the greater-than sign and the quotation mark by their named entities,
    and the apostrophe by its numeric reference; it copies every other
    code unit.  A text node emits its trimmed value escaped, every
    attribute of an open tag carries its value escaped, and the content
    of a CDATA section and of a comment is emitted as it is. *)
Theorem escaping_rule options :
  escapeHtml [] = []
  ∧ (∀ (c : N) (text : jsstring),
       escapeHtml (c :: text)
       = (if (c =? 38)%N then js "&amp;"
          else if (c =? 60)%N then js "&lt;"
          else if (c =? 62)%N then js "&gt;"
          else if (c =? 34)%N then js "&quot;"
          else if (c =? 39)%N then js "&#39;"
          else [c]) ++ escapeHtml text)
  ∧ (∀ text : jsstring,
       nodeToHtml toLowerCase options (TextNode text)
       = if preserveTextNodes options then escapeHtml (trim text) else [])
  ∧ (∀ (htmlTagName : jsstring) (attributes : list Attr),
       openTag options htmlTagName attributes
       = js "<" ++ htmlTagName
         ++ if preserveAttributes options
            then flat_map (λ attr, js " " ++ name attr ++ js "=" ++ [quot]
                                     ++ escapeHtml (value attr) ++ [quot])
                          attributes
            else [])
  ∧ (∀ text : jsstring,
       nodeToHtml toLowerCase options (CDataSection text) = text)
  ∧ (∀ text : jsstring,
       nodeToHtml toLowerCase options (CommentNode text)
       = js "<!--" ++ text ++ js "-->").
Proof.
  repeat split; try reflexivity.
  - intros c text. by rewrite escapeHtml_cons, escapeHtml_single.
  - intros text. cbn [nodeToHtml]. by destruct (preserveTextNodes options).
  - intros h attrs. apply openTag_eq.
Qed.

Lemma self_closing_last (htmlTagName : jsstring) :
  htmlTagName ∈ selfClosingTags →
  ∃ front c, htmlTagName = front ++ [c] ∧ c ≠ 47%N.
Proof.
  intros H. exists (removelast htmlTagName), (List.last htmlTagName 0%N).
  unfold selfClosingTags in H. rewrite !elem_of_cons, elem_of_nil in H.
  repeat (destruct H as [->|H]; [by vm_compute|]). done.
Qed.

(** C6.  An element whose mapped tag name is in the fixed set and whose
    children gave no markup is emitted as its open tag closed by [ />]:
    the output ends in [/>] and not in the close tag.  Every other
    element is emitted with its close tag, children or not. *)
Theorem self_closing_rule options (tagName : jsstring) (attributes : list Attr)
    (childNodes : list Node) :
  let htmlTagName := htmlTagNameOf options (lowerTagName toLowerCase tagName) in
  let html := nodeToHtml toLowerCase options (ElementNode tagName attributes childNodes) in
  if includes htmlTagName selfClosingTags
     && negb (truthy (childrenToHtml toLowerCase options childNodes))
  then html = openTag options htmlTagName attributes ++ js " " ++ js "/>"
       ∧ ¬ (closeTag htmlTagName `suffix_of` html)
  else html = openTag options htmlTagName attributes ++ js ">"
              ++ childrenToHtml toLowerCase options childNodes
              ++ closeTag htmlTagName.
Proof.
  intros h html. subst html. rewrite nodeToHtml_element. unfold closesItself.
  fold h. cbv zeta.
  destruct (includes h selfClosingTags) eqn:Hin; cbn [andb]; [|done].
  destruct (truthy _); cbn [negb]; [done|].
  split; [done|].
  intros [k Hk].
  apply bool_decide_eq_true in Hin.
  destruct (self_closing_last h Hin) as (front & c & Hh & Hc).
  apply Hc. unfold closeTag in Hk. rewrite Hh in Hk.
  change (js " />") with ([32; 47]%N ++ js ">") in Hk.
  rewrite !app_assoc in Hk. apply app_inj_tail in Hk as [Hk _].
  rewrite <- !app_assoc in Hk.
  change ([32; 47]%N) with ([32%N] ++ [47%N]) in Hk.
  rewrite !app_assoc in Hk. by apply app_inj_tail in Hk as [_ Hk].
Qed.

Context (parseFromString : jsstring → Completion Node).

Lemma parseXML_Some (xmlString : jsstring) (xmlDoc : Node) :
  parseXML parseFromString xmlString = Some xmlDoc →
  truthy (trim xmlString) = true
  ∧ parseFromString xmlString = Normal xmlDoc
  ∧ elementsNamed (js "parsererror") xmlDoc = [].
Proof.
  unfold parseXML, querySelector.
  destruct (truthy (trim xmlString)); cbn [negb]; [|done].
  destruct (parseFromString xmlString) as [doc|e]; [|done].
  destruct (elementsNamed _ doc) eqn:E; cbn [head]; [|done].
  by intros [= ->].
Qed.


(** C4.  On an input that is empty or all white space, on which the
    parser throws, or whose parse holds an error element anywhere,
    [xml2html] returns the empty string, whatever the options; the
    exception of the parser is caught inside. *)
Theorem xml2html_degrades (xmlString : jsstring) options :
  rejected parseFromString xmlString →
  xml2html toLowerCase parseFromString xmlString options = [].
Proof.
  intros Hrej. unfold xml2html, parseXML, querySelector.
  destruct (truthy (trim xmlString)) eqn:Htrim; cbn [negb]; [|done].
  destruct Hrej as [Hws|[[e He]|(doc & Hdoc & Herr)]].
  - by rewrite (trim_blank _ Hws) in Htrim.
  - by rewrite He.
  - rewrite Hdoc. by destruct (elementsNamed _ doc).
Qed.
End TransducerClaims.

(** [xml2html] on the empty string, on blanks and on mismatched tags. *)
Lemma xml2html_degrades_witness :
  Reference.xml2html [] defaultOptions = []
  ∧ Reference.xml2html (js "   ") defaultOptions = []
  ∧ Reference.xml2html (js "<a><b></a>") defaultOptions = [].
Proof.
  split; [|split]; apply xml2html_degrades.
  - by left.
  - by left.
  - right; right. eexists. split; [by vm_compute|]. by vm_compute.
Defined.

(** C8 as stated fails on the apostrophe: the escaper writes the numeric
    reference, not the named entity. *)
Lemma apostrophe_gets_numeric_reference :
  escapeHtml (js "'") = js "&#39;"
  ∧ namedEntity 39 = Some (js "&apos;")
  ∧ Some (escapeHtml (js "'")) ≠ namedEntity 39.
Proof. split; [done|]. split; [done|]. by vm_compute. Qed.

(** A text node, a CDATA section and a comment. *)
Lemma escaping_rule_example :
  nodeToHtml Reference.toLowerCase defaultOptions (TextNode (js "  a<b & 'c'  "))
  = js "a&lt;b &amp; &#39;c&#39;"
  ∧ nodeToHtml Reference.toLowerCase defaultOptions (CDataSection (js "a<b & c"))
    = js "a<b & c"
  ∧ nodeToHtml Reference.toLowerCase defaultOptions (CommentNode (js "a<b & c"))
    = js "<!--a<b & c-->".
Proof.
  destruct (escaping_rule Reference.toLowerCase defaultOptions)
    as (_ & _ & Htext & _ & Hcdata & Hcomment).
  split; [rewrite Htext; by vm_compute|].
  split; [apply Hcdata | rewrite Hcomment; by vm_compute].
Defined.

(** An empty [BR] closes itself; an empty [P] and a [br] with a child
    do not. *)
Lemma self_closing_rule_example :
  nodeToHtml Reference.toLowerCase defaultOptions (ElementNode (js "BR") [] [])
  = js "<br />"
  ∧ nodeToHtml Reference.toLowerCase defaultOptions (ElementNode (js "P") [] [])
    = js "<p></p>"
  ∧ nodeToHtml Reference.toLowerCase defaultOptions
      (ElementNode (js "br") [] [TextNode (js "x")])
    = js "<br>x</br>".
Proof.
  pose proof (self_closing_rule Reference.toLowerCase defaultOptions
                (js "BR") [] []) as Hbr.
  pose proof (self_closing_rule Reference.toLowerCase defaultOptions
                (js "P") [] []) as Hp.
  pose proof (self_closing_rule Reference.toLowerCase defaultOptions
                (js "br") [] [TextNode (js "x")]) as Hx.
  cbv zeta in Hbr, Hp, Hx.
  match type of Hbr with
  | if ?c then _ else _ => replace c with true in Hbr by (by vm_compute)
  end.
  match type of Hp with
  | if ?c then _ else _ => replace c with false in Hp by (by vm_compute)
  end.
  match type of Hx with
  | if ?c then _ else _ => replace c with false in Hx by (by vm_compute)
  end.
  destruct Hbr as [Hbr _].
  split; [etrans; [exact Hbr|]; by vm_compute|].
  split; (etrans; [eassumption|]; by vm_compute).
Defined.


(** ** The pieces of the output *)

(** Goes through a list of pieces given one by one. *)
Ltac each_piece :=
  repeat first
    [ apply Forall_nil_2
    | apply Forall_cons_2;
      [ first [ by intros [?|?] | by split | intros _; apply escapeHtml_Escaped ] | ] ].

Section Pieces.
Context (toLowerCase : jsstring → jsstring).
Implicit Types (options : Options) (node : Node).

Lemma spell_app (ps qs : list (Origin * jsstring)) :
  spell (ps ++ qs) = spell ps ++ spell qs.
Proof. apply flat_map_app. Qed.

Lemma spell_single (o : Origin) (s : jsstring) : spell [(o, s)] = s.
Proof. unfold spell. cbn [flat_map snd]. apply app_nil_r. Qed.

Lemma spell_attrPieces (attributes : list Attr) :
  spell (flat_map attrPieces attributes) = flat_map attrToHtml attributes.
Proof.
  induction attributes as [|a l IH]; [done|].
  cbn [flat_map]. rewrite spell_app, IH. unfold attrToHtml, spell. cbn [attrPieces flat_map snd].
  by rewrite <- !app_assoc.
Qed.

Lemma spell_children options (children : list Node) :
  Forall (λ node, spell (pieces toLowerCase options node)
                  = nodeToHtml toLowerCase options node) children →
  spell (flat_map (pieces toLowerCase options) children)
  = childrenToHtml toLowerCase options children.
Proof.
  unfold childrenToHtml.
  induction 1 as [|c cs Hc _ IH]; [done|].
  cbn [flat_map]. by rewrite spell_app, Hc, IH.
Qed.

(** The pieces spell the output of [nodeToHtml]. *)
Lemma spell_pieces options node :
  spell (pieces toLowerCase options node) = nodeToHtml toLowerCase options node.
Proof.
  induction node as [t|t|t|t d|n|t a cs IH|cs IH|cs IH] using Node_nested_ind.
  - cbn [pieces nodeToHtml]. unfold spell.
    destruct (preserveTextNodes options); cbn [negb flat_map snd]; by rewrite ?app_nil_r.
  - cbn [pieces nodeToHtml spell flat_map snd]. by rewrite app_nil_r.
  - reflexivity.
  - reflexivity.
  - reflexivity.
  - rewrite nodeToHtml_element. cbn [pieces]. cbv zeta.
    rewrite openTag_eq.
    change (?x :: ?l) with ([x] ++ l) at 1. rewrite !spell_app.
    assert (Ha : spell (if preserveAttributes options
                        then flat_map attrPieces a else [])
                 = if preserveAttributes options
                   then flat_map attrToHtml a else []).
    { destruct (preserveAttributes options); [apply spell_attrPieces | done]. }
    destruct (closesItself toLowerCase options t cs).
    + rewrite Ha, !spell_single. by rewrite <- !app_assoc.
    + change ((Structure, js ">") :: ?l) with ([(Structure, js ">")] ++ l).
      rewrite !spell_app, (spell_children _ _ IH), Ha, !spell_single.
      by rewrite <- !app_assoc.
  - cbn [pieces nodeToHtml]. rewrite document_loop. by apply spell_children.
  - cbn [pieces nodeToHtml]. rewrite document_loop. by apply spell_children.
Qed.

Lemma Forall_flat_map {A B} (P : B → Prop) (f : A → list B) (l : list A) :
  Forall (λ x, Forall P (f x)) l → Forall P (flat_map f l).
Proof. induction 1; cbn [flat_map]; [constructor | by apply Forall_app]. Qed.

Lemma escapesValues_attrPieces (attributes : list Attr) :
  escapesValues (flat_map attrPieces attributes).
Proof.
  apply Forall_flat_map, Forall_forall. intros a _. unfold attrPieces.
  each_piece.
Qed.

(** Text values and attribute values are escaped, in every tree. *)
Lemma escapesValues_pieces options node :
  escapesValues (pieces toLowerCase options node).
Proof.
  unfold escapesValues.
  induction node as [t|t|t|t d|n|t a cs IH|cs IH|cs IH] using Node_nested_ind;
    cbn [pieces]; try (by each_piece).
  - destruct (preserveTextNodes options); each_piece.
  - apply Forall_cons_2; [by intros [?|?]|]. apply Forall_app. split.
    + destruct (preserveAttributes options);
        [apply escapesValues_attrPieces | apply Forall_nil_2].
    + destruct (closesItself _ _ _ _); [each_piece|].
      apply Forall_cons_2; [by intros [?|?]|]. apply Forall_app. split.
      * by apply Forall_flat_map.
      * each_piece.
  - by apply Forall_flat_map.
  - by apply Forall_flat_map.
Qed.

Lemma verbatimFree_children options (children : list Node) :
  Forall (λ node, verbatimFree node = true →
                  Forall notVerbatim (pieces toLowerCase options node)) children →
  forallb verbatimFree children = true →
  Forall notVerbatim (flat_map (pieces toLowerCase options) children).
Proof.
  intros IH Hfree. apply Forall_flat_map. rewrite forallb_forall in Hfree.
  apply Forall_forall. intros c Hc. rewrite Forall_forall in IH.
  apply IH; [done|]. by apply Hfree, list_elem_of_In.
Qed.

(** A tree without CDATA section and comment has no verbatim piece. *)
Lemma verbatimFree_pieces options node :
  verbatimFree node = true →
  Forall notVerbatim (pieces toLowerCase options node).
Proof.
  induction node as [t|t|t|t d|n|t a cs IH|cs IH|cs IH] using Node_nested_ind;
    cbn [pieces verbatimFree]; intros Hfree; try done.
  - destruct (preserveTextNodes options); each_piece.
  - apply Forall_cons_2; [done|]. apply Forall_app. split.
    + destruct (preserveAttributes options); [|apply Forall_nil_2].
      apply Forall_flat_map, Forall_forall. intros ? _. unfold attrPieces. each_piece.
    + destruct (closesItself _ _ _ _); [each_piece|].
      apply Forall_cons_2; [done|]. apply Forall_app. split; [|each_piece].
      by apply verbatimFree_children.
  - by apply verbatimFree_children.
  - by apply verbatimFree_children.
Qed.

Lemma escapesSource_intro (ps : list (Origin * jsstring)) :
  escapesValues ps → Forall notVerbatim ps → escapesSource ps.
Proof.
  unfold escapesValues, escapesSource. rewrite !Forall_forall.
  intros Hv Hn [o s] Hp Ho. specialize (Hv _ Hp). specialize (Hn _ Hp).
  destruct Hn as [Hn1 Hn2]. cbn in *. destruct o; try done; apply Hv; auto.
Qed.

Context (parseFromString : jsstring → Completion Node).

(** C2, amended.  On an input that parses, the output of [xml2html] is
    spelled by its pieces; every piece that is the value of a text node
    or of an attribute is escaped; and when the tree has no CDATA
    section and no comment, every piece that comes from the source is
    escaped, so that the five reserved characters occur in the output
    only in the markup that the transducer writes and in entities. *)
Theorem values_are_escaped (xmlString : jsstring) options (xmlDoc : Node) :
  parseXML parseFromString xmlString = Some xmlDoc →
  let ps := xml2htmlPieces toLowerCase options xmlDoc in
  xml2html toLowerCase parseFromString xmlString options = spell ps
  ∧ escapesValues ps
  ∧ (if verbatimFree (default xmlDoc (documentElement xmlDoc))
     then escapesSource ps else True).
Proof.
  intros Hparse ps.
  destruct (parseXML_Some _ _ _ Hparse) as (Htrim & _ & _).
  set (root := default xmlDoc (documentElement xmlDoc)).
  assert (Hwrap : ∀ P : Origin * jsstring → Prop,
             (∀ s, P (Structure, s)) →
             Forall P (pieces toLowerCase options root) → Forall P ps).
  { intros P HS HP. subst ps. unfold xml2htmlPieces. fold root.
    destruct (truthy (wrapperTag options)); [|done].
    apply Forall_cons_2; [done|]. apply Forall_app. split; [done|].
    apply Forall_cons_2; [done|]. apply Forall_nil_2. }
  split; [|split].
  - unfold xml2html. rewrite Htrim, Hparse. cbn [negb]. fold root.
    subst ps. unfold xml2htmlPieces. fold root.
    rewrite nodeToHtml_nodeOptions.
    destruct (truthy (wrapperTag options)); [|by rewrite spell_pieces].
    change (?x :: ?l) with ([x] ++ l). rewrite !spell_app, spell_pieces.
    unfold spell. cbn [flat_map snd]. by rewrite !app_nil_r, <- !app_assoc.
  - apply Hwrap; [by intros s [?|?]|]. apply escapesValues_pieces.
  - destruct (verbatimFree root) eqn:Hfree; [|done].
    apply escapesSource_intro.
    + apply Hwrap; [by intros s [?|?]|]. apply escapesValues_pieces.
    + apply Hwrap; [done|]. by apply verbatimFree_pieces.
Qed.
End Pieces.

(** C2 as stated fails on a CDATA section: its content reaches the output
    as it is, here a bare less-than sign. *)
Lemma cdata_reaches_output_unescaped :
  ∃ xmlDoc,
    parseXML Reference.parseFromString (js "<a><![CDATA[<]]></a>") = Some xmlDoc
    ∧ Reference.xml2html (js "<a><![CDATA[<]]></a>") defaultOptions = js "<a><</a>"
    ∧ ¬ escapesSource (xml2htmlPieces Reference.toLowerCase defaultOptions xmlDoc).
Proof.
  eexists. split; [by vm_compute|]. split; [by vm_compute|].
  intros H. unfold escapesSource in H. rewrite Forall_forall in H.
  apply (Escaped_no_reserved_head 60 []); [|apply elem_of_cons; by left].
  apply (H (CDataContent, [60%N])); [|done].
  apply list_elem_of_In. vm_compute. auto.
Qed.

Lemma values_are_escaped_witness :
  Reference.xml2html (js "<p title='a&lt;b'>x &amp; y</p>") defaultOptions
  = js "<p title=" ++ [quot] ++ js "a&lt;b" ++ [quot] ++ js ">x &amp; y</p>"
  ∧ escapesSource
      (xml2htmlPieces Reference.toLowerCase defaultOptions
         (DocumentNode
            [ElementNode (js "p") [{| name := js "title"; value := js "a<b" |}]
               [TextNode (js "x & y")]])).
Proof.
  pose proof (values_are_escaped Reference.toLowerCase Reference.parseFromString
    (js "<p title='a&lt;b'>x &amp; y</p>") defaultOptions
    (DocumentNode
       [ElementNode (js "p") [{| name := js "title"; value := js "a<b" |}]
          [TextNode (js "x & y")]])
    eq_refl) as (Hx & _ & Hs).
  split.
  - etrans; [exact Hx|]. by vm_compute.
  - exact Hs.
Defined.

(** ** The storage facade *)

Section FacadeClaims.
Import Storage.
Context {World StorageObject Value : Type} (host : Host World StorageObject Value).
Implicit Types (key type : jsstring) (w : World).

(** [getStorageInstance] reads the window property and turns an
    exception into [null]. *)
Lemma getStorageInstance_eq type w :
  getStorageInstance host type w
  = match windowStorage host type w with
    | (Normal storage, w') => (Normal storage, w')
    | (Throw error, w') =>
        (Normal None, console_error host (js "Storage access error:") error w')
    end.
Proof.
  unfold getStorageInstance, windowStorage, tryCatch, bind, log, ret.
  destruct (bool_decide (type = StorageType.LOCAL)); [done|].
  by destruct (bool_decide (type = StorageType.SESSION)).
Qed.

Lemma getStorageInstance_unavailable type w :
  unavailable host type w → ∃ w', getStorageInstance host type w = (Normal None, w').
Proof.
  rewrite getStorageInstance_eq.
  intros [(e & w' & ->)|(w' & ->)]; eauto.
Qed.

Lemma getStorageInstance_available type w storage w1 :
  available host type w storage w1 →
  getStorageInstance host type w = (Normal (Some storage), w1).
Proof. unfold available. rewrite getStorageInstance_eq. by intros ->. Qed.

Lemma getStorageInstance_returns type w :
  ∃ storage w', getStorageInstance host type w = (Normal storage, w').
Proof.
  rewrite getStorageInstance_eq.
  destruct (windowStorage host type w) as [[s|e] w']; eauto.
Qed.

Ltac run_facade :=
  unfold getStorage, setStorage, removeStorage, clearStorage,
    tryCatch, bind, log, ret.

Lemma getStorage_returns key (defaultValue : Value) type w :
  ∃ value w', getStorage host key defaultValue type w = (Normal value, w').
Proof.
  run_facade.
  destruct (getStorageInstance_returns type w) as ([storage|] & w1 & ->); eauto.
  destruct (getItem host storage key w1) as [[[text|]|e] w2]; eauto.
  destruct (JSON_parse host text w2) as [[v|e] w3]; eauto.
Qed.

Lemma setStorage_returns key (value : Value) type w :
  ∃ (success : bool) w', setStorage host key value type w = (Normal success, w').
Proof.
  run_facade.
  destruct (getStorageInstance_returns type w) as ([storage|] & w1 & ->); eauto.
  destruct (JSON_stringify host value w1) as [[s|e] w2]; eauto.
  destruct (setItem host storage key (toString s) w2) as [[[]|e] w3]; eauto.
Qed.

Lemma removeStorage_returns key type w :
  ∃ (success : bool) w', removeStorage host key type w = (Normal success, w').
Proof.
  run_facade.
  destruct (getStorageInstance_returns type w) as ([storage|] & w1 & ->); eauto.
  destruct (removeItem host storage key w1) as [[[]|e] w2]; eauto.
Qed.

Lemma clearStorage_returns type w :
  ∃ (success : bool) w', clearStorage host type w = (Normal success, w').
Proof.
  run_facade.
  destruct (getStorageInstance_returns type w) as ([storage|] & w1 & ->); eauto.
  destruct (clear host storage w1) as [[[]|e] w2]; eauto.
Qed.

Lemma getStorage_fallback key (defaultValue : Value) type w :
  getFails host key type w →
  returns (getStorage host key defaultValue type) w defaultValue.
Proof.
  unfold returns. run_facade.
  intros [Hun|(storage & w1 & Hav & Hfail)].
  - destruct (getStorageInstance_unavailable _ _ Hun) as (w' & ->). eauto.
  - rewrite (getStorageInstance_available _ _ _ _ Hav).
    destruct Hfail as [(e & w2 & ->)|(text & w2 & -> & e & w3 & ->)]; eauto.
Qed.

Lemma setStorage_fallback key (value : Value) type w :
  setFails host key value type w →
  returns (setStorage host key value type) w false.
Proof.
  unfold returns. run_facade.
  intros [Hun|(storage & w1 & Hav & Hfail)].
  - destruct (getStorageInstance_unavailable _ _ Hun) as (w' & ->). eauto.
  - rewrite (getStorageInstance_available _ _ _ _ Hav).
    destruct Hfail as [(e & w2 & ->)|(s & w2 & -> & e & w3 & ->)]; eauto.
Qed.

Lemma removeStorage_fallback key type w :
  removeFails host key type w →
  returns (removeStorage host key type) w false.
Proof.
  unfold returns. run_facade.
  intros [Hun|(storage & w1 & Hav & e & w2 & Hfail)].
  - destruct (getStorageInstance_unavailable _ _ Hun) as (w' & ->). eauto.
  - rewrite (getStorageInstance_available _ _ _ _ Hav), Hfail. eauto.
Qed.

Lemma clearStorage_fallback type w :
  clearFails host type w →
  returns (clearStorage host type) w false.
Proof.
  unfold returns. run_facade.
  intros [Hun|(storage & w1 & Hav & e & w2 & Hfail)].
  - destruct (getStorageInstance_unavailable _ _ Hun) as (w' & ->). eauto.
  - rewrite (getStorageInstance_available _ _ _ _ Hav), Hfail. eauto.
Qed.

(** C9.  Whatever the browser does under the facade, [getStorage],
    [setStorage], [removeStorage] and [clearStorage] return and do not
    throw; when the storage is not available, a method of the storage
    object throws, or the value does not serialize or parse,
    [getStorage] returns the default it was given and the three others
    return [false]. *)
Theorem facade_catches_failures key (value defaultValue : Value) type w :
  ((∃ result w', getStorage host key defaultValue type w = (Normal result, w'))
   ∧ (∃ (success : bool) w', setStorage host key value type w = (Normal success, w'))
   ∧ (∃ (success : bool) w', removeStorage host key type w = (Normal success, w'))
   ∧ (∃ (success : bool) w', clearStorage host type w = (Normal success, w')))
  ∧ (getFails host key type w →
     returns (getStorage host key defaultValue type) w defaultValue)
  ∧ (setFails host key value type w →
     returns (setStorage host key value type) w false)
  ∧ (removeFails host key type w →
     returns (removeStorage host key type) w false)
  ∧ (clearFails host type w →
     returns (clearStorage host type) w false).
Proof.
  split; [|split; [|split; [|split]]].
  - split; [apply getStorage_returns|].
    split; [apply setStorage_returns|].
    split; [apply removeStorage_returns | apply clearStorage_returns].
  - apply getStorage_fallback.
  - apply setStorage_fallback.
  - apply removeStorage_fallback.
  - apply clearStorage_fallback.
Qed.
End FacadeClaims.

(** On the reference browser, with storage switched on and room for the
    value, [getStorage] gives back what [setStorage] wrote. *)
Lemma reference_session_storage (w : ReferenceHost.World) :
  ReferenceHost.enabled w = true →
  Storage.getStorageInstance ReferenceHost.host Storage.StorageType.SESSION w
  = (Normal (Some ReferenceHost.SessionArea), w).
Proof.
  intros Hon. rewrite getStorageInstance_eq. unfold windowStorage.
  rewrite bool_decide_eq_false_2 by (by vm_compute).
  cbn. unfold ReferenceHost.access. by rewrite Hon.
Qed.

Lemma reference_read_your_writes (key value defaultValue : jsstring) (q : nat) :
  quot ∉ value → length value + 2 ≤ q →
  ∃ w', Storage.setStorage ReferenceHost.host key value Storage.StorageType.SESSION
          (ReferenceHost.world true q) = (Normal true, w')
        ∧ Storage.getStorage ReferenceHost.host key defaultValue
            Storage.StorageType.SESSION w' = (Normal value, w').
Proof.
  intros Hq Hlen. eexists. split.
  - unfold Storage.setStorage, Storage.tryCatch, Storage.bind at 1.
    rewrite reference_session_storage by done.
    unfold Storage.bind, Storage.ret. cbn.
    rewrite bool_decide_eq_true_2; [reflexivity|].
    rewrite length_app. cbn. lia.
  - unfold Storage.getStorage, Storage.tryCatch, Storage.bind at 1.
    rewrite reference_session_storage by done.
    unfold Storage.bind, Storage.ret. cbn. rewrite lookup_insert_eq.
    unfold ReferenceHost.unquote. rewrite reverse_app. cbn.
    change (rev_append (reverse value) []) with (reverse (reverse value)).
    replace (forallb _ (reverse value)) with true; [by rewrite reverse_involutive|].
    symmetry. apply forallb_forall. intros c Hc%list_elem_of_In%elem_of_reverse.
    rewrite reverse_involutive in Hc.
    apply negb_true_iff, N.eqb_neq. intros ->. by apply Hq.
Qed.

(** The facade on the reference browser: storage switched off, and a
    value beyond the quota. *)
Lemma facade_catches_failures_witness :
  returns (Storage.getStorage ReferenceHost.host (js "k") (js "dflt") Storage.StorageType.SESSION)
          (ReferenceHost.world false 10) (js "dflt")
  ∧ returns (Storage.setStorage ReferenceHost.host (js "k") (js "a long value")
               Storage.StorageType.LOCAL)
            (ReferenceHost.world true 5) false
  ∧ returns (Storage.removeStorage ReferenceHost.host (js "k") Storage.StorageType.SESSION)
            (ReferenceHost.world false 10) false
  ∧ returns (Storage.clearStorage ReferenceHost.host Storage.StorageType.SESSION)
            (ReferenceHost.world false 10) false.
Proof.
  split; [|split; [|split]].
  - apply (facade_catches_failures ReferenceHost.host (js "k") (js "v") (js "dflt")).
    left. left. by eexists _, _.
  - apply (facade_catches_failures ReferenceHost.host (js "k") (js "a long value") (js "dflt")).
    right. eexists _, _. split; [reflexivity|]. right.
    eexists _, _. split; [reflexivity|]. by eexists _, _.
  - apply (facade_catches_failures ReferenceHost.host (js "k") (js "v") (js "dflt")).
    left. left. by eexists _, _.
  - apply (facade_catches_failures ReferenceHost.host (js "k") (js "v") (js "dflt")).
    left. left. by eexists _, _.
Defined.

(** ** The selection store *)

Section SelectionClaims.
Import DisplayView.
Context {Json : Type}.
Implicit Types (s : Session Json) (st : State Json) (tableId : jsstring).

Lemma occurrences_app (x : jsstring) (l k : list jsstring) :
  occurrences x (l ++ k) = occurrences x l + occurrences x k.
Proof. unfold occurrences. by rewrite filter_app, length_app. Qed.

Lemma occurrences_filter_in (P : jsstring → Prop) `{!∀ y, Decision (P y)}
    (x : jsstring) (l : list jsstring) :
  P x → occurrences x (filter P l) = occurrences x l.
Proof.
  intros HP. unfold occurrences. rewrite list_filter_filter.
  f_equal. apply list_filter_iff. intros y. split; [by intros [? _] | by intros ->].
Qed.

Lemma occurrences_filter_out (P : jsstring → Prop) `{!∀ y, Decision (P y)}
    (x : jsstring) (l : list jsstring) :
  ¬ P x → occurrences x (filter P l) = 0.
Proof.
  intros HP. unfold occurrences. rewrite list_filter_filter.
  rewrite (list_filter_iff _ (λ _, False)); [by induction l|].
  intros y. split; [by intros [-> ?] | done].
Qed.

Lemma filter_all {A} (P : A → Prop) `{!∀ y, Decision (P y)} (l : list A) :
  (∀ x, x ∈ l → P x) → filter P l = l.
Proof.
  induction l as [|a l IH]; intros Hall; [done|].
  rewrite filter_cons_True by (apply Hall; by left).
  f_equal. apply IH. intros x Hx. apply Hall. by right.
Qed.

Lemma filter_none {A} (P : A → Prop) `{!∀ y, Decision (P y)} (l : list A) :
  (∀ x, x ∈ l → ¬ P x) → filter P l = [].
Proof.
  induction l as [|a l IH]; intros Hall; [done|].
  rewrite filter_cons_False by (apply Hall; by left).
  apply IH. intros x Hx. apply Hall. by right.
Qed.

Lemma updateTableOrder_order (orderArray : list jsstring) s :
  getTableOrder (updateTableOrder orderArray s).2
  = filter (λ id, id ∈ getAllTableIds s) orderArray
    ++ filter (λ id, id ∉ orderArray) (getAllTableIds s).
Proof.
  unfold updateTableOrder, getTableOrder, setOrder, includes. cbn.
  f_equal; apply list_filter_iff; intros x.
  - apply bool_decide_eq_true.
  - apply bool_decide_eq_false.
Qed.

(** C5, amended.  [updateTableOrder] succeeds and stores as the order
    list the ids of the proposal that are in the stored id list, in the
    order of the proposal, followed by the ids of the stored id list that
    the proposal does not hold, in the order of the id list (not in the
    order of the selection or of the order list); the id list and the
    stored entries are left as they are. *)
Theorem reorder_result (orderArray : list jsstring) s :
  (updateTableOrder orderArray s).1 = true
  ∧ getTableOrder (updateTableOrder orderArray s).2
    = filter (λ id, id ∈ getAllTableIds s) orderArray
      ++ filter (λ id, id ∉ orderArray) (getAllTableIds s)
  ∧ getAllTableIds (updateTableOrder orderArray s).2 = getAllTableIds s
  ∧ getStoredItems (updateTableOrder orderArray s).2 = getStoredItems s.
Proof.
  split; [done|]. split; [apply updateTableOrder_order|]. done.
Qed.

Lemma find_result tableId (tables : list (Table Json)) :
  tableId ∈ resultIds tables →
  ∃ i table, list_find (λ t, id t = tableId) tables = Some (i, table)
             ∧ table ∈ tables ∧ id table = tableId.
Proof.
  unfold resultIds. intros (table & Hid & Hin)%list_elem_of_fmap.
  destruct (list_find_elem_of (λ t, id t = tableId) tables table)
    as [[i t] Hfind]; [done..|].
  exists i, t. split; [done|].
  apply list_find_Some in Hfind as (Hi & Ht & _).
  split; [|done]. by eapply list_elem_of_lookup_2.
Qed.

Lemma find_no_result tableId (tables : list (Table Json)) :
  tableId ∉ resultIds tables →
  list_find (λ t, id t = tableId) tables = None.
Proof.
  intros Hnot. apply list_find_None, Forall_forall. intros t Ht Hid.
  apply Hnot. unfold resultIds. apply list_elem_of_fmap. eauto.
Qed.

(** What a successful [addToSelected] does to the state. *)
Lemma addToSelected_found now random tableId st i table :
  tableId ≠ [] →
  list_find (λ t, id t = tableId) (tableList st) = Some (i, table) →
  let st' := (addToSelected now random tableId st).1 in
  (addToSelected now random tableId st).2 = Some Success_AddedToList
  ∧ tableList st' = tableList st
  ∧ selectedTables st' = selectedTables st ++ [newItem now random table]
  ∧ getStoredItems (session st')
    = getStoredItems (session st) ++ [newItem now random table]
  ∧ getAllTableIds (session st') = getAllTableIds (session st) ++ [tableId]
  ∧ getTableOrder (session st')
    = filter (λ id, id ∈ getAllTableIds (session st) ++ [tableId])
             (getTableOrder (session st) ++ [tableId])
      ++ filter (λ id, id ∉ getTableOrder (session st) ++ [tableId])
                (getAllTableIds (session st) ++ [tableId]).
Proof.
  intros Hne Hfind st'. subst st'. unfold addToSelected.
  destruct tableId as [|c tableId]; [done|]. cbn [truthy negb].
  rewrite Hfind. cbn [fmap option_fmap option_map snd fst].
  apply list_find_Some in Hfind as (_ & Hid & _).
  unfold newItem. rewrite Hid.
  split; [done|]. split; [done|]. split; [done|]. split; [done|]. split; [done|].
  cbn [session]. by rewrite updateTableOrder_order.
Qed.

(** C3, amended.  [addToSelected] leaves the state as it is exactly when
    the id is empty or is not the id of a current result; it then shows
    a warning, unless the id is empty.  For an id that is not empty and
    is the id of a current result it shows the success message and
    appends an entry built from the first such result to the
    selection.  The method returns no value. *)
Theorem add_is_noop_iff now random tableId st :
  ((addToSelected now random tableId st).1 = st
   ↔ tableId = [] ∨ tableId ∉ resultIds (tableList st))
  ∧ ((addToSelected now random tableId st).2 = Some Warning_TableDoesNotExist
     ↔ tableId ≠ [] ∧ tableId ∉ resultIds (tableList st))
  ∧ ((addToSelected now random tableId st).2 = Some Success_AddedToList
     ↔ tableId ≠ [] ∧ tableId ∈ resultIds (tableList st))
  ∧ (tableId ≠ [] → tableId ∈ resultIds (tableList st) →
     ∃ i table,
       tableList st !! i = Some table ∧ id table = tableId
       ∧ (∀ j other, j < i → tableList st !! j = Some other → id other ≠ tableId)
       ∧ selectedTables (addToSelected now random tableId st).1
         = selectedTables st ++ [newItem now random table]).
Proof.
  destruct (decide (tableId = [])) as [->|Hne].
  { cbn. repeat split; intuition congruence. }
  destruct (decide (tableId ∈ resultIds (tableList st))) as [Hin|Hnot].
  - destruct (find_result _ _ Hin) as (i & table & Hfind & Htable & Hid).
    destruct (addToSelected_found now random _ _ _ _ Hne Hfind)
      as (Hmsg & _ & Hsel & _).
    split; [|split; [|split]].
    + split; [|intuition congruence]. intros Heq. rewrite Heq in Hsel.
      apply (f_equal length) in Hsel. rewrite length_app in Hsel. cbn in Hsel. lia.
    + rewrite Hmsg. intuition congruence.
    + rewrite Hmsg. intuition congruence.
    + intros _ _. apply list_find_Some in Hfind as (Hi & _ & Hfirst).
      exists i, table. split; [done|]. split; [done|]. split; [|done].
      intros j other Hlt Hj. by apply (Hfirst j).
  - unfold addToSelected. destruct tableId as [|c tableId]; [done|].
    cbn [truthy negb]. rewrite (find_no_result _ _ Hnot). cbn.
    repeat split; intuition congruence.
Qed.

Lemma occurrences_cons (x y : jsstring) (l : list jsstring) :
  occurrences x (y :: l) = (if decide (y = x) then 1 else 0) + occurrences x l.
Proof. unfold occurrences. rewrite filter_cons. by destruct (decide (y = x)). Qed.

Lemma occurrences_elem_of (x : jsstring) (l : list jsstring) :
  x ∈ l ↔ 0 < occurrences x l.
Proof.
  induction l as [|y l IH].
  - rewrite elem_of_nil. unfold occurrences. cbn. lia.
  - rewrite elem_of_cons, occurrences_cons, IH.
    destruct (decide (y = x)) as [->|Hne]; [split; [lia|by left]|].
    split; [intros [?|?]; [congruence|lia] | intros ?; right; lia].
Qed.

Lemma occurrences_delete (x : jsstring) (l : list jsstring) (i : nat) :
  l !! i = Some x → S (occurrences x (delete i l)) = occurrences x l.
Proof.
  revert i. induction l as [|y l IH]; intros [|i] Hi; try done.
  - injection Hi as ->. change (delete 0 (x :: l)) with l.
    by rewrite occurrences_cons, decide_True.
  - change (delete (S i) (y :: l)) with (y :: delete i l).
    rewrite !occurrences_cons.
    specialize (IH i Hi). destruct (decide (y = x)); lia.
Qed.

Lemma list_find_NoDup {A B} `{EqDecision B} (f : A → B) (l : list A) (i : nat) (x : A) :
  NoDup (f <$> l) → l !! i = Some x →
  list_find (λ y, f y = f x) l = Some (i, x).
Proof.
  intros Hnd Hi. apply list_find_Some. split; [done|]. split; [done|].
  intros j y Hj Hlt Heq.
  assert (j = i); [|lia].
  apply (NoDup_lookup _ _ _ (f x) Hnd); rewrite list_lookup_fmap.
  - by rewrite Hj, <- Heq.
  - by rewrite Hi.
Qed.

(** [addTableId], the sibling of [addToSelected] in [storage.js], keeps
    the id list free of duplicates. *)
Lemma addTableId_refuses_duplicate tableId s :
  tableId ∈ getAllTableIds s → addTableId tableId s = (false, s).
Proof.
  intros Hin. unfold addTableId, includes.
  destruct (truthy tableId); cbn [negb]; [|done].
  by rewrite bool_decide_eq_true_2.
Qed.

(** Removing the entry at a position of the selection removes that
    entry. *)
Lemma removeSelectedByIndex_removes (i : nat) st item :
  selectedTables st !! i = Some item →
  let st' := (removeSelectedByIndex (Z.of_nat i) st).1 in
  (removeSelectedByIndex (Z.of_nat i) st).2 = Some Success_Removed
  ∧ selectedTables st' = delete i (selectedTables st)
  ∧ tableList st' = tableList st.
Proof.
  intros Hi st'. subst st'. unfold removeSelectedByIndex.
  pose proof (lookup_lt_Some _ _ _ Hi) as Hlt.
  rewrite bool_decide_eq_false_2 by lia.
  rewrite Nat2Z.id, Hi. done.
Qed.

(** The session after [removeSelectedByIndex], step by step. *)
Lemma removeSelectedByIndex_session (i : nat) st item :
  selectedTables st !! i = Some item →
  session (removeSelectedByIndex (Z.of_nat i) st).1
  = let storedItems := getStoredItems (session st) in
    let s1 :=
      match fst <$> list_find (λ x, uniqueId x = uniqueId item) storedItems with
      | Some itemIndex => setItems (delete itemIndex storedItems) (session st)
      | None => session st
      end in
    let order := getTableOrder s1 in
    if bool_decide (i < length order) then
      let s2 := (updateTableOrder (delete i order) s1).2 in
      match indexOf (id (fields item)) (getAllTableIds s2) with
      | Some tableIdIndex => setTableIds (delete tableIdIndex (getAllTableIds s2)) s2
      | None => s2
      end
    else s1.
Proof.
  intros Hi. unfold removeSelectedByIndex.
  pose proof (lookup_lt_Some _ _ _ Hi) as Hlt.
  rewrite bool_decide_eq_false_2 by lia.
  rewrite Nat2Z.id, Hi. done.
Qed.

(** With distinct [uniqueId]s the stored copy that goes is the one at the
    same position. *)
Lemma removeSelectedByIndex_stored (i : nat) st item :
  selectedTables st !! i = Some item →
  getStoredItems (session st) !! i = Some item →
  NoDup (uniqueId <$> getStoredItems (session st)) →
  getStoredItems (session (removeSelectedByIndex (Z.of_nat i) st).1)
  = delete i (getStoredItems (session st)).
Proof.
  intros Hi Hstored Hnd. rewrite (removeSelectedByIndex_session _ _ _ Hi). cbv zeta.
  rewrite (list_find_NoDup uniqueId _ _ _ Hnd Hstored). cbn [fmap option_fmap option_map fst].
  destruct (bool_decide _); [|done].
  by destruct (indexOf _ _).
Qed.

(** Of an id that the order list holds at the position removed and once
    more elsewhere, one occurrence goes from the order list and one from
    the id list. *)
Lemma removeSelectedByIndex_duplicate (i : nat) st item :
  selectedTables st !! i = Some item →
  getTableOrder (session st) !! i = Some (id (fields item)) →
  id (fields item) ∈ getAllTableIds (session st) →
  2 ≤ occurrences (id (fields item)) (getTableOrder (session st)) →
  let st' := (removeSelectedByIndex (Z.of_nat i) st).1 in
  S (occurrences (id (fields item)) (getTableOrder (session st')))
  = occurrences (id (fields item)) (getTableOrder (session st))
  ∧ S (occurrences (id (fields item)) (getAllTableIds (session st')))
    = occurrences (id (fields item)) (getAllTableIds (session st)).
Proof.
  intros Hi Horder Hids Htwice st'. subst st'.
  rewrite (removeSelectedByIndex_session _ _ _ Hi). cbv zeta.
  set (t := id (fields item)) in *.
  set (s1 := match fst <$> list_find _ _ with Some _ => _ | None => _ end).
  assert (Ho1 : getTableOrder s1 = getTableOrder (session st))
    by (subst s1; by destruct (fst <$> list_find _ _)).
  assert (Hi1 : getAllTableIds s1 = getAllTableIds (session st))
    by (subst s1; by destruct (fst <$> list_find _ _)).
  rewrite Ho1. rewrite bool_decide_eq_true_2 by (by eapply lookup_lt_Some).
  pose proof (occurrences_delete _ _ _ Horder) as Hdel.
  assert (Hstill : t ∈ delete i (getTableOrder (session st)))
    by (apply occurrences_elem_of; lia).
  set (s2 := (updateTableOrder _ s1).2).
  assert (Ho2 : S (occurrences t (getTableOrder s2))
                = occurrences t (getTableOrder (session st))).
  { subst s2. rewrite updateTableOrder_order, occurrences_app, Hi1.
    rewrite occurrences_filter_in by done.
    rewrite occurrences_filter_out by (intros Hn; by apply Hn). lia. }
  assert (Hi2 : getAllTableIds s2 = getAllTableIds (session st)) by done.
  rewrite Hi2. unfold indexOf.
  destruct (list_find_elem_of (λ y, y = t) _ t Hids eq_refl) as [[k y] Hfind].
  rewrite Hfind. cbn [fmap option_fmap option_map fst].
  apply list_find_Some in Hfind as (Hk & -> & _).
  split; [done|].
  cbn [getAllTableIds setTableIds table_ids default from_option id].
  by apply occurrences_delete.
Qed.

(** C1, amended.  For an id that is not empty, is already in the
    selection and is the id of a current result, [addToSelected]
    succeeds: the selection and the stored entries get one more entry of
    that id at their end, the stored id list gets the id at its end, and
    the stored order list holds the id once more than before (it is the
    old order list with the id at its end when the id list and the order
    list held the same ids).  The entry at any position of the new
    selection can be removed and the others stay; its stored copy goes
    with it when the stored entries have distinct [uniqueId]s; and when
    the order list holds the id at that position and held it before, one
    occurrence of the id goes from the order list and from the id list. *)
Theorem duplicate_add now random tableId st :
  tableId ≠ [] →
  tableId ∈ resultIds (tableList st) →
  tableId ∈ itemIds (selectedTables st) →
  let st' := (addToSelected now random tableId st).1 in
  (addToSelected now random tableId st).2 = Some Success_AddedToList
  ∧ (∃ table, id table = tableId
       ∧ selectedTables st' = selectedTables st ++ [newItem now random table]
       ∧ getStoredItems (session st')
         = getStoredItems (session st) ++ [newItem now random table])
  ∧ occurrences tableId (itemIds (selectedTables st'))
    = S (occurrences tableId (itemIds (selectedTables st)))
  ∧ 2 ≤ occurrences tableId (itemIds (selectedTables st'))
  ∧ getAllTableIds (session st') = getAllTableIds (session st) ++ [tableId]
  ∧ occurrences tableId (getTableOrder (session st'))
    = S (occurrences tableId (getTableOrder (session st)))
  ∧ (getAllTableIds (session st) ⊆ getTableOrder (session st) →
     getTableOrder (session st) ⊆ getAllTableIds (session st) →
     getTableOrder (session st') = getTableOrder (session st) ++ [tableId])
  ∧ (∀ i item, selectedTables st' !! i = Some item →
       let st'' := (removeSelectedByIndex (Z.of_nat i) st').1 in
       selectedTables st'' = delete i (selectedTables st')
       ∧ (getStoredItems (session st') !! i = Some item →
          NoDup (uniqueId <$> getStoredItems (session st')) →
          getStoredItems (session st'') = delete i (getStoredItems (session st')))
       ∧ (id (fields item) = tableId →
          getTableOrder (session st') !! i = Some tableId →
          tableId ∈ getTableOrder (session st) →
          S (occurrences tableId (getTableOrder (session st'')))
          = occurrences tableId (getTableOrder (session st'))
          ∧ S (occurrences tableId (getAllTableIds (session st'')))
            = occurrences tableId (getAllTableIds (session st')))).
Proof.
  intros Hne Hin Hsel st'.
  destruct (find_result _ _ Hin) as (i & table & Hfind & Htable & Hid).
  destruct (addToSelected_found now random _ _ _ _ Hne Hfind)
    as (Hmsg & _ & Hsel' & Hitems & Hids & Horder).
  fold st' in Hsel', Hitems, Hids, Horder.
  assert (Hocc : occurrences tableId (itemIds (selectedTables st'))
                 = S (occurrences tableId (itemIds (selectedTables st)))).
  { rewrite Hsel'. unfold itemIds. rewrite fmap_app, occurrences_app.
    cbn [fmap list_fmap newItem fields]. rewrite Hid.
    rewrite occurrences_cons, decide_True by done. cbn. lia. }
  assert (Hocc' : occurrences tableId (getTableOrder (session st'))
                  = S (occurrences tableId (getTableOrder (session st)))).
  { rewrite Horder, occurrences_app.
    rewrite occurrences_filter_in by (apply elem_of_app; right; by left).
    rewrite occurrences_filter_out by (intros Hn; apply Hn, elem_of_app; right; by left).
    rewrite occurrences_app, occurrences_cons, decide_True by done. cbn. lia. }
  split; [done|]. split; [by exists table|]. split; [done|]. split.
  { rewrite Hocc. apply le_n_S. by apply occurrences_elem_of. }
  split; [done|]. split; [done|]. split.
  - intros Hsub1 Hsub2. rewrite Horder.
    rewrite filter_all, filter_none; [by rewrite app_nil_r|..].
    + intros x Hx Hnot. apply Hnot.
      apply elem_of_app in Hx as [Hx|Hx]; apply elem_of_app; [left|right]; auto.
    + intros x Hx.
      apply elem_of_app in Hx as [Hx|Hx]; apply elem_of_app; [left|right]; auto.
  - intros j item Hj st''. split; [|split].
    + by apply removeSelectedByIndex_removes with item.
    + intros Hstored Hnd. by apply (removeSelectedByIndex_stored _ _ item).
    + intros Hitem Hpos Hbefore. rewrite <- Hitem in *.
      apply (removeSelectedByIndex_duplicate _ _ item); [done|done|..].
      * rewrite Hids. apply elem_of_app. right. by left.
      * rewrite Hocc'. apply le_n_S. by apply occurrences_elem_of.
Qed.
End SelectionClaims.

Import DisplayView.

(** Reordering the selection [t1], [t2] by a proposal that holds [t3]
    only keeps the order; the proposal [t2], [t1] is taken as it is. *)
Lemma reorder_result_example :
  getTableOrder Scenario.selectedBoth = [js "t1"; js "t2"]
  ∧ getTableOrder (updateTableOrder [js "t3"] Scenario.selectedBoth).2
    = [js "t1"; js "t2"]
  ∧ getTableOrder (updateTableOrder [js "t2"; js "t1"] Scenario.selectedBoth).2
    = [js "t2"; js "t1"].
Proof.
  split; [by vm_compute|]. split.
  - etrans; [apply (reorder_result [js "t3"] Scenario.selectedBoth)|]. by vm_compute.
  - etrans; [apply (reorder_result [js "t2"; js "t1"] Scenario.selectedBoth)|].
    by vm_compute.
Defined.

(** C5 as stated fails when the selection has been rearranged: with [t2]
    selected before [t1] and then [t1] dragged first, the selection and
    the order list read [t1], [t2] and the id list [t2], [t1]; the
    proposal that holds [t3] only then gives the order [t2], [t1], not
    the current order [t1], [t2]. *)
Lemma reorder_follows_id_list :
  itemIds (selectedTables Cases.draggedFirst) = [js "t1"; js "t2"]
  ∧ getTableOrder (session Cases.draggedFirst) = [js "t1"; js "t2"]
  ∧ getAllTableIds (session Cases.draggedFirst) = [js "t2"; js "t1"]
  ∧ getTableOrder (updateTableOrder [js "t3"] (session Cases.draggedFirst)).2
    = [js "t2"; js "t1"].
Proof. repeat split; by vm_compute. Qed.

(** C3 as stated fails on the empty id: it is the id of a current result,
    and [addToSelected] still leaves the state as it is, without a
    message. *)
Lemma add_empty_id_found_but_noop :
  [] ∈ resultIds (tableList Scenario.unnamed)
  ∧ addToSelected (js "1700000000003") (js "k3j9x2m1q") [] Scenario.unnamed
    = (Scenario.unnamed, None).
Proof. split; [|done]. apply list_elem_of_In. vm_compute. auto. Qed.

(** Of two results with the id [t1], the entry is built from the first. *)
Lemma add_is_noop_iff_witness :
  selectedTables
    (addToSelected (js "1700000000001") (js "k3j9x2m1q") (js "t1") Cases.twins).1
  = [newItem (js "1700000000001") (js "k3j9x2m1q") Cases.firstTwin].
Proof.
  destruct (add_is_noop_iff (js "1700000000001") (js "k3j9x2m1q") (js "t1")
              Cases.twins) as (_ & _ & _ & Hadd).
  destruct Hadd as (i & table & Hi & _ & Hfirst & Hsel).
  - by vm_compute.
  - apply list_elem_of_In. vm_compute. auto.
  - rewrite Hsel. destruct i as [|i].
    + injection Hi as <-. done.
    + exfalso. by apply (Hfirst 0 Cases.firstTwin); [lia|done|].
Defined.

(** C1 as stated fails in two ways.  An id of the selection that a later
    search no longer gives is refused.  And an id that is found is not
    always put at the end of the old order list: after a removal the
    order list [t2], [t1] becomes [t2], [t2]. *)
Lemma add_of_selected_id_fails :
  (js "t1" ∈ itemIds (selectedTables Scenario.searched)
   ∧ addToSelected (js "1700000000003") (js "k3j9x2m1q") (js "t1") Scenario.searched
     = (Scenario.searched, Some Warning_TableDoesNotExist))
  ∧ (js "t2" ∈ itemIds (selectedTables Scenario.afterRemoval)
     ∧ js "t2" ∈ resultIds (tableList Scenario.afterRemoval)
     ∧ getTableOrder (session Scenario.afterRemoval) = [js "t2"; js "t1"]
     ∧ getTableOrder
         (session (addToSelected (js "1700000000003") (js "k3j9x2m1q") (js "t2")
                     Scenario.afterRemoval).1)
       = [js "t2"; js "t2"]).
Proof.
  split; [split|split; [|split; [|split]]]; try (by vm_compute);
    apply list_elem_of_In; vm_compute; auto.
Qed.

Lemma duplicate_add_witness :
  let st := Scenario.add (js "1700000000001") (js "t1") Scenario.start in
  let st' := (addToSelected (js "1700000000002") (js "k3j9x2m1q") (js "t1") st).1 in
  itemIds (selectedTables st') = [js "t1"; js "t1"]
  ∧ getAllTableIds (session st') = [js "t1"; js "t1"]
  ∧ getTableOrder (session st') = [js "t1"; js "t1"]
  ∧ itemIds (selectedTables (removeSelectedByIndex 0 st').1) = [js "t1"].
Proof.
  intros st st'.
  assert (H1 : js "t1" ≠ []) by (by vm_compute).
  assert (H2 : js "t1" ∈ resultIds (tableList st))
    by (apply list_elem_of_In; vm_compute; auto).
  assert (H3 : js "t1" ∈ itemIds (selectedTables st))
    by (apply list_elem_of_In; vm_compute; auto).
  destruct (duplicate_add (js "1700000000002") (js "k3j9x2m1q") (js "t1") st H1 H2 H3)
    as (_ & _ & _ & _ & Hids & _ & Horder & Hremove).
  fold st' in Hids, Horder, Hremove.
  split; [by vm_compute|]. split; [|split].
  - etrans; [exact Hids|]. by vm_compute.
  - etrans; [apply Horder|]; by vm_compute.
  - edestruct (Hremove 0) as (Hgone & _ & _); [vm_compute; reflexivity|].
    change 0%Z with (Z.of_nat 0). rewrite Hgone. by vm_compute.
Defined.

(** * Further properties *)

(** ** The escaper, as a code *)

Import TreeOps.

Lemma escapeHtml_length (text : jsstring) :
  length text ≤ length (escapeHtml text) ∧ length (escapeHtml text) ≤ 6 * length text.
Proof.
  induction text as [|c text [IH1 IH2]]; [done|].
  assert (1 ≤ length (escapeHtml [c]) ∧ length (escapeHtml [c]) ≤ 6) as [H1 H6].
  { rewrite escapeHtml_single. repeat case_match; vm_compute; lia. }
  rewrite escapeHtml_cons, length_app. cbn [length]. lia.
Qed.

Lemma escapeHtml_reserved_longer (c : N) :
  c ∈ reserved → ∃ tail, escapeHtml [c] = 38%N :: tail ∧ 3 ≤ length tail.
Proof.
  unfold reserved. rewrite !elem_of_cons, elem_of_nil.
  intros [->|[->|[->|[->|[->|[]]]]]]; eexists; (split; [by vm_compute|]);
    cbn [length]; lia.
Qed.

(** No entity is the beginning of another. *)
Lemma entities_prefix_free (c1 c2 : N) (r1 r2 : jsstring) :
  c1 ∈ reserved → c2 ∈ reserved →
  escapeHtml [c1] ++ r1 = escapeHtml [c2] ++ r2 → c1 = c2 ∧ r1 = r2.
Proof.
  unfold reserved. rewrite !elem_of_cons, !elem_of_nil.
  intros [->|[->|[->|[->|[->|[]]]]]] [->|[->|[->|[->|[->|[]]]]]] Heq;
    vm_compute in Heq; simplify_eq; auto.
Qed.

(** X1.  [escapeHtml] loses nothing: two texts with the same escaped form
    are the same text. *)
Theorem escapeHtml_injective (s t : jsstring) :
  escapeHtml s = escapeHtml t → s = t.
Proof.
  revert t. induction s as [|c s IH]; intros [|d t] H.
  - done.
  - apply (f_equal length) in H. pose proof (escapeHtml_length (d :: t)) as [Hl _].
    rewrite <- H in Hl. cbn in Hl. lia.
  - apply (f_equal length) in H. pose proof (escapeHtml_length (c :: s)) as [Hl _].
    rewrite H in Hl. cbn in Hl. lia.
  - rewrite (escapeHtml_cons c), (escapeHtml_cons d) in H.
    destruct (decide (c ∈ reserved)) as [Hc|Hc], (decide (d ∈ reserved)) as [Hd|Hd].
    + destruct (entities_prefix_free _ _ _ _ Hc Hd H) as [-> Hrest].
      f_equal. by apply IH.
    + exfalso. destruct (escapeHtml_reserved_longer c Hc) as (tail & Htail & _).
      rewrite Htail, (escapeHtml_plain d Hd) in H. injection H as <- _.
      apply Hd. unfold reserved. apply elem_of_cons. by left.
    + exfalso. destruct (escapeHtml_reserved_longer d Hd) as (tail & Htail & _).
      rewrite Htail, (escapeHtml_plain c Hc) in H. injection H as -> _.
      apply Hc. unfold reserved. apply elem_of_cons. by left.
    + rewrite (escapeHtml_plain c Hc), (escapeHtml_plain d Hd) in H.
      injection H as -> H. f_equal. by apply IH.
Qed.

(** X2.  [escapeHtml] returns its argument exactly when the text holds
    none of the five reserved characters; the escaped text is never
    shorter than the text and at most six times as long. *)
Theorem escapeHtml_fixed_point (text : jsstring) :
  (escapeHtml text = text ↔ Forall (λ c, c ∉ reserved) text)
  ∧ length text ≤ length (escapeHtml text)
  ∧ length (escapeHtml text) ≤ 6 * length text.
Proof.
  split; [|apply escapeHtml_length].
  induction text as [|c text IH]; [by split|].
  rewrite escapeHtml_cons. split.
  - intros H. destruct (decide (c ∈ reserved)) as [Hc|Hc].
    + exfalso. destruct (escapeHtml_reserved_longer c Hc) as (tail & Htail & Hlen).
      rewrite Htail in H. apply (f_equal length) in H.
      pose proof (escapeHtml_length text) as [Hl _].
      cbn [length app] in H. rewrite length_app in H. lia.
    + rewrite (escapeHtml_plain c Hc) in H. injection H as H.
      constructor; [done|]. by apply IH.
  - intros [Hc Htext]%Forall_cons. rewrite (escapeHtml_plain c Hc).
    cbn [app]. f_equal. by apply IH.
Qed.

(** ** What the tree gives *)

Section TreeFacts.
Context (toLowerCase : jsstring → jsstring).
Implicit Types (options : Options) (node : Node).

Lemma prune_loop (drop : Node → bool) (children : list Node) :
  (fix prune (children : list Node) :=
     match children with
     | [] => []
     | child :: rest =>
         if drop child then prune rest else without drop child :: prune rest
     end) children
  = pruned drop children.
Proof.
  unfold pruned. induction children as [|c cs IH]; [done|].
  rewrite filter_cons. destruct (drop c) eqn:E.
  - by rewrite decide_False by done.
  - rewrite decide_True by done. by rewrite fmap_cons, IH.
Qed.

Lemma strip_loop (children : list Node) :
  (fix strip (children : list Node) :=
     match children with
     | [] => []
     | child :: rest => withoutAttributes child :: strip rest
     end) children
  = withoutAttributes <$> children.
Proof. induction children as [|c cs IH]; [done|]. by rewrite fmap_cons, IH. Qed.

Lemma childrenToHtml_cons options (child : Node) (rest : list Node) :
  childrenToHtml toLowerCase options (child :: rest)
  = nodeToHtml toLowerCase options child ++ childrenToHtml toLowerCase options rest.
Proof. done. Qed.

Lemma childrenToHtml_nil_iff options (children : list Node) :
  childrenToHtml toLowerCase options children = []
  ↔ Forall (λ child, nodeToHtml toLowerCase options child = []) children.
Proof.
  induction children as [|c cs IH]; [by split|].
  rewrite childrenToHtml_cons, Forall_cons, <- IH. split.
  - by intros [? ?]%app_eq_nil.
  - by intros [-> ->].
Qed.

(** The children that [drop] takes away gave no markup, and the others
    give theirs. *)
Lemma childrenToHtml_pruned (drop : Node → bool) options options'
    (children : list Node) :
  Forall (λ child, drop child = true →
                   nodeToHtml toLowerCase options' child = []) children →
  Forall (λ child, drop child = false →
                   nodeToHtml toLowerCase options (without drop child)
                   = nodeToHtml toLowerCase options' child) children →
  childrenToHtml toLowerCase options (pruned drop children)
  = childrenToHtml toLowerCase options' children.
Proof.
  unfold pruned. induction children as [|c cs IH]; [done|].
  intros [Hc Hcs]%Forall_cons [Hk Hks]%Forall_cons.
  rewrite filter_cons, (childrenToHtml_cons options' c).
  destruct (drop c) eqn:E.
  - rewrite decide_False by done. rewrite Hc by done. by apply IH.
  - rewrite decide_True by done. rewrite fmap_cons, childrenToHtml_cons, Hk by done.
    f_equal. by apply IH.
Qed.

Lemma childrenToHtml_fmap (f : Node → Node) options options' (children : list Node) :
  Forall (λ child, nodeToHtml toLowerCase options (f child)
                   = nodeToHtml toLowerCase options' child) children →
  childrenToHtml toLowerCase options (f <$> children)
  = childrenToHtml toLowerCase options' children.
Proof.
  induction 1 as [|c cs Hc _ IH]; [done|].
  rewrite fmap_cons, !childrenToHtml_cons. by rewrite Hc, IH.
Qed.

(** Two elements of the same name and open tag, whose children give the
    same markup, give the same markup. *)
Lemma nodeToHtml_element_ext options options' (tagName : jsstring)
    (attributes attributes' : list Attr) (children children' : list Node) :
  tagMapping options = tagMapping options' →
  (∀ h, openTag options h attributes = openTag options' h attributes') →
  childrenToHtml toLowerCase options children
  = childrenToHtml toLowerCase options' children' →
  nodeToHtml toLowerCase options (ElementNode tagName attributes children)
  = nodeToHtml toLowerCase options' (ElementNode tagName attributes' children').
Proof.
  intros Hmap Hopen Hchildren. rewrite !nodeToHtml_element. unfold closesItself.
  unfold htmlTagNameOf, mapped. rewrite Hmap, Hchildren. cbv zeta.
  by rewrite !Hopen.
Qed.

Lemma nodeToHtml_blankText options node :
  blankText node = true → nodeToHtml toLowerCase options node = [].
Proof.
  destruct node as [t| | | | | | |]; try done. cbn [blankText nodeToHtml].
  intros Ht%negb_true_iff%truthy_false. rewrite Ht.
  by destruct (preserveTextNodes options).
Qed.

(** X3.  White space between the tags of the source does not show: the
    markup of a tree is the markup of the tree without its blank text
    nodes. *)
Theorem blank_text_is_invisible options node :
  nodeToHtml toLowerCase options (without blankText node)
  = nodeToHtml toLowerCase options node.
Proof.
  induction node as [t|t|t|t d|n|t a cs IH|cs IH|cs IH] using Node_nested_ind;
    try reflexivity; cbn [without]; rewrite prune_loop.
  - apply nodeToHtml_element_ext; [done..|].
    apply childrenToHtml_pruned.
    + apply Forall_forall. intros c _. apply nodeToHtml_blankText.
    + eapply Forall_impl; [exact IH|]. by intros c Hc _.
  - cbn [nodeToHtml]. rewrite !document_loop. cbn [app].
    apply childrenToHtml_pruned.
    + apply Forall_forall. intros c _. apply nodeToHtml_blankText.
    + eapply Forall_impl; [exact IH|]. by intros c Hc _.
  - cbn [nodeToHtml]. rewrite !document_loop. cbn [app].
    apply childrenToHtml_pruned.
    + apply Forall_forall. intros c _. apply nodeToHtml_blankText.
    + eapply Forall_impl; [exact IH|]. by intros c Hc _.
Qed.

Lemma nodeToHtml_text_off options node :
  isTextNode node = true →
  nodeToHtml toLowerCase (withTextNodes false options) node = [].
Proof. by destruct node. Qed.

(** X4.  With [preserveTextNodes] off, a node that is not itself a text
    node gives the markup of the tree without any text node, whatever the
    switch is there: text nodes give nothing, CDATA sections still give
    their content. *)
Theorem text_off_is_pruning options node :
  isTextNode node = false →
  nodeToHtml toLowerCase (withTextNodes false options) node
  = nodeToHtml toLowerCase options (without isTextNode node).
Proof.
  induction node as [t|t|t|t d|n|t a cs IH|cs IH|cs IH] using Node_nested_ind;
    intros Hnode; try done; cbn [without]; rewrite prune_loop; symmetry.
  - apply nodeToHtml_element_ext; [done..|].
    apply childrenToHtml_pruned.
    + apply Forall_forall. intros c _. apply nodeToHtml_text_off.
    + eapply Forall_impl; [exact IH|]. intros c Hc Hdrop. symmetry. by apply Hc.
  - cbn [nodeToHtml]. rewrite !document_loop. cbn [app].
    apply childrenToHtml_pruned.
    + apply Forall_forall. intros c _. apply nodeToHtml_text_off.
    + eapply Forall_impl; [exact IH|]. intros c Hc Hdrop. symmetry. by apply Hc.
  - cbn [nodeToHtml]. rewrite !document_loop. cbn [app].
    apply childrenToHtml_pruned.
    + apply Forall_forall. intros c _. apply nodeToHtml_text_off.
    + eapply Forall_impl; [exact IH|]. intros c Hc Hdrop. symmetry. by apply Hc.
Qed.

(** X5.  With [preserveAttributes] off the markup is that of the tree
    without any attribute, whatever the switch is there. *)
Theorem attributes_off_is_stripping options (keep : bool) node :
  nodeToHtml toLowerCase (withAttributes false options) node
  = nodeToHtml toLowerCase (withAttributes keep options) (withoutAttributes node).
Proof.
  induction node as [t|t|t|t d|n|t a cs IH|cs IH|cs IH] using Node_nested_ind;
    try reflexivity; cbn [withoutAttributes]; rewrite strip_loop; symmetry.
  - apply nodeToHtml_element_ext; [done| |].
    + intros h. unfold openTag. cbn. by destruct keep.
    + apply childrenToHtml_fmap. eapply Forall_impl; [exact IH|]. by intros c ->.
  - cbn [nodeToHtml]. rewrite !document_loop. cbn [app].
    apply childrenToHtml_fmap. eapply Forall_impl; [exact IH|]. by intros c ->.
  - cbn [nodeToHtml]. rewrite !document_loop. cbn [app].
    apply childrenToHtml_fmap. eapply Forall_impl; [exact IH|]. by intros c ->.
Qed.

Lemma escapeHtml_nil_iff (text : jsstring) : escapeHtml text = [] ↔ text = [].
Proof.
  split; [|by intros ->]. intros H.
  pose proof (escapeHtml_length text) as [Hl _]. rewrite H in Hl.
  destruct text; [done|cbn in Hl; lia].
Qed.

(** The markup of an element begins with a less-than sign and ends with a
    greater-than sign. *)
Lemma nodeToHtml_element_shape options (tagName : jsstring)
    (attributes : list Attr) (childNodes : list Node) :
  ∃ middle,
    nodeToHtml toLowerCase options (ElementNode tagName attributes childNodes)
    = 60%N :: middle ++ [62%N].
Proof.
  rewrite nodeToHtml_element. cbv zeta. rewrite openTag_eq.
  set (h := htmlTagNameOf options (lowerTagName toLowerCase tagName)).
  set (attrs := if preserveAttributes options then _ else _).
  destruct (closesItself _ _ _ _).
  - exists (h ++ attrs ++ [32; 47]%N).
    change (js " />") with ([32; 47]%N ++ [62%N]). change (js "<") with [60%N].
    cbn [app]. by rewrite <- !app_assoc.
  - exists (h ++ attrs ++ js ">" ++ childrenToHtml toLowerCase options childNodes
              ++ js "</" ++ h).
    unfold closeTag. change (js "<") with [60%N]. change (js ">") with [62%N] at 2.
    cbn [app]. by rewrite <- !app_assoc.
Qed.

(** X6.  [nodeToHtml] returns the empty string exactly on a text node
    that is blank or switched off, an empty CDATA section, a processing
    instruction, a document type, and a document or fragment whose
    children are all such nodes.  An element and a comment always give
    markup, so an element with an element or a comment among its
    children is never closed in itself. *)
Theorem empty_markup_iff_silent options node :
  nodeToHtml toLowerCase options node = [] ↔ silent options node = true.
Proof.
  induction node as [t|t|t|t d|n|t a cs IH|cs IH|cs IH] using Node_nested_ind.
  - cbn [nodeToHtml silent]. destruct (preserveTextNodes options); cbn [negb orb].
    + rewrite escapeHtml_nil_iff, negb_true_iff. symmetry. apply truthy_false.
    + done.
  - cbn [nodeToHtml silent]. rewrite negb_true_iff. symmetry. apply truthy_false.
  - by cbn.
  - done.
  - done.
  - destruct (nodeToHtml_element_shape options t a cs) as [middle ->]. by cbn.
  - cbn [nodeToHtml silent]. rewrite document_loop. cbn [app].
    rewrite childrenToHtml_nil_iff, forallb_forall, Forall_forall.
    rewrite Forall_forall in IH. split.
    + intros H c Hc%list_elem_of_In. apply IH; auto.
    + intros H c Hc. apply IH; [done|]. by apply H, list_elem_of_In.
  - cbn [nodeToHtml silent]. rewrite document_loop. cbn [app].
    rewrite childrenToHtml_nil_iff, forallb_forall, Forall_forall.
    rewrite Forall_forall in IH. split.
    + intros H c Hc%list_elem_of_In. apply IH; auto.
    + intros H c Hc. apply IH; [done|]. by apply H, list_elem_of_In.
Qed.

Context (parseFromString : jsstring → Completion Node).

Lemma documentElement_is_element (xmlDoc root : Node) :
  documentElement xmlDoc = Some root →
  ∃ tagName attributes childNodes, root = ElementNode tagName attributes childNodes.
Proof.
  destruct xmlDoc as [| | | | | |cs|]; try done. cbn [documentElement].
  intros ([i r] & Hfind & ->)%fmap_Some.
  apply list_find_Some in Hfind as (_ & Hel & _).
  destruct r; try done. cbn. eauto.
Qed.

(** X7.  On an input that parses to a document with a root element,
    [xml2html] never returns the empty string: its result begins with a
    less-than sign and ends with a greater-than sign.  An empty result
    so always tells a rejected input. *)
Theorem accepted_input_gives_markup (xmlString : jsstring) options (xmlDoc root : Node) :
  parseXML parseFromString xmlString = Some xmlDoc →
  documentElement xmlDoc = Some root →
  ∃ middle,
    xml2html toLowerCase parseFromString xmlString options = 60%N :: middle ++ [62%N].
Proof.
  intros Hparse Hroot.
  destruct (parseXML_Some _ _ _ Hparse) as (Htrim & _ & _).
  destruct (documentElement_is_element _ _ Hroot) as (t & a & cs & ->).
  unfold xml2html. rewrite Htrim, Hparse, Hroot. cbn [negb default from_option id].
  destruct (truthy (wrapperTag options)).
  - exists (wrapperTag options ++ js ">"
              ++ nodeToHtml toLowerCase (nodeOptions options) (ElementNode t a cs)
              ++ js "</" ++ wrapperTag options).
    change (js "<") with [60%N] at 1. change (js ">") with [62%N] at 2.
    cbn [app]. by rewrite <- !app_assoc.
  - apply nodeToHtml_element_shape.
Qed.

(** X8.  [xml2htmlFragment] degrades like [xml2html]: on an input that is
    blank, on which the parser throws, or whose parse holds an error
    element, it returns the empty string, whatever the options. *)
Theorem xml2htmlFragment_degrades (xmlString : jsstring) options :
  rejected parseFromString xmlString →
  xml2htmlFragment toLowerCase parseFromString xmlString options = [].
Proof.
  intros Hrej. unfold xml2htmlFragment, parseXML, querySelector.
  destruct (truthy (trim xmlString)) eqn:Htrim; cbn [negb]; [|done].
  destruct Hrej as [Hws|[[e He]|(doc & Hdoc & Herr)]].
  - by rewrite (trim_blank _ Hws) in Htrim.
  - by rewrite He.
  - rewrite Hdoc. by destruct (elementsNamed _ doc).
Qed.
End TreeFacts.

(** With [preserveTextNodes] off the text nodes go, at every depth; the
    CDATA section stays. *)
Lemma text_off_is_pruning_witness :
  nodeToHtml Reference.toLowerCase (withTextNodes false defaultOptions)
    (ElementNode (js "p") []
       [TextNode (js "a"); ElementNode (js "b") [] [TextNode (js "c")];
        CDataSection (js "d")])
  = js "<p><b></b>d</p>".
Proof.
  etrans; [by apply text_off_is_pruning|]. by vm_compute.
Defined.

Lemma accepted_input_gives_markup_witness :
  ∃ middle, Reference.xml2html (js "<a/>") defaultOptions = 60%N :: middle ++ [62%N].
Proof.
  by apply (accepted_input_gives_markup Reference.toLowerCase Reference.parseFromString
              (js "<a/>") defaultOptions
              (DocumentNode [ElementNode (js "a") [] []])
              (ElementNode (js "a") [] [])).
Defined.

Lemma xml2htmlFragment_degrades_witness :
  Reference.xml2htmlFragment (js " ") defaultOptions = []
  ∧ Reference.xml2htmlFragment (js "<a><b></a>") defaultOptions = [].
Proof.
  split; apply xml2htmlFragment_degrades.
  - by left.
  - right; right. eexists. split; [by vm_compute|]. by vm_compute.
Defined.

(** ** The table id store *)

Section IdStoreFacts.
Import DisplayView IdStore.
Context {Json : Type}.
Implicit Types (s : Session Json) (tableId : jsstring) (v : View Json).

Lemma indexOf_Some {A} `{EqDecision A} (x : A) (l : list A) (i : nat) :
  indexOf x l = Some i → l !! i = Some x.
Proof.
  unfold indexOf. intros ([j y] & Hfind & ->)%fmap_Some. cbn.
  by apply list_find_Some in Hfind as (Hj & -> & _).
Qed.

Lemma indexOf_elem_of {A} `{EqDecision A} (x : A) (l : list A) :
  x ∈ l → is_Some (indexOf x l).
Proof.
  intros Hx. unfold indexOf.
  destruct (list_find_elem_of (λ y, y = x) l x Hx eq_refl) as [[i y] ->]. by eexists.
Qed.

Lemma indexOf_None {A} `{EqDecision A} (x : A) (l : list A) :
  x ∉ l → indexOf x l = None.
Proof.
  intros Hx. unfold indexOf.
  rewrite (proj2 (list_find_None (λ y, y = x) l)); [done|].
  apply Forall_forall. by intros y Hy ->.
Qed.

Lemma indexOf_fresh_end {A} `{EqDecision A} (x : A) (l : list A) :
  x ∉ l → indexOf x (l ++ [x]) = Some (length l).
Proof.
  intros Hx. unfold indexOf.
  rewrite (proj2 (list_find_Some (λ y, y = x) (l ++ [x]) (length l) x)); [done|].
  split; [by rewrite lookup_app_r, Nat.sub_diag by lia|]. split; [done|].
  intros j y Hj Hlt ->. apply Hx. rewrite lookup_app_l in Hj by done.
  by eapply list_elem_of_lookup_2.
Qed.

Lemma delete_end {A} (x : A) (l : list A) : delete (length l) (l ++ [x]) = l.
Proof. by rewrite (delete_middle l [] x), app_nil_r. Qed.

Lemma delete_Permutation_cancel {A} (x : A) (l k : list A) (i j : nat) :
  l !! i = Some x → k !! j = Some x → l ≡ₚ k → delete i l ≡ₚ delete j k.
Proof.
  intros Hi Hj Hperm. apply (Permutation_cons_inv (a := x)).
  by rewrite <- (delete_Permutation l i x), <- (delete_Permutation k j x).
Qed.

Lemma updateTableOrder_members (orderArray : list jsstring) s (x : jsstring) :
  x ∈ getTableOrder (updateTableOrder orderArray s).2 ↔ x ∈ getAllTableIds s.
Proof.
  rewrite updateTableOrder_order, elem_of_app, !list_elem_of_filter.
  destruct (decide (x ∈ orderArray)); tauto.
Qed.

Lemma updateTableOrder_exact (orderArray : list jsstring) s :
  orderArray ⊆ getAllTableIds s → getAllTableIds s ⊆ orderArray →
  getTableOrder (updateTableOrder orderArray s).2 = orderArray.
Proof.
  intros Hsub1 Hsub2. rewrite updateTableOrder_order.
  rewrite filter_all, filter_none; [by rewrite app_nil_r|..].
  - intros x Hx Hnot. by apply Hnot, Hsub2.
  - intros x Hx. by apply Hsub1.
Qed.

(** X9.  After [updateTableOrder] the order list holds exactly the ids of
    the id list, whatever it held before and whatever the proposal; a
    proposal that holds exactly these ids is stored as it is; and
    proposing the stored order again changes nothing. *)
Theorem reorder_repairs_membership (orderArray : list jsstring) s :
  let s' := (updateTableOrder orderArray s).2 in
  (∀ x, x ∈ getTableOrder s' ↔ x ∈ getAllTableIds s)
  ∧ (orderArray ⊆ getAllTableIds s → getAllTableIds s ⊆ orderArray →
     getTableOrder s' = orderArray)
  ∧ getTableOrder (updateTableOrder (getTableOrder s') s').2 = getTableOrder s'.
Proof.
  intros s'. split; [apply updateTableOrder_members|]. split.
  - apply updateTableOrder_exact.
  - apply updateTableOrder_exact.
    + intros x Hx. by apply updateTableOrder_members in Hx.
    + intros x Hx. by apply updateTableOrder_members.
Qed.

Lemma updateTableOrder_wellFormed (orderArray : list jsstring) s :
  NoDup (getAllTableIds s) → NoDup orderArray →
  wellFormed (updateTableOrder orderArray s).2.
Proof.
  intros Hids Hp. split; [done|].
  apply NoDup_Permutation; [|done|exact (updateTableOrder_members orderArray s)].
  rewrite updateTableOrder_order. apply NoDup_app. split; [|split].
  - by apply NoDup_filter.
  - intros x [_ Hx]%list_elem_of_filter [Hx' _]%list_elem_of_filter. done.
  - by apply NoDup_filter.
Qed.

Lemma addTableId_wellFormed tableId s :
  wellFormed s → wellFormed (addTableId tableId s).2.
Proof.
  intros [Hnd Hperm]. unfold addTableId, includes.
  destruct (truthy tableId); cbn [negb]; [|done].
  case_bool_decide as Hin; [done|].
  split; cbn.
  - apply NoDup_app. split; [done|]. split; [|apply NoDup_singleton].
    intros x Hx ->%list_elem_of_singleton. done.
  - fold (getTableOrder s). fold (getAllTableIds s). by rewrite Hperm.
Qed.

Lemma removeTableId_wellFormed tableId s :
  wellFormed s → wellFormed (removeTableId tableId s).2.
Proof.
  intros [Hnd Hperm]. unfold removeTableId.
  destruct (truthy tableId); cbn [negb]; [|done].
  destruct (indexOf tableId (getAllTableIds s)) as [i|] eqn:Hi; [|done].
  apply indexOf_Some in Hi.
  assert (Hin : tableId ∈ getTableOrder s).
  { rewrite Hperm. by eapply list_elem_of_lookup_2. }
  destruct (indexOf_elem_of _ _ Hin) as [j Hj].
  change (getTableOrder (setTableIds _ s)) with (getTableOrder s). rewrite Hj.
  apply indexOf_Some in Hj. split; cbn.
  - unfold splice1. exact (sublist_NoDup _ _ Hnd (sublist_delete _ i)).
  - unfold splice1. fold (getTableOrder s).
    by apply (delete_Permutation_cancel tableId).
Qed.

Lemma step_wellFormed s (op : Op) :
  wellFormed s → admissible op → wellFormed (step s op).
Proof.
  intros Hwf Hop. destruct op as [t|t|p|]; cbn [step].
  - by apply addTableId_wellFormed.
  - by apply removeTableId_wellFormed.
  - apply updateTableOrder_wellFormed; [apply Hwf | done].
  - split; [apply NoDup_nil_2 | done].
Qed.

(** X10.  The id store stays well formed: from a session whose id list
    names no id twice and whose order list is a rearrangement of it, every
    run of [addTableId], [removeTableId], [clearTableIds] and of
    [updateTableOrder] on proposals without a repeated id ends in such a
    session. *)
Theorem id_store_stays_well_formed (ops : list Op) s :
  wellFormed s → Forall admissible ops → wellFormed (run ops s).
Proof.
  unfold run. revert s. induction ops as [|op ops IH]; intros s Hwf Hops; [done|].
  apply Forall_cons in Hops as [Hop Hops]. cbn [foldl].
  apply IH; [|done]. by apply step_wellFormed.
Qed.

(** X11.  Adding an id that is not empty and not yet stored, then
    removing it, succeeds twice and gives back the id list and the order
    list as they were. *)
Theorem add_then_remove_restores tableId s :
  tableId ≠ [] →
  tableId ∉ getAllTableIds s →
  tableId ∉ getTableOrder s →
  (addTableId tableId s).1 = true
  ∧ (removeTableId tableId (addTableId tableId s).2).1 = true
  ∧ getAllTableIds (removeTableId tableId (addTableId tableId s).2).2
    = getAllTableIds s
  ∧ getTableOrder (removeTableId tableId (addTableId tableId s).2).2
    = getTableOrder s.
Proof.
  intros Hne Hids Horder. unfold addTableId, includes.
  destruct tableId as [|c t]; [done|]. cbn [truthy negb].
  rewrite bool_decide_eq_false_2 by done. cbn [fst snd].
  unfold removeTableId. cbn [truthy negb].
  change (getAllTableIds (setOrder _ (setTableIds ?l s))) with l.
  rewrite (indexOf_fresh_end _ _ Hids).
  change (getTableOrder (setTableIds _ (setOrder ?l _))) with l.
  change (getTableOrder (setTableIds _ s)) with (getTableOrder s).
  rewrite (indexOf_fresh_end _ _ Horder). cbn [fst snd].
  unfold splice1. cbn. by rewrite !delete_end.
Qed.

(** *** Moving an entry of the selection *)

Lemma swapped_lookup (i j : nat) (l : list jsstring) (x y : jsstring) :
  l !! i = Some x → l !! j = Some y →
  swapped i j l = <[j := x]> (<[i := y]> l).
Proof. intros Hi Hj. unfold swapped. by rewrite Hi, Hj. Qed.

Lemma swapped_Permutation (i j : nat) (l : list jsstring) : swapped i j l ≡ₚ l.
Proof.
  unfold swapped. destruct (l !! i) as [a|] eqn:Hi; [|done].
  destruct (l !! j) as [b|] eqn:Hj; [|done].
  by apply Permutation_insert_swap.
Qed.
End IdStoreFacts.
(** ** The view that keeps ids *)

Section IdViewFacts.
Import DisplayView IdStore.
Context {Json : Type}.
Implicit Types (s : Session Json) (tableId : jsstring) (v : View Json).

Lemma inStep_order_stored v :
  inStep v → selectedTableIds v ≠ [] →
  table_order (store v) = Some (selectedTableIds v).
Proof.
  intros [_ Hsel] Hne. rewrite Hsel in *. unfold getTableOrder in *.
  by destruct (table_order (store v)).
Qed.

Lemma setOrder_stored (l : list jsstring) s :
  table_order s = Some l → setOrder l s = s.
Proof. intros Hl. destruct s. cbn in *. by rewrite Hl. Qed.

Lemma swapped_length (i j : nat) (l : list jsstring) :
  length (swapped i j l) = length l.
Proof.
  unfold swapped. destruct (l !! i), (l !! j); [|done..].
  by rewrite !length_insert.
Qed.

Lemma swapped_back (i : nat) (l : list jsstring) :
  S i < length l → swapped i (i + 1) (swapped (S i) i l) = l.
Proof.
  intros Hlt. rewrite Nat.add_1_r.
  destruct (lookup_lt_is_Some_2 l i) as [a Ha]; [lia|].
  destruct (lookup_lt_is_Some_2 l (S i)) as [b Hb]; [lia|].
  rewrite (swapped_lookup (S i) i l b a) by done.
  rewrite (swapped_lookup i (S i) _ b a).
  - apply list_eq. intros k.
    destruct (decide (k = S i)) as [->|Hk1].
    { rewrite list_lookup_insert_eq by (rewrite !length_insert; lia). done. }
    rewrite list_lookup_insert_ne by done.
    destruct (decide (k = i)) as [->|Hk2].
    { rewrite list_lookup_insert_eq by (rewrite !length_insert; lia). done. }
    by rewrite !list_lookup_insert_ne by done.
  - apply list_lookup_insert_eq. rewrite length_insert. lia.
  - rewrite list_lookup_insert_ne by lia.
    apply list_lookup_insert_eq. lia.
Qed.

Lemma updateTableOrder_rearranged (orderArray : list jsstring) s :
  orderArray ≡ₚ getAllTableIds s →
  (updateTableOrder orderArray s).2 = setOrder orderArray s.
Proof.
  intros Hperm.
  pose proof (updateTableOrder_exact orderArray s) as Hexact.
  unfold updateTableOrder in *. cbn [snd] in *.
  unfold getTableOrder, setOrder in Hexact. cbn in Hexact. unfold setOrder.
  rewrite Hexact; [done|intros x; by rewrite Hperm..].
Qed.

Lemma moveUp_eq v (i : nat) :
  inStep v → currentIndex v = Z.of_nat (S i) → S i < length (selectedTableIds v) →
  (moveUp v).1
  = {| selectedTableIds := swapped (S i) i (selectedTableIds v);
       currentIndex := Z.of_nat i;
       store := setOrder (swapped (S i) i (selectedTableIds v)) (store v) |}.
Proof.
  intros [[Hnd Hperm] Hsel] Hcur Hlt. unfold moveUp.
  rewrite bool_decide_eq_false_2 by lia. cbn [fst].
  rewrite Hcur, Nat2Z.id. replace (S i - 1) with i by lia.
  unfold syncSelectedTableIds. cbn [store currentIndex].
  rewrite updateTableOrder_rearranged
    by (by rewrite swapped_Permutation, Hsel, Hperm).
  f_equal. lia.
Qed.

(** X12.  In a view that shows a well-formed store, moving the picked
    entry up exchanges it with the entry before it and leaves the other
    entries where they are; the picked index goes with the entry; and the
    view still shows the store, which is still well formed. *)
Theorem moveUp_follows_entry v (i : nat) :
  inStep v → currentIndex v = Z.of_nat (S i) → S i < length (selectedTableIds v) →
  let v' := (moveUp v).1 in
  selectedTableIds v' !! i = selectedTableIds v !! S i
  ∧ selectedTableIds v' !! S i = selectedTableIds v !! i
  ∧ (∀ k, k ≠ i → k ≠ S i → selectedTableIds v' !! k = selectedTableIds v !! k)
  ∧ currentIndex v' = Z.of_nat i
  ∧ inStep v'.
Proof.
  intros Hstep Hcur Hlt v'. subst v'. rewrite (moveUp_eq v i) by done.
  cbn [selectedTableIds currentIndex].
  destruct (lookup_lt_is_Some_2 (selectedTableIds v) i) as [a Ha]; [lia|].
  destruct (lookup_lt_is_Some_2 (selectedTableIds v) (S i)) as [b Hb]; [lia|].
  rewrite (swapped_lookup (S i) i _ b a) by done.
  split; [|split; [|split; [|split]]].
  - rewrite Hb. apply list_lookup_insert_eq. rewrite length_insert. lia.
  - rewrite Ha, list_lookup_insert_ne by lia. apply list_lookup_insert_eq. lia.
  - intros k Hk1 Hk2. by rewrite !list_lookup_insert_ne by done.
  - done.
  - rewrite <- (swapped_lookup (S i) i _ b a) by done.
    destruct Hstep as [[Hnd Hperm] Hsel]. split; [split|]; cbn.
    + done.
    + fold (getAllTableIds (store v)). by rewrite swapped_Permutation, Hsel.
    + done.
Qed.

(** X13.  In a view that shows a well-formed store and in which an entry
    other than the first is picked, moving the picked entry up and then
    down gives back the view as it was: selection, picked index and
    store. *)
Theorem moveDown_undoes_moveUp v (i : nat) :
  inStep v → currentIndex v = Z.of_nat (S i) → S i < length (selectedTableIds v) →
  (moveDown (moveUp v).1).1 = v.
Proof.
  intros Hstep Hcur Hlt. rewrite (moveUp_eq v i) by done.
  assert (Hne : selectedTableIds v ≠ []) by (intros Hnil; rewrite Hnil in Hlt; cbn in Hlt; lia).
  pose proof (inStep_order_stored v Hstep Hne) as Hstored.
  destruct Hstep as [[Hnd Hperm] Hsel].
  unfold moveDown. cbn [selectedTableIds currentIndex store].
  rewrite bool_decide_eq_false_2 by (rewrite swapped_length; lia). cbn [fst].
  rewrite Nat2Z.id, swapped_back by done.
  unfold syncSelectedTableIds. cbn [store currentIndex].
  rewrite updateTableOrder_rearranged
    by (cbn; fold (getAllTableIds (store v)); by rewrite Hsel).
  destruct v as [sel cur [ids order items]]. cbn in *. subst.
  f_equal; [lia|]. unfold setOrder. cbn. by rewrite <- Hstored.
Qed.

Lemma delete_members (l : list jsstring) (j : nat) (t x : jsstring) :
  NoDup l → l !! j = Some t → x ∈ delete j l ↔ x ∈ l ∧ x ≠ t.
Proof.
  intros Hnd Hj. pose proof (delete_Permutation l j t Hj) as Hperm.
  assert (Hmem : x ∈ l ↔ x = t ∨ x ∈ delete j l)
    by (by rewrite <- elem_of_cons, <- Hperm).
  rewrite Hperm in Hnd. apply NoDup_cons in Hnd as [Hnot _].
  rewrite Hmem. split.
  - intros Hx. split; [by right|]. by intros ->.
  - by intros [[->|Hx] Hne].
Qed.

Lemma removeTableId_order tableId s (j : nat) :
  tableId ≠ [] → wellFormed s → getTableOrder s !! j = Some tableId →
  getTableOrder (removeTableId tableId s).2 = delete j (getTableOrder s).
Proof.
  intros Hne [Hnd Hperm] Hj. unfold removeTableId.
  destruct tableId as [|c t]; [done|]. cbn [truthy negb].
  assert (Hin : (c :: t) ∈ getAllTableIds s).
  { rewrite <- Hperm. by eapply list_elem_of_lookup_2. }
  destruct (indexOf_elem_of _ _ Hin) as [i Hi]. rewrite Hi.
  change (getTableOrder (setTableIds _ s)) with (getTableOrder s).
  assert (Hj' : indexOf (c :: t) (getTableOrder s) = Some j).
  { unfold indexOf.
    rewrite (proj2 (list_find_Some (λ y, y = c :: t) (getTableOrder s) j (c :: t)));
      [done|].
    split; [done|]. split; [done|]. intros k y Hk Hlt ->.
    assert (HndO : NoDup (getTableOrder s)) by (by rewrite Hperm).
    pose proof (NoDup_lookup _ _ _ _ HndO Hk Hj). lia. }
  rewrite Hj'. done.
Qed.

Lemma addTableId_order tableId s :
  tableId ≠ [] → tableId ∉ getAllTableIds s →
  getTableOrder (addTableId tableId s).2 = getTableOrder s ++ [tableId].
Proof.
  intros Hne Hnot. unfold addTableId, includes.
  destruct tableId as [|c t]; [done|]. cbn [truthy negb].
  by rewrite bool_decide_eq_false_2 by done.
Qed.

(** X14.  In a view that shows a well-formed store, [toggleSelect] on an
    id that is not empty flips whether that id is selected, changes this
    for no other id, and the view still shows the store, which is still
    well formed. *)
Theorem toggleSelect_flips tableId v :
  inStep v → tableId ≠ [] →
  let v' := (toggleSelect tableId v).1 in
  (tableId ∈ selectedTableIds v' ↔ tableId ∉ selectedTableIds v)
  ∧ (∀ x, x ≠ tableId → x ∈ selectedTableIds v' ↔ x ∈ selectedTableIds v)
  ∧ inStep v'.
Proof.
  intros [Hwf Hsel] Hne v'. subst v'. unfold toggleSelect.
  assert (Htruthy : truthy tableId = true) by (by destruct tableId).
  rewrite Htruthy. cbn [negb].
  destruct (indexOf tableId (selectedTableIds v)) as [j|] eqn:Hj.
  - apply indexOf_Some in Hj. rewrite Hsel in Hj.
    cbn [fst syncSelectedTableIds selectedTableIds store].
    rewrite (removeTableId_order _ _ j) by done.
    assert (HndO : NoDup (getTableOrder (store v)))
      by (destruct Hwf as [Hnd Hperm]; by rewrite Hperm).
    rewrite Hsel. split; [|split].
    + rewrite (delete_members _ j tableId) by done.
      split; [by intros [_ ?]|]. intros Hnot. exfalso. apply Hnot.
      by eapply list_elem_of_lookup_2.
    + intros x Hx. rewrite (delete_members _ j tableId) by done. tauto.
    + split; [by apply removeTableId_wellFormed | done].
  - assert (Hnot : tableId ∉ selectedTableIds v).
    { intros Hin. destruct (indexOf_elem_of _ _ Hin) as [k Hk]. congruence. }
    cbn [fst syncSelectedTableIds selectedTableIds store].
    assert (Hnot' : tableId ∉ getAllTableIds (store v)).
    { destruct Hwf as [Hnd Hperm]. by rewrite <- Hperm, <- Hsel. }
    rewrite addTableId_order by done. rewrite <- Hsel. split; [|split].
    + split; [done|]. intros _. apply elem_of_app. right. by left.
    + intros x Hx. rewrite elem_of_app, list_elem_of_singleton. tauto.
    + split; [by apply addTableId_wellFormed | done].
Qed.

(** X15.  In a view that shows a well-formed store and in which an entry
    is picked, removing a selected id that is not empty and is not the
    picked one leaves the same entry picked, at the index it then has;
    removing the picked id, if it is not empty, leaves nothing picked. *)
Theorem removeSelected_keeps_pick tableId v (c : nat) (x : jsstring) :
  inStep v → tableId ≠ [] →
  currentIndex v = Z.of_nat c → selectedTableIds v !! c = Some x →
  tableId ∈ selectedTableIds v →
  let v' := (removeSelected tableId v).1 in
  (x = tableId → currentIndex v' = (-1)%Z)
  ∧ (x ≠ tableId →
     ∃ c', currentIndex v' = Z.of_nat c' ∧ selectedTableIds v' !! c' = Some x).
Proof.
  intros [Hwf Hsel] Hne Hcur Hc Hin v'. subst v'. unfold removeSelected.
  destruct (indexOf_elem_of _ _ Hin) as [j Hj]. rewrite Hj.
  apply indexOf_Some in Hj.
  assert (HndS : NoDup (selectedTableIds v))
    by (destruct Hwf as [Hnd Hperm]; by rewrite Hsel, Hperm).
  cbn [fst syncSelectedTableIds selectedTableIds currentIndex store].
  rewrite (removeTableId_order _ _ j) by (by rewrite <- ?Hsel).
  rewrite <- Hsel, Hcur. split.
  - intros ->. pose proof (NoDup_lookup _ _ _ _ HndS Hc Hj) as ->.
    by rewrite bool_decide_eq_true_2.
  - intros Hx. assert (c ≠ j) by (intros ->; congruence).
    rewrite bool_decide_eq_false_2 by lia.
    case_bool_decide as Hgt.
    + exists (c - 1). split; [lia|].
      rewrite list_lookup_delete_ge by lia. by replace (S (c - 1)) with c by lia.
    + exists c. split; [done|]. by rewrite list_lookup_delete_lt by lia.
Qed.
End IdViewFacts.

(** ** Rebuilding the selection from the session *)

Lemma filter_ext_in {A} (P Q : A → Prop) `{!∀ x, Decision (P x)} `{!∀ x, Decision (Q x)}
    (l : list A) :
  (∀ x, x ∈ l → P x ↔ Q x) → filter P l = filter Q l.
Proof.
  induction l as [|a l IH]; intros Hext; [done|].
  assert (Ha : P a ↔ Q a) by (apply Hext; by left).
  assert (Hl : filter P l = filter Q l)
    by (apply IH; intros x Hx; apply Hext; by right).
  destruct (decide (P a)) as [HP|HP].
  - rewrite !filter_cons_True by tauto. by rewrite Hl.
  - rewrite !filter_cons_False by tauto. done.
Qed.

Section ReconcileFacts.
Import DisplayView SelectionView.
Context {Json : Type}.
Implicit Types (st : State Json) (item : TableItem Json)
  (storedItems : list (TableItem Json)) (used : gset jsstring).

Lemma itemIds_itemsOf storedItems (t : jsstring) :
  t ∈ itemIds storedItems ↔ itemsOf storedItems t ≠ [].
Proof.
  unfold itemIds, itemsOf. rewrite list_elem_of_fmap. split.
  - intros (item & -> & Hin) Hnil.
    assert (Hx : item ∈ filter (λ i, id (fields i) = id (fields item)) storedItems)
      by (by apply list_elem_of_filter).
    rewrite Hnil in Hx. by apply elem_of_nil in Hx.
  - intros Hne. destruct (filter _ _) as [|item l] eqn:Hf; [done|].
    assert (Hx : item ∈ filter (λ i, id (fields i) = t) storedItems)
      by (rewrite Hf; by left).
    apply list_elem_of_filter in Hx as [Hid Hin]. by exists item.
Qed.

(** What one round does: nothing for an id that no stored entry has, and
    otherwise it adds one stored entry of that id. *)
Lemma place_cases storedItems used (ordered : list (TableItem Json)) (t : jsstring) :
  ((t ∉ itemIds storedItems) ∧ place storedItems (used, ordered) t = (used, ordered))
  ∨ (∃ item, item ∈ storedItems ∧ id (fields item) = t
       ∧ place storedItems (used, ordered) t
         = ({[uniqueId item]} ∪ used, ordered ++ [item])).
Proof.
  unfold place. cbn [fst snd].
  destruct (list_find _ (itemsOf storedItems t)) as [[k item]|] eqn:Hfind.
  - right. exists item. cbn. apply list_find_Some in Hfind as (Hk & _ & _).
    apply list_elem_of_lookup_2, list_elem_of_filter in Hk as [Hid Hin]. done.
  - cbn. destruct (itemsOf storedItems t) as [|first l] eqn:Hitems.
    + left. split; [|done]. rewrite itemIds_itemsOf. by intros Hne.
    + right. exists first.
      assert (Hx : first ∈ itemsOf storedItems t) by (rewrite Hitems; by left).
      apply list_elem_of_filter in Hx as [Hid Hin]. done.
Qed.

Lemma foldl_place_ids storedItems (order : list jsstring) used ordered :
  ∃ extra,
    (foldl (place storedItems) (used, ordered) order).2 = ordered ++ extra
    ∧ itemIds extra = filter (λ t, t ∈ itemIds storedItems) order
    ∧ extra ⊆ storedItems.
Proof.
  revert used ordered. induction order as [|t order IH]; intros used ordered.
  { exists []. cbn. rewrite app_nil_r. split; [done|]. split; [done|].
    intros x Hx. by apply elem_of_nil in Hx. }
  cbn [foldl].
  destruct (place_cases storedItems used ordered t)
    as [[Hnot ->]|(item & Hin & Hid & ->)].
  - destruct (IH used ordered) as (extra & Hfold & Hids & Hsub).
    exists extra. split; [done|]. split; [|done].
    by rewrite filter_cons_False by done.
  - destruct (IH ({[uniqueId item]} ∪ used) (ordered ++ [item]))
      as (extra & Hfold & Hids & Hsub).
    exists (item :: extra). split; [|split].
    + rewrite Hfold. by rewrite <- app_assoc.
    + rewrite filter_cons_True.
      * unfold itemIds in *. cbn. by rewrite Hid, <- Hids.
      * subst t. unfold itemIds. apply list_elem_of_fmap. by exists item.
    + intros x [->|Hx]%elem_of_cons; [done|by apply Hsub].
Qed.

Lemma unused_split storedItems used item :
  NoDup (uniqueId <$> storedItems) → item ∈ storedItems → uniqueId item ∉ used →
  unused used storedItems ≡ₚ item :: unused ({[uniqueId item]} ∪ used) storedItems.
Proof.
  unfold unused. intros Hnd Hin Hfree.
  induction storedItems as [|x l IH]; [by apply elem_of_nil in Hin|].
  rewrite fmap_cons in Hnd. apply NoDup_cons in Hnd as [Hx Hnd].
  apply elem_of_cons in Hin as [<-|Hin].
  - rewrite filter_cons_True by done.
    rewrite filter_cons_False
      by (intros Hn; apply Hn, elem_of_union; left; by apply elem_of_singleton).
    f_equiv. erewrite filter_ext_in; [done|].
    intros y Hy. cbn. rewrite elem_of_union, elem_of_singleton.
    assert (uniqueId y ≠ uniqueId item); [|tauto].
    intros Heq. apply Hx. rewrite <- Heq. apply list_elem_of_fmap. by exists y.
  - assert (Hne : uniqueId x ≠ uniqueId item).
    { intros Heq. apply Hx. rewrite Heq. apply list_elem_of_fmap. by exists item. }
    destruct (decide (uniqueId x ∈ used)) as [Hused|Hused].
    + rewrite !filter_cons_False
        by (rewrite ?elem_of_union, ?elem_of_singleton; tauto).
      by apply IH.
    + rewrite !filter_cons_True
        by (rewrite ?elem_of_union, ?elem_of_singleton; tauto).
      rewrite (IH Hnd Hin). apply Permutation_swap.
Qed.

Lemma foldl_place_unused storedItems (order : list jsstring) used ordered :
  NoDup (uniqueId <$> storedItems) →
  order ≡ₚ itemIds (unused used storedItems) →
  ∃ extra,
    (foldl (place storedItems) (used, ordered) order).2 = ordered ++ extra
    ∧ extra ≡ₚ unused used storedItems
    ∧ itemIds extra = order.
Proof.
  intros Hnd. revert used ordered.
  induction order as [|t order IH]; intros used ordered Hperm.
  { exists []. cbn. rewrite app_nil_r. split; [done|]. split; [|done].
    symmetry in Hperm. apply Permutation_nil_r in Hperm.
    apply fmap_nil_inv in Hperm. by rewrite Hperm. }
  assert (Ht : t ∈ itemIds (unused used storedItems)) by (rewrite <- Hperm; by left).
  apply list_elem_of_fmap in Ht as (item0 & Hid0 & Hin0).
  apply list_elem_of_filter in Hin0 as [Hfree0 Hin0].
  assert (Hitems0 : item0 ∈ itemsOf storedItems t) by (by apply list_elem_of_filter).
  destruct (list_find_elem_of (λ i, uniqueId i ∉ used) _ item0 Hitems0 Hfree0)
    as [[k item] Hfind].
  cbn [foldl]. unfold place at 2. cbn [fst snd]. rewrite Hfind.
  cbn [fmap option_fmap option_map snd].
  apply list_find_Some in Hfind as (Hk & Hfree & _).
  apply list_elem_of_lookup_2, list_elem_of_filter in Hk as [Hid Hin].
  pose proof (unused_split _ _ _ Hnd Hin Hfree) as Hsplit.
  destruct (IH ({[uniqueId item]} ∪ used) (ordered ++ [item]))
    as (extra & Hfold & Hextra & Hids).
  { apply (Permutation_cons_inv (a := t)). rewrite Hperm. unfold itemIds.
    rewrite Hsplit. cbn. by rewrite Hid. }
  exists (item :: extra). split; [|split].
  - rewrite Hfold. by rewrite <- app_assoc.
  - by rewrite Hsplit, Hextra.
  - unfold itemIds in *. cbn. by rewrite Hid, Hids.
Qed.

Lemma foldl_place_aligned (done todo : list (TableItem Json)) used ordered :
  NoDup (uniqueId <$> (done ++ todo)) →
  (∀ u, u ∈ used ↔ u ∈ uniqueId <$> done) →
  (foldl (place (done ++ todo)) (used, ordered) (itemIds todo)).2 = ordered ++ todo.
Proof.
  revert done used ordered.
  induction todo as [|item todo IH]; intros done used ordered Hnd Hused.
  { cbn. by rewrite app_nil_r. }
  cbn [itemIds fmap list_fmap foldl].
  assert (Hfree : uniqueId item ∉ used).
  { rewrite Hused. rewrite fmap_app in Hnd. apply NoDup_app in Hnd as (_ & Hdisj & _).
    intros Hin. apply (Hdisj _ Hin). rewrite fmap_cons. by left. }
  assert (Hfind : ∃ k, list_find (λ i, uniqueId i ∉ used)
                    (itemsOf (done ++ item :: todo) (id (fields item)))
                  = Some (k, item)).
  { exists (length (itemsOf done (id (fields item)))).
    apply list_find_Some. unfold itemsOf.
    rewrite filter_app, filter_cons_True by done. split; [|split].
    - by rewrite lookup_app_r, Nat.sub_diag by lia.
    - done.
    - intros j y Hj Hlt. rewrite lookup_app_l in Hj by done.
      apply list_elem_of_lookup_2, list_elem_of_filter in Hj as [_ Hy].
      intros Hy'. apply Hy', Hused, list_elem_of_fmap. by exists y. }
  destruct Hfind as [k Hfind].
  unfold place at 2. cbn [fst snd]. rewrite Hfind.
  cbn [fmap option_fmap option_map snd].
  replace (done ++ item :: todo) with ((done ++ [item]) ++ todo)
    by (by rewrite <- app_assoc).
  fold (itemIds todo). rewrite IH.
  - by rewrite <- app_assoc.
  - by rewrite <- app_assoc.
  - intros u. rewrite fmap_app, elem_of_app, elem_of_union, elem_of_singleton.
    rewrite Hused. cbn. rewrite list_elem_of_singleton. tauto.
Qed.

Lemma orderedItems_aligned storedItems :
  NoDup (uniqueId <$> storedItems) →
  orderedItems storedItems (itemIds storedItems) = storedItems.
Proof.
  intros Hnd. unfold orderedItems.
  rewrite (foldl_place_aligned [] storedItems ∅ []); [done|done|].
  intros u. rewrite fmap_nil, elem_of_nil. apply elem_of_empty.
Qed.

Lemma fmap_delete {A B} (f : A → B) (l : list A) (i : nat) :
  f <$> delete i l = delete i (f <$> l).
Proof.
  revert i. induction l as [|x l IH]; intros [|i]; try done.
  cbn. by rewrite <- IH.
Qed.

(** X16.  When the stored entries are not empty, have distinct
    [uniqueId]s and the order list is a rearrangement of their ids,
    [syncSelectedTableIds] shows the stored entries, each once,
    rearranged so that their ids read as the order list; the session is
    left as it is. *)
Theorem sync_follows_order now random (p : Page Json) :
  let s := session (state p) in
  getStoredItems s ≠ [] →
  NoDup (uniqueId <$> getStoredItems s) →
  getTableOrder s ≡ₚ itemIds (getStoredItems s) →
  let p' := syncSelectedTableIds now random p in
  selectedTables (state p') ≡ₚ getStoredItems s
  ∧ itemIds (selectedTables (state p')) = getTableOrder s
  ∧ selectedTableIds p' = getTableOrder s
  ∧ session (state p') = s.
Proof.
  intros s Hne Hnd Hperm p'. subst p'. unfold syncSelectedTableIds. fold s.
  rewrite bool_decide_eq_true_2
    by (destruct (getStoredItems s); [done|cbn; lia]).
  rewrite bool_decide_eq_true_2
    by (by rewrite Hperm; unfold itemIds; rewrite length_fmap).
  cbn [andb state selectedTables selectedTableIds session].
  destruct (foldl_place_unused (getStoredItems s) (getTableOrder s) ∅ [] Hnd)
    as (extra & Hfold & Hextra & Hids).
  { rewrite Hperm. unfold unused. by rewrite filter_all. }
  unfold orderedItems. rewrite Hfold. cbn [app].
  split; [|done]. rewrite Hextra. unfold unused. by rewrite filter_all.
Qed.

(** X17.  When there are as many stored entries as ids in the order
    list, and at least one, the selection that [syncSelectedTableIds]
    shows is made of stored entries, and its ids are the order list
    without the ids that no stored entry has. *)
Theorem sync_skips_unknown_ids now random (p : Page Json) :
  let s := session (state p) in
  getStoredItems s ≠ [] →
  length (getStoredItems s) = length (getTableOrder s) →
  let p' := syncSelectedTableIds now random p in
  selectedTables (state p') ⊆ getStoredItems s
  ∧ itemIds (selectedTables (state p'))
    = filter (λ t, t ∈ itemIds (getStoredItems s)) (getTableOrder s).
Proof.
  intros s Hne Hlen p'. subst p'. unfold syncSelectedTableIds. fold s.
  rewrite bool_decide_eq_true_2
    by (destruct (getStoredItems s); [done|cbn; lia]).
  rewrite bool_decide_eq_true_2 by done.
  cbn [andb state selectedTables].
  destruct (foldl_place_ids (getStoredItems s) (getTableOrder s) ∅ [])
    as (extra & Hfold & Hids & Hsub).
  unfold orderedItems. rewrite Hfold. done.
Qed.

(** X18.  A state whose session mirrors a selection that is not empty is
    left as it is by [syncSelectedTableIds]. *)
Theorem sync_keeps_aligned_state now random (p : Page Json) :
  aligned (state p) → selectedTables (state p) ≠ [] →
  let p' := syncSelectedTableIds now random p in
  state p' = state p ∧ selectedTableIds p' = itemIds (selectedTables (state p)).
Proof.
  intros (Hstored & Horder & Hids & Hnd) Hne p'. subst p'.
  unfold syncSelectedTableIds. rewrite Hstored, Horder.
  rewrite bool_decide_eq_true_2
    by (destruct (selectedTables (state p)); [done|cbn; lia]).
  rewrite bool_decide_eq_true_2 by (by rewrite length_fmap).
  cbn [andb state selectedTableIds].
  fold (itemIds (selectedTables (state p))).
  rewrite orderedItems_aligned by done.
  split; [|done]. by destruct (state p).
Qed.

(** X19.  [addToSelected] keeps the session a mirror of the selection,
    when the [uniqueId] it builds is not the one of a selected entry. *)
Theorem add_keeps_alignment now random tableId st :
  aligned st → tableId ≠ [] → tableId ∈ resultIds (tableList st) →
  tableId ++ js "_" ++ now ++ js "_" ++ random ∉ uniqueId <$> selectedTables st →
  aligned (addToSelected now random tableId st).1.
Proof.
  intros (Hstored & Horder & Hids & Hnd) Hne Hin Hfresh.
  destruct (find_result _ _ Hin) as (i & table & Hfind & Htable & Hid).
  destruct (addToSelected_found now random _ _ _ _ Hne Hfind)
    as (_ & _ & Hsel' & Hstored' & Hids' & Horder').
  unfold aligned. rewrite Hsel', Hstored', Hids', Horder', Hstored.
  rewrite !fmap_app. cbn [fmap list_fmap newItem fields uniqueId]. rewrite Hid.
  split; [done|]. split; [|split].
  - rewrite Horder.
    rewrite filter_all, filter_none; [by rewrite app_nil_r|..].
    + intros x Hx Hnot. apply Hnot. revert Hx. rewrite !elem_of_app.
      intros [Hx|Hx]; [left|by right]. by rewrite <- Hids.
    + intros x. rewrite !elem_of_app.
      intros [Hx|Hx]; [left|by right]. by rewrite Hids.
  - by rewrite Hids.
  - apply NoDup_app. split; [done|]. split; [|apply NoDup_singleton].
    intros x Hx ->%list_elem_of_singleton. done.
Qed.

Lemma removal_from_aligned (i : nat) st item :
  aligned st → selectedTables st !! i = Some item →
  let st' := (removeSelectedByIndex (Z.of_nat i) st).1 in
  let rest := delete i (selectedTables st) in
  selectedTables st' = rest
  ∧ getStoredItems (session st') = rest
  ∧ getAllTableIds (session st') ≡ₚ itemIds rest
  ∧ NoDup (uniqueId <$> rest)
  ∧ getTableOrder (session st')
    = itemIds rest
      ++ (if decide (id (fields item) ∈ itemIds rest) then [] else [id (fields item)]).
Proof.
  intros (Hstored & Horder & Hids & Hnd) Hi st' rest. subst st'.
  destruct (removeSelectedByIndex_removes _ _ _ Hi) as (_ & Hsel' & _).
  split; [done|].
  assert (Hstored' : getStoredItems (session (removeSelectedByIndex (Z.of_nat i) st).1)
                     = rest).
  { rewrite (removeSelectedByIndex_stored i st item); rewrite ?Hstored; done. }
  split; [done|].
  assert (Hnd' : NoDup (uniqueId <$> rest)).
  { unfold rest. rewrite fmap_delete.
    exact (sublist_NoDup _ _ Hnd (sublist_delete _ i)). }
  set (t := id (fields item)).
  assert (Ht : getTableOrder (session st) !! i = Some t)
    by (by rewrite Horder, list_lookup_fmap, Hi).
  assert (Hrest : itemIds rest = delete i (getTableOrder (session st)))
    by (unfold rest, itemIds; by rewrite Horder, fmap_delete).
  assert (Hsplit : getAllTableIds (session st) ≡ₚ t :: itemIds rest).
  { rewrite Hids, <- Horder, Hrest. by apply delete_Permutation. }
  rewrite (removeSelectedByIndex_session _ _ _ Hi). cbv zeta.
  rewrite Hstored, (list_find_NoDup uniqueId _ _ _ Hnd Hi).
  cbn [fmap option_fmap option_map fst].
  change (getTableOrder (setItems ?l ?s)) with (getTableOrder s).
  rewrite bool_decide_eq_true_2 by (by eapply lookup_lt_Some).
  set (s1 := setItems _ (session st)).
  change (getAllTableIds (updateTableOrder ?o s1).2) with (getAllTableIds (session st)).
  assert (Hin : t ∈ getAllTableIds (session st)) by (rewrite Hsplit; by left).
  destruct (indexOf_elem_of _ _ Hin) as [k Hk]. fold t. rewrite Hk.
  apply indexOf_Some in Hk.
  split; [|split; [done|]].
  - cbn [getAllTableIds setTableIds table_ids default from_option]. cbn.
    apply (Permutation_cons_inv (a := t)).
    by rewrite <- (delete_Permutation _ k t Hk).
  - change (getTableOrder (setTableIds ?l ?s)) with (getTableOrder s).
    rewrite updateTableOrder_order.
    change (getAllTableIds s1) with (getAllTableIds (session st)).
    rewrite <- Hrest. f_equal.
    + apply filter_all. intros x Hx. rewrite Hsplit. by right.
    + assert (Hf : filter (λ y, y ∉ itemIds rest) (getAllTableIds (session st))
                   ≡ₚ filter (λ y, y ∉ itemIds rest) (t :: itemIds rest))
        by (by rewrite Hsplit).
      rewrite filter_cons in Hf.
      rewrite (filter_none _ (itemIds rest)) in Hf by (intros x Hx Hn; by apply Hn).
      destruct (decide (t ∈ itemIds rest)) as [Hyes|Hno].
      * rewrite decide_False in Hf by (intros Hn; by apply Hn).
        by apply Permutation_nil_r in Hf.
      * rewrite decide_True in Hf by done.
        by apply Permutation_singleton_r in Hf.
Qed.

(** X20.  Removing an entry from a state whose session mirrors the
    selection: the entry goes from the selection and from the stored
    entries, and its id goes once from the id list.  The order list
    loses the id only when another selected entry has it; otherwise it
    keeps the id, moved to its end, and the session no longer mirrors the
    selection. *)
Theorem removal_alignment (i : nat) st item :
  aligned st → selectedTables st !! i = Some item →
  let st' := (removeSelectedByIndex (Z.of_nat i) st).1 in
  let t := id (fields item) in
  selectedTables st' = delete i (selectedTables st)
  ∧ getStoredItems (session st') = selectedTables st'
  ∧ getAllTableIds (session st') ≡ₚ itemIds (selectedTables st')
  ∧ (t ∈ itemIds (selectedTables st') → aligned st')
  ∧ (t ∉ itemIds (selectedTables st') →
     getTableOrder (session st') = itemIds (selectedTables st') ++ [t]
     ∧ ¬ aligned st').
Proof.
  intros Hal Hi st' t.
  destruct (removal_from_aligned i st item Hal Hi)
    as (Hsel & Hstored & Hids & Hnd & Horder).
  fold st' t in Hsel, Hstored, Hids, Horder. rewrite <- Hsel in *.
  split; [done|]. split; [done|]. split; [done|]. split.
  - intros Hin. rewrite decide_True, app_nil_r in Horder by done. done.
  - intros Hnot. rewrite decide_False in Horder by done. split; [done|].
    intros (_ & Horder' & _). rewrite Horder in Horder'.
    apply (f_equal length) in Horder'. rewrite length_app in Horder'.
    unfold itemIds in Horder'. cbn in Horder'. lia.
Qed.

(** X21.  When the stored entries are not empty, have distinct
    [uniqueId]s and ids that the id list names, but the order list has
    another length, [syncSelectedTableIds] shows the stored entries and
    rewrites the order list: the session then mirrors the selection. *)
Theorem sync_repairs_order now random (p : Page Json) :
  let s := session (state p) in
  getStoredItems s ≠ [] →
  length (getStoredItems s) ≠ length (getTableOrder s) →
  NoDup (uniqueId <$> getStoredItems s) →
  getAllTableIds s ≡ₚ itemIds (getStoredItems s) →
  let p' := syncSelectedTableIds now random p in
  selectedTables (state p') = getStoredItems s
  ∧ selectedTableIds p' = itemIds (getStoredItems s)
  ∧ aligned (state p').
Proof.
  intros s Hne Hlen Hnd Hids p'. subst p'. unfold syncSelectedTableIds. fold s.
  rewrite (bool_decide_eq_false_2 (length _ = length _)) by done.
  rewrite andb_false_r.
  rewrite bool_decide_eq_true_2
    by (destruct (getStoredItems s); [done|cbn; lia]).
  cbn [state selectedTables selectedTableIds].
  split; [done|]. split; [done|].
  unfold aligned. cbn [session selectedTables].
  fold (itemIds (getStoredItems s)).
  split; [done|]. split; [|split; [done|done]].
  apply updateTableOrder_exact; intros x; by rewrite Hids.
Qed.

Lemma rebuilt_singleton now random (tables : list (Table Json)) (t : jsstring)
    (k : nat) (table : Table Json) :
  list_find (λ x, id x = t) tables = Some (k, table) →
  rebuilt now random tables [t]
  = [ {| uniqueId := t ++ js "_" ++ now 0 ++ js "_" ++ random 0; fields := table |} ].
Proof. intros Hfind. unfold rebuilt. cbn. by rewrite Hfind. Qed.

(** X22.  In a state whose session mirrors a selection of one entry,
    removing that entry does not last: the selection, the stored entries
    and the id list become empty, but the order list keeps the id, and
    the next [syncSelectedTableIds] (every search ends with one) selects
    the table again, under a new [uniqueId], if the result list has that
    id. *)
Theorem removed_last_entry_returns now random (p : Page Json) item :
  aligned (state p) → selectedTables (state p) = [item] →
  id (fields item) ∈ resultIds (tableList (state p)) →
  let st' := (removeSelectedByIndex 0 (state p)).1 in
  let p' := syncSelectedTableIds now random (withState st' p) in
  selectedTables st' = []
  ∧ getStoredItems (session st') = []
  ∧ getAllTableIds (session st') = []
  ∧ getTableOrder (session st') = [id (fields item)]
  ∧ ∃ table, table ∈ tableList (state p) ∧ id table = id (fields item)
      ∧ selectedTables (state p')
        = [ {| uniqueId := id (fields item) ++ js "_" ++ now 0 ++ js "_" ++ random 0;
               fields := table |} ]
      ∧ getStoredItems (session (state p')) = selectedTables (state p').
Proof.
  intros Hal Hsel Hin st' p'.
  assert (Hi : selectedTables (state p) !! 0 = Some item) by (by rewrite Hsel).
  destruct (removal_from_aligned 0 _ item Hal Hi)
    as (Hsel' & Hstored' & Hids' & _ & Horder').
  destruct (removeSelectedByIndex_removes _ _ _ Hi) as (_ & _ & Htables).
  change (Z.of_nat 0) with 0%Z in *. fold st' in Hsel', Hstored', Hids', Horder', Htables.
  rewrite Hsel in *. cbn in Hsel', Hstored', Hids', Horder'.
  rewrite decide_False in Horder' by apply not_elem_of_nil.
  apply Permutation_nil_r in Hids'.
  split; [done|]. split; [done|]. split; [done|]. split; [done|].
  destruct (find_result _ _ Hin) as (k & table & Hfind & Htable & Hid).
  exists table. split; [done|]. split; [done|].
  subst p'. unfold syncSelectedTableIds. cbn [state withState].
  rewrite Hstored', Horder', Htables. cbn [length andb].
  rewrite (bool_decide_eq_false_2 (0 < 0)) by lia. cbn [andb].
  rewrite bool_decide_eq_true_2 by (cbn; lia).
  cbn [state selectedTables session].
  rewrite (rebuilt_singleton _ _ _ _ _ _ Hfind).
  split; [done|].
  by rewrite bool_decide_eq_true_2 by (cbn; lia).
Qed.

(** X23.  A download of a selection that is not empty, when it succeeds,
    asks for the ids of the selection and empties the selection shown,
    the id list and the order list, but leaves the stored entries as they
    are: the next [loadSelectedTables] shows exactly the stored entries,
    which is the whole selection again when the stored entries were the
    selection.  After a confirmed [clearSelected] it shows nothing. *)
Theorem selection_returns_after_download {Blob} now random
    (downloadTables : list jsstring → Completion Blob) (blob : Blob) (p : Page Json) :
  selectedTables (state p) ≠ [] →
  downloadTables (itemIds (selectedTables (state p))) = Normal blob →
  let p1 := (handleDownload downloadTables p).1.1 in
  let p2 := (clearSelected true p).1 in
  (handleDownload downloadTables p).1.2 = Some (itemIds (selectedTables (state p)))
  ∧ selectedTables (state p1) = []
  ∧ getAllTableIds (session (state p1)) = []
  ∧ getTableOrder (session (state p1)) = []
  ∧ getStoredItems (session (state p1)) = getStoredItems (session (state p))
  ∧ selectedTables (state (loadSelectedTables now random p1))
    = getStoredItems (session (state p))
  ∧ (getStoredItems (session (state p)) = selectedTables (state p) →
     selectedTables (state (loadSelectedTables now random p1))
     = selectedTables (state p))
  ∧ selectedTables (state (loadSelectedTables now random p2)) = [].
Proof.
  intros Hne Hdl p1 p2. subst p1 p2. unfold handleDownload.
  fold (itemIds (selectedTables (state p))).
  rewrite bool_decide_eq_false_2
    by (unfold itemIds; rewrite length_fmap; by destruct (selectedTables (state p))).
  rewrite Hdl. cbn [fst snd state session selectedTables].
  assert (Hback : selectedTables
                    (state (loadSelectedTables now random
                       {| state := {| tableList := tableList (state p);
                                      selectedTables := [];
                                      currentSelectedIndex := (-1)%Z;
                                      session := (clearTableIds (session (state p))).2 |};
                          selectedTableIds := [];
                          downloading := false; errorMessage := [] |}))
                  = getStoredItems (session (state p))).
  { unfold loadSelectedTables, syncSelectedTableIds.
    cbn [state session clearTableIds snd getStoredItems getTableOrder
         selected_tables_items table_order default from_option length].
    fold (getStoredItems (session (state p))).
    destruct (getStoredItems (session (state p))) as [|item items] eqn:Hstored.
    - by cbn.
    - rewrite bool_decide_eq_true_2 by (cbn; lia).
      by rewrite bool_decide_eq_false_2 by done. }
  split; [done|]. split; [done|]. split; [done|]. split; [done|]. split; [done|].
  split; [exact Hback|]. split.
  - intros Hstored. by rewrite Hback.
  - unfold clearSelected, loadSelectedTables, syncSelectedTableIds. cbn.
    done.
Qed.

(** X24.  After a drag, [onDragEnd] makes the session mirror the
    selection as rearranged, when its entries have distinct [uniqueId]s
    and the id list names their ids; a following [syncSelectedTableIds]
    then shows that very selection. *)
Theorem drag_is_kept now random (p : Page Json) :
  selectedTables (state p) ≠ [] →
  NoDup (uniqueId <$> selectedTables (state p)) →
  getAllTableIds (session (state p)) ≡ₚ itemIds (selectedTables (state p)) →
  let st' := (onDragEnd (state p)).1 in
  aligned st'
  ∧ selectedTables st' = selectedTables (state p)
  ∧ selectedTables (state (syncSelectedTableIds now random (withState st' p)))
    = selectedTables (state p).
Proof.
  intros Hne Hnd Hids st'.
  assert (Hal : aligned st').
  { unfold aligned. subst st'. unfold onDragEnd. cbn [fst withSession session selectedTables].
    split; [done|]. split; [|split; [done|done]].
    change (getTableOrder (setItems ?l ?s)) with (getTableOrder s).
    apply updateTableOrder_exact; intros x; by rewrite Hids. }
  split; [done|]. split; [done|].
  destruct Hal as (Hstored & Horder & _ & _).
  unfold syncSelectedTableIds. cbn [state withState]. rewrite Hstored, Horder.
  change (selectedTables st') with (selectedTables (state p)).
  rewrite bool_decide_eq_true_2
    by (destruct (selectedTables (state p)); [done|cbn; lia]).
  rewrite bool_decide_eq_true_2 by (by rewrite length_fmap).
  cbn [andb state selectedTables].
  fold (itemIds (selectedTables (state p))).
  by rewrite orderedItems_aligned.
Qed.
End ReconcileFacts.

(** ** The properties at work *)

Lemma escapeHtml_injective_witness :
  escapeHtml (js "a<b") = js "a&lt;b" ∧ js "a<b" = [97; 60; 98]%N.
Proof.
  split; [by vm_compute|]. apply escapeHtml_injective. by vm_compute.
Defined.

Ltac by_deciding := apply (bool_decide_unpack _); vm_compute; exact I.

Lemma selectedBoth_wellFormed : IdStore.wellFormed Scenario.selectedBoth.
Proof.
  split.
  - by_deciding.
  - by vm_compute.
Qed.

Lemma idView_inStep : IdStore.inStep Cases.idView.
Proof. split; [apply selectedBoth_wellFormed | by vm_compute]. Qed.

Lemma id_store_stays_well_formed_witness :
  IdStore.wellFormed
    (IdStore.run [IdStore.Add (js "t3"); IdStore.Reorder [js "t3"; js "t1"];
                  IdStore.Remove (js "t1"); IdStore.Add []]
       Scenario.selectedBoth).
Proof.
  apply id_store_stays_well_formed; [apply selectedBoth_wellFormed|].
  repeat apply Forall_cons_2; try apply Forall_nil_2; try exact I.
  by_deciding.
Defined.

Lemma add_then_remove_restores_witness :
  getTableOrder
    (IdStore.removeTableId (js "t3") (addTableId (js "t3") Scenario.selectedBoth).2).2
  = [js "t1"; js "t2"].
Proof.
  destruct (add_then_remove_restores (js "t3") Scenario.selectedBoth)
    as (_ & _ & _ & Horder).
  - by vm_compute.
  - by_deciding.
  - by_deciding.
  - etrans; [exact Horder|]. by vm_compute.
Defined.

Lemma moveUp_follows_entry_witness :
  IdStore.selectedTableIds (IdStore.moveUp Cases.idView).1 !! 0 = Some (js "t2")
  ∧ IdStore.currentIndex (IdStore.moveUp Cases.idView).1 = 0%Z.
Proof.
  destruct (moveUp_follows_entry Cases.idView 0) as (Hpicked & _ & _ & Hcur & _).
  - apply idView_inStep.
  - by vm_compute.
  - vm_compute. lia.
  - split; [|exact Hcur]. etrans; [exact Hpicked|]. by vm_compute.
Defined.

Lemma moveDown_undoes_moveUp_witness :
  (IdStore.moveDown (IdStore.moveUp Cases.idView).1).1 = Cases.idView.
Proof.
  apply (moveDown_undoes_moveUp Cases.idView 0).
  - apply idView_inStep.
  - by vm_compute.
  - vm_compute. lia.
Defined.

Lemma toggleSelect_flips_witness :
  (js "t1" ∉ IdStore.selectedTableIds (IdStore.toggleSelect (js "t1") Cases.idView).1)
  ∧ js "t2" ∈ IdStore.selectedTableIds (IdStore.toggleSelect (js "t1") Cases.idView).1.
Proof.
  destruct (toggleSelect_flips (js "t1") Cases.idView) as (Hflip & Hothers & _).
  - apply idView_inStep.
  - by vm_compute.
  - split.
    + intros Hin. apply Hflip in Hin. apply Hin.
      apply list_elem_of_In. vm_compute. auto.
    + apply Hothers; [by vm_compute|]. apply list_elem_of_In. vm_compute. auto.
Defined.

Lemma removeSelected_keeps_pick_witness :
  ∃ c', IdStore.currentIndex (IdStore.removeSelected (js "t1") Cases.idView).1
        = Z.of_nat c'
    ∧ IdStore.selectedTableIds (IdStore.removeSelected (js "t1") Cases.idView).1 !! c'
      = Some (js "t2").
Proof.
  destruct (removeSelected_keeps_pick (js "t1") Cases.idView 1 (js "t2"))
    as (_ & Hkept).
  - apply idView_inStep.
  - by vm_compute.
  - by vm_compute.
  - by vm_compute.
  - apply list_elem_of_In. vm_compute. auto.
  - apply Hkept. by vm_compute.
Defined.

Lemma both_aligned : SelectionView.aligned Cases.both.
Proof.
  split; [by vm_compute|]. split; [by vm_compute|]. split; [by vm_compute|].
  by_deciding.
Qed.

Lemma sync_follows_order_witness :
  itemIds (selectedTables
             (SelectionView.state
                (SelectionView.syncSelectedTableIds Cases.now Cases.random
                   (Cases.page Cases.reordered))))
  = [js "t2"; js "t1"].
Proof.
  destruct (sync_follows_order Cases.now Cases.random (Cases.page Cases.reordered))
    as (_ & Hids & _).
  - by vm_compute.
  - by_deciding.
  - vm_compute. apply perm_swap.
  - etrans; [exact Hids|]. by vm_compute.
Defined.

Lemma sync_skips_unknown_ids_witness :
  itemIds (selectedTables
             (SelectionView.state
                (SelectionView.syncSelectedTableIds Cases.now Cases.random
                   (Cases.page Cases.strayOrder))))
  = [js "t1"].
Proof.
  destruct (sync_skips_unknown_ids Cases.now Cases.random (Cases.page Cases.strayOrder))
    as (_ & Hids).
  - by vm_compute.
  - by vm_compute.
  - etrans; [exact Hids|]. by vm_compute.
Defined.

Lemma sync_keeps_aligned_state_witness :
  SelectionView.state
    (SelectionView.syncSelectedTableIds Cases.now Cases.random (Cases.page Cases.both))
  = Cases.both.
Proof.
  destruct (sync_keeps_aligned_state Cases.now Cases.random (Cases.page Cases.both))
    as (Hstate & _).
  - apply both_aligned.
  - by vm_compute.
  - exact Hstate.
Defined.

Lemma add_keeps_alignment_witness :
  SelectionView.aligned
    (addToSelected (js "1700000000003") (js "k3j9x2m1q") (js "t1") Cases.both).1.
Proof.
  apply add_keeps_alignment.
  - apply both_aligned.
  - by vm_compute.
  - apply list_elem_of_In. vm_compute. auto.
  - by_deciding.
Defined.

Lemma removal_alignment_witness :
  getTableOrder (session (removeSelectedByIndex 0 Cases.both).1) = [js "t2"; js "t1"]
  ∧ itemIds (selectedTables (removeSelectedByIndex 0 Cases.both).1) = [js "t2"].
Proof.
  destruct (removal_alignment 0 Cases.both
              (newItem (js "1700000000001") (js "k3j9x2m1q") (Scenario.table (js "t1"))))
    as (Hsel & _ & _ & _ & Hstale).
  - apply both_aligned.
  - by vm_compute.
  - destruct Hstale as (Horder & _).
    + by_deciding.
    + split.
      * etrans; [exact Horder|]. by vm_compute.
      * change 0%Z with (Z.of_nat 0). rewrite Hsel. by vm_compute.
Defined.

Lemma sync_repairs_order_witness :
  SelectionView.aligned
    (SelectionView.state
       (SelectionView.syncSelectedTableIds Cases.now Cases.random
          (Cases.page Scenario.afterRemoval))).
Proof.
  destruct (sync_repairs_order Cases.now Cases.random (Cases.page Scenario.afterRemoval))
    as (_ & _ & Hal).
  - by vm_compute.
  - by vm_compute.
  - by_deciding.
  - by vm_compute.
  - exact Hal.
Defined.

Lemma removed_last_entry_returns_witness :
  selectedTables (removeSelectedByIndex 0 Cases.one).1 = []
  ∧ itemIds (selectedTables
               (SelectionView.state
                  (SelectionView.syncSelectedTableIds Cases.now Cases.random
                     (SelectionView.withState (removeSelectedByIndex 0 Cases.one).1
                        (Cases.page Cases.one)))))
    = [js "t1"].
Proof.
  destruct (removed_last_entry_returns Cases.now Cases.random (Cases.page Cases.one)
              (newItem (js "1700000000001") (js "k3j9x2m1q") (Scenario.table (js "t1"))))
    as (Hgone & _ & _ & _ & table & _ & Hid & Hback & _).
  - split; [by vm_compute|]. split; [by vm_compute|]. split; [by vm_compute|].
    by_deciding.
  - by vm_compute.
  - apply list_elem_of_In. vm_compute. auto.
  - split; [exact Hgone|].
    change (SelectionView.state (Cases.page Cases.one)) with Cases.one in Hback.
    rewrite Hback. unfold itemIds. cbn [fmap list_fmap fields]. by rewrite Hid.
Defined.

Lemma selection_returns_after_download_witness :
  selectedTables
    (SelectionView.state
       (SelectionView.loadSelectedTables Cases.now Cases.random
          (SelectionView.handleDownload Cases.downloadTables
             (Cases.page Cases.both)).1.1))
  = selectedTables Cases.both.
Proof.
  destruct (selection_returns_after_download Cases.now Cases.random
              Cases.downloadTables () (Cases.page Cases.both))
    as (_ & _ & _ & _ & _ & _ & Hback & _).
  - by vm_compute.
  - by vm_compute.
  - apply Hback. by vm_compute.
Defined.

Lemma drag_is_kept_witness :
  itemIds (selectedTables
             (SelectionView.state
                (SelectionView.syncSelectedTableIds Cases.now Cases.random
                   (SelectionView.withState (SelectionView.onDragEnd Cases.dragged).1
                      (Cases.page Cases.dragged)))))
  = [js "t2"; js "t1"].
Proof.
  destruct (drag_is_kept Cases.now Cases.random (Cases.page Cases.dragged))
    as (_ & _ & Hkept).
  - by vm_compute.
  - by_deciding.
  - vm_compute. apply perm_swap.
  - change (SelectionView.state (Cases.page Cases.dragged)) with Cases.dragged in Hkept.
    rewrite Hkept. by vm_compute.
Defined.

(** ** Uploading *)

Section UploadFacts.
Import Api.
Context (toLowerCase : jsstring → jsstring) (megabytes formatFileSize : Z → jsstring).
Context {Data Entry : Type}.

Lemma or_else_truthy (a b : jsstring) : b ≠ [] → or_else a b ≠ [].
Proof. intros Hb. unfold or_else. by destruct a. Qed.

Lemma explain_truthy (fallback : jsstring) (error : Failure) :
  fallback ≠ [] → explain fallback error ≠ [].
Proof.
  intros Hf. destruct error as [m d| |m]; cbn.
  - by apply or_else_truthy, or_else_truthy.
  - done.
  - by apply or_else_truthy.
Qed.

(** X25.  [uploadFile] of the api module returns only a reply that says
    success, and only for a file whose name is not empty and ends in
    .docx, whatever the case of its letters, and whose size is at most
    10 MiB; in every other case it throws, and the error it throws has a
    message that is not empty. *)
Theorem uploadFile_returns_only_successes
    (post : File → Outcome (Response Data)) (file : option File) :
  (∀ response,
     uploadFile toLowerCase megabytes post file = Normal response
     ↔ ∃ f, file = Some f ∧ name f ≠ []
         ∧ endsWith (toLowerCase (name f)) (js ".docx") = true
         ∧ (size f ≤ 10 * 1024 * 1024)%Z
         ∧ post f = Resolved response ∧ success response = true)
  ∧ (∀ message,
       uploadFile toLowerCase megabytes post file = Throw (Error message) →
       message ≠ []).
Proof.
  split.
  - intros response. unfold uploadFile. split.
    + destruct file as [f|]; [|done].
      destruct (name f) as [|c n] eqn:Hname; [done|]. cbn [truthy negb orb].
      destruct (endsWith _ _) eqn:Hends; [|done]. cbn [negb].
      case_bool_decide as Hsize; [done|].
      destruct (post f) as [r|e] eqn:Hpost; [|done].
      destruct (success r) eqn:Hsuccess; [|done].
      intros [= <-]. exists f. rewrite Hname. unfold MAX_FILE_SIZE in Hsize.
      repeat split; try done; lia.
    + intros (f & -> & Hname & Hends & Hsize & Hpost & Hsuccess).
      destruct (name f) as [|c n] eqn:Hn; [done|]. cbn [truthy negb orb].
      rewrite Hends. cbn [negb].
      rewrite bool_decide_eq_false_2 by (unfold MAX_FILE_SIZE; lia).
      by rewrite Hpost, Hsuccess.
  - intros message. unfold uploadFile.
    destruct file as [f|]; [|by intros [= <-]].
    destruct (_ || _); [by intros [= <-]|].
    case_bool_decide; [intros [= <-]; by vm_compute|].
    destruct (post f) as [r|e]; [destruct (success r); [done|]|];
      intros [= <-]; [apply (explain_truthy _ (Other _))|apply explain_truthy];
      by vm_compute.
Qed.

(** X26.  The page and the api module disagree on the size allowed: a
    file named .docx of more than 10 MiB and at most 50 MiB is taken by
    [handleFileChange] without a message, and its upload then fails
    without regard to the request, with the message of the 10 MiB limit
    when its name is not empty. *)
Theorem upload_limits_disagree (post : File → Outcome (Response Data)) (f : File)
    (entries : list Entry) (p : UploadView.Page Data Entry) :
  endsWith (toLowerCase (name f)) (js ".docx") = true →
  (10 * 1024 * 1024 < size f ≤ 50 * 1024 * 1024)%Z →
  let taken := UploadView.handleFileChange toLowerCase formatFileSize (Some f) entries p in
  let ended := UploadView.uploadFile toLowerCase megabytes post taken.1 in
  taken.2 = None
  ∧ UploadView.selectedFile taken.1 = Some f
  ∧ UploadView.uploadStatus ended.1 = Some UploadView.StatusException
  ∧ UploadView.uploadProgress ended.1 = 0%Z
  ∧ (name f ≠ [] →
     ended.2 = Some (UploadView.ErrorToast
                       (tooLarge ++ megabytes (size f) ++ js "MB"))).
Proof.
  intros Hends Hsize taken ended. subst ended taken.
  unfold UploadView.handleFileChange. rewrite Hends. cbn [negb].
  rewrite bool_decide_eq_false_2 by (unfold UploadView.MAX_FILE_SIZE; lia).
  cbn [fst snd UploadView.selectedFile].
  split; [done|]. split; [done|].
  unfold UploadView.uploadFile. cbn [UploadView.selectedFile].
  unfold uploadFile. rewrite Hends. cbn [negb].
  destruct (name f) as [|c n] eqn:Hname; cbn [truthy negb orb].
  - done.
  - rewrite bool_decide_eq_true_2 by (unfold MAX_FILE_SIZE; lia).
    cbn [fst snd UploadView.uploadStatus UploadView.uploadProgress].
    split; [done|]. split; [done|]. intros _.
    unfold or_else. by destruct tooLarge eqn:Hlarge; [by vm_compute in Hlarge|].
Qed.
End UploadFacts.

Lemma upload_limits_disagree_witness :
  let f := {| Api.name := js "Tables.DOCX"; Api.size := 20 * 1024 * 1024 |} in
  let p : UploadView.Page unit unit :=
    {| UploadView.selectedFile := None; UploadView.uploading := false;
       UploadView.fileList := []; UploadView.uploadProgress := 0;
       UploadView.uploadStatus := None; UploadView.uploadResult := None |} in
  UploadView.uploadStatus
    (UploadView.uploadFile Reference.toLowerCase (λ _, js "20.00")
       (λ _, Api.Rejected Api.NoResponse)
       (UploadView.handleFileChange Reference.toLowerCase (λ _, js "20 MB")
          (Some f) [()] p).1).1
  = Some UploadView.StatusException.
Proof.
  intros f p.
  destruct (upload_limits_disagree Reference.toLowerCase (λ _, js "20.00")
              (λ _, js "20 MB") (λ _, Api.Rejected Api.NoResponse) f [()] p)
    as (_ & _ & Hstatus & _).
  - by vm_compute.
  - vm_compute. split; [reflexivity|discriminate].
  - exact Hstatus.
Defined.

(** ** The link to the PDF of a table *)

Lemma split_cons_inv (isSeparator : N → bool) (s : jsstring) :
  ∃ piece pieces, Text.split isSeparator s = piece :: pieces.
Proof.
  destruct s as [|c rest]; cbn; [by eexists _, _|].
  destruct (isSeparator c); [by eexists _, _|].
  destruct (Text.split isSeparator rest); by eexists _, _.
Qed.

(** Splitting goes piece by piece. *)
Lemma split_app (isSeparator : N → bool) (a b : jsstring) (c : N) :
  isSeparator c = true →
  Text.split isSeparator (a ++ c :: b)
  = Text.split isSeparator a ++ Text.split isSeparator b.
Proof.
  intros Hc. induction a as [|x a IH]; cbn.
  - by rewrite Hc.
  - rewrite IH. destruct (isSeparator x); [done|].
    by destruct (split_cons_inv isSeparator a) as (p & ps & ->).
Qed.

Lemma split_free (isSeparator : N → bool) (s : jsstring) :
  forallb (λ c, negb (isSeparator c)) s = true → Text.split isSeparator s = [s].
Proof.
  induction s as [|c s IH]; cbn; [done|].
  intros [Hc Hs]%andb_true_iff. apply negb_true_iff in Hc.
  by rewrite Hc, IH.
Qed.

(** A string ends in a piece without separator that is all of it or comes
    after a separator. *)
Lemma last_piece (isSeparator : N → bool) (s : jsstring) :
  ∃ before piece,
    s = before ++ piece
    ∧ forallb (λ c, negb (isSeparator c)) piece = true
    ∧ (before = [] ∨ ∃ before' c, before = before' ++ [c] ∧ isSeparator c = true).
Proof.
  induction s as [|c rest IH].
  { exists [], []. cbn. auto. }
  destruct IH as (before & piece & -> & Hfree & Hbefore).
  destruct Hbefore as [->|(b' & d & -> & Hd)].
  - destruct (isSeparator c) eqn:Hc.
    + exists [c], piece. split; [done|]. split; [done|]. right. by exists [], c.
    + exists [], (c :: piece). cbn. rewrite Hc. cbn. auto.
  - exists (c :: b' ++ [d]), piece. split; [done|]. split; [done|].
    right. by exists (c :: b'), d.
Qed.

Lemma pop_split (isSeparator : N → bool) (before piece : jsstring) :
  forallb (λ c, negb (isSeparator c)) piece = true →
  (before = [] ∨ ∃ before' c, before = before' ++ [c] ∧ isSeparator c = true) →
  Text.pop (Text.split isSeparator (before ++ piece)) = Some piece.
Proof.
  intros Hfree [->|(b' & c & -> & Hc)]; unfold Text.pop.
  - cbn. by rewrite split_free.
  - rewrite <- app_assoc. cbn. rewrite split_app, (split_free _ piece) by done.
    by rewrite last_snoc.
Qed.

(** X27.  [getTablePdfUrl] gives a link exactly when the path is not
    empty and does not end in a slash or a backslash; the link is the
    fixed address of the PDF directory followed by what comes after the
    last slash or backslash of the path, so that the file named holds
    neither. *)
Theorem pdf_url_names_the_file (pdfPath url : jsstring) :
  PdfLink.getTablePdfUrl (Some pdfPath) = Some url
  ↔ ∃ directory fileName,
      pdfPath = directory ++ fileName
      ∧ fileName ≠ []
      ∧ forallb (λ c, negb (PdfLink.isPathSeparator c)) fileName = true
      ∧ (directory = []
         ∨ ∃ d c, directory = d ++ [c] ∧ PdfLink.isPathSeparator c = true)
      ∧ url = PdfLink.base ++ fileName.
Proof.
  unfold PdfLink.getTablePdfUrl. split.
  - destruct (last_piece PdfLink.isPathSeparator pdfPath)
      as (before & piece & Hpath & Hfree & Hbefore).
    rewrite Hpath at 2. rewrite pop_split by done.
    destruct (truthy pdfPath); [|done]. cbn [negb].
    destruct piece as [|c piece]; [done|]. cbn [truthy negb].
    intros [= <-]. by exists before, (c :: piece).
  - intros (directory & fileName & -> & Hne & Hfree & Hdir & ->).
    rewrite pop_split by done.
    destruct fileName as [|c n]; [done|].
    by destruct directory.
Qed.

(** ** The formatter *)

Section FormatterFacts.
Import Xml2Html Formatter.

Lemma visible_app (s t : jsstring) : visible (s ++ t) = visible s ++ visible t.
Proof. apply filter_app. Qed.

Lemma visible_space (s : jsstring) :
  forallb isWhiteSpace s = true → visible s = [].
Proof.
  intros Hs. apply filter_none. intros c Hc.
  rewrite forallb_forall in Hs. rewrite (Hs c) by (by apply list_elem_of_In). done.
Qed.

Lemma visible_trimStart (s : jsstring) : visible (trimStart s) = visible s.
Proof.
  induction s as [|c s IH]; [done|]. cbn [trimStart].
  destruct (isWhiteSpace c) eqn:Hc; [|done].
  rewrite IH. unfold visible. by rewrite filter_cons_False by (by rewrite Hc).
Qed.

Lemma visible_reverse (s : jsstring) : visible (reverse s) = reverse (visible s).
Proof. apply filter_reverse. Qed.

Lemma visible_trim (s : jsstring) : visible (trim s) = visible s.
Proof.
  unfold trim, trimEnd.
  by rewrite visible_reverse, visible_trimStart, <- visible_reverse,
    reverse_involutive, visible_trimStart.
Qed.

Lemma visible_breakTags (html : jsstring) : visible (breakTags html) = visible html.
Proof.
  induction html as [|c rest IH]; [done|]. cbn [breakTags].
  destruct (_ && _).
  - change (c :: lineFeed :: breakTags rest) with ([c] ++ [lineFeed] ++ breakTags rest).
    change (c :: rest) with ([c] ++ rest).
    rewrite !visible_app, IH. done.
  - change (c :: breakTags rest) with ([c] ++ breakTags rest).
    change (c :: rest) with ([c] ++ rest).
    by rewrite !visible_app, IH.
Qed.

Lemma visible_repeated (indent : jsstring) (count : nat) :
  visible indent = [] → visible (repeated indent count) = [].
Proof.
  intros Hi. unfold repeated. induction count as [|n IH]; [done|].
  cbn. by rewrite visible_app, Hi, IH.
Qed.

Lemma visible_join (lines : list jsstring) :
  visible (Text.join [lineFeed] lines) = flat_map visible lines.
Proof.
  induction lines as [|line [|next lines] IH]; [done|..].
  - cbn. by rewrite app_nil_r.
  - change (Text.join [lineFeed] (line :: next :: lines))
      with (line ++ [lineFeed] ++ Text.join [lineFeed] (next :: lines)).
    rewrite !visible_app, IH. done.
Qed.

Lemma visible_split (s : jsstring) :
  flat_map visible (Text.split isLineFeed s) = visible s.
Proof.
  induction s as [|c s IH]; [done|]. cbn [Text.split].
  destruct (isLineFeed c) eqn:Hc.
  - cbn [flat_map]. rewrite IH.
    change (c :: s) with ([c] ++ s). rewrite visible_app. f_equal.
    unfold isLineFeed in Hc. apply N.eqb_eq in Hc as ->. by vm_compute.
  - destruct (split_cons_inv isLineFeed s) as (p & ps & Hs). rewrite Hs in *.
    cbn [flat_map] in *.
    change (c :: p) with ([c] ++ p). change (c :: s) with ([c] ++ s).
    by rewrite !visible_app, <- IH, app_assoc.
Qed.

Lemma visible_indented (indent : jsstring) (level : nat) (lines : list jsstring) :
  visible indent = [] →
  flat_map visible (filter (λ line, truthy line = true) (indented indent level lines))
  = flat_map visible lines.
Proof.
  intros Hi. revert level. induction lines as [|line lines IH]; intros level; [done|].
  cbn [indented flat_map].
  destruct (truthy (trim line)) eqn:Htrim; cbn [negb].
  - rewrite filter_cons_True.
    + cbn [flat_map]. rewrite IH, visible_app, visible_repeated, visible_trim by done.
      done.
    + destruct (trim line); [done|]. by destruct (repeated _ _).
  - rewrite filter_cons_False by done. rewrite IH.
    rewrite <- (visible_trim line). by destruct (trim line).
Qed.

(** X28.  [xml2htmlFormatted] returns the empty string whenever
    [xml2html] does, and so on every rejected input (blank, or the
    parser throws, or its result holds a [parsererror] element), whatever
    [indentSize] and [indentChar] are; it throws when the markup is not empty and
    [indentSize] is a negative whole number; and whenever it returns,
    with an [indentChar] made of white space, its result and the result
    of [xml2html] hold the same code units other than white space, in
    the same order. *)
Theorem formatting_changes_white_space_only
    (toLowerCase : jsstring → jsstring) (parseFromString : jsstring → Completion Node)
    (xmlString : jsstring) (options : Options) (layout : Layout) :
  let html := xml2html toLowerCase parseFromString xmlString options in
  let result := xml2htmlFormatted toLowerCase parseFromString xmlString options layout in
  (html = [] → result = Normal [])
  ∧ (Vocabulary.rejected parseFromString xmlString → result = Normal [])
  ∧ (html ≠ [] → (sizeOf layout < 0)%Z → ∃ error, result = Throw error)
  ∧ (∀ formatted, result = Normal formatted →
       forallb isWhiteSpace (charOf layout) = true →
       visible formatted = visible html).
Proof.
  intros html result.
  assert (Hrejected : Vocabulary.rejected parseFromString xmlString → html = []).
  { intros Hrej. subst html. unfold xml2html, parseXML, querySelector.
    destruct (truthy (trim xmlString)) eqn:Htrim; cbn [negb]; [|done].
    destruct Hrej as [Hws|[[e He]|(doc & Hdoc & Herr)]].
    - by rewrite (trim_blank _ Hws) in Htrim.
    - by rewrite He.
    - rewrite Hdoc. by destruct (elementsNamed _ doc). }
  subst result. unfold xml2htmlFormatted. fold html.
  destruct html as [|c html'] eqn:Hhtml; cbn [truthy negb].
  { split; [done|]. split; [done|]. split; [done|]. by intros ? [= <-]. }
  split; [done|]. split; [by intros ?%Hrejected|].
  case_bool_decide as Hsize.
  { split; [|done]. intros _ _. by eexists. }
  split; [by intros _ ?|].
  intros formatted [= <-] Hchar.
  rewrite visible_join, visible_indented
    by (by apply visible_repeated, visible_space).
  rewrite visible_split. exact (visible_breakTags (c :: html')).
Qed.
End FormatterFacts.

(** ** The formatter on a tree of elements *)

Section LayoutFacts.
Import Xml2Html Vocabulary Formatter Lines.
Context (toLowerCase : jsstring → jsstring).
Implicit Types (options : Options) (node : Node) (line body : jsstring).

Lemma trim_between (c d : N) body :
  isWhiteSpace c = false → isWhiteSpace d = false →
  trim (c :: body ++ [d]) = c :: body ++ [d].
Proof.
  intros Hc Hd. unfold trim, trimEnd. cbn [trimStart]. rewrite Hc.
  rewrite app_comm_cons, reverse_snoc. cbn [trimStart]. rewrite Hd.
  rewrite <- reverse_snoc. apply reverse_involutive.
Qed.

Lemma trim_tagLine line : tagLine line → trim line = line.
Proof. intros (body & -> & _). by apply trim_between. Qed.

Lemma tagLine_truthy line : tagLine line → line ≠ [].
Proof. by intros (body & -> & _). Qed.

Lemma tagLine_no_lineFeed line :
  tagLine line → forallb (λ c, negb (isLineFeed c)) line = true.
Proof.
  intros (body & -> & Hbody). apply forallb_forall. intros c Hc.
  apply list_elem_of_In in Hc. apply negb_true_iff, N.eqb_neq.
  apply elem_of_cons in Hc as [->|Hc]; [done|].
  apply elem_of_app in Hc as [Hc|Hc%list_elem_of_singleton]; [|by subst].
  rewrite Forall_forall in Hbody. by apply Hbody.
Qed.

(** *** Breaking the markup into lines *)

Lemma breakTags_copy (s t : jsstring) :
  Forall (λ c, c ≠ 62%N) s → breakTags (s ++ t) = s ++ breakTags t.
Proof.
  induction 1 as [|c s Hc _ IH]; [done|]. cbn [app breakTags].
  apply N.eqb_neq in Hc. rewrite Hc. cbn [andb]. by rewrite IH.
Qed.

Lemma join_cons (separator first second : jsstring) (rest : list jsstring) :
  Text.join separator (first :: second :: rest)
  = first ++ separator ++ Text.join separator (second :: rest).
Proof. done. Qed.

Lemma breakTags_lines (lines : list jsstring) :
  Forall tagLine lines → breakTags (concat lines) = Text.join [lineFeed] lines.
Proof.
  induction 1 as [|line lines (body & -> & Hbody) Hlines IH]; [done|].
  cbn [concat]. rewrite app_comm_cons, <- app_assoc.
  rewrite breakTags_copy.
  2:{ constructor; [done|]. eapply Forall_impl; [exact Hbody|]. by intros c (_ & ? & _). }
  destruct Hlines as [|next lines (body' & -> & Hbody') Hlines].
  - cbn [concat]. rewrite app_nil_r. cbn [breakTags head].
    rewrite bool_decide_eq_false_2 by done. by rewrite andb_false_r.
  - rewrite join_cons, <- IH. cbn [concat app breakTags head].
    rewrite bool_decide_eq_true_2 by done. cbn [N.eqb Pos.eqb andb].
    by rewrite <- !app_assoc.
Qed.

Lemma split_lines (lines : list jsstring) :
  Forall tagLine lines → lines ≠ [] →
  Text.split isLineFeed (Text.join [lineFeed] lines) = lines.
Proof.
  induction 1 as [|line lines Hline Hlines IH]; [done|]. intros _.
  destruct lines as [|next lines].
  - cbn. by apply split_free, tagLine_no_lineFeed.
  - rewrite join_cons. cbn [app].
    rewrite split_app by done. rewrite IH by done.
    by rewrite split_free by (by apply tagLine_no_lineFeed).
Qed.

(** *** What a line is taken for *)

Lemma startsWith_open body (rest : jsstring) :
  Api.startsWith (60%N :: rest) (js "<") = true.
Proof. apply bool_decide_eq_true_2. by exists rest. Qed.

Lemma startsWith_close body :
  Api.startsWith (60%N :: body ++ [62%N]) (js "</")
  = bool_decide (head body = Some 47%N).
Proof.
  apply bool_decide_ext. change (js "</") with [60%N; 47%N]. split.
  - intros Hpre. apply prefix_cons_inv_2 in Hpre.
    destruct body as [|x body]; cbn in *.
    + by apply prefix_cons_inv_1 in Hpre.
    + by apply prefix_cons_inv_1 in Hpre as ->.
  - destruct body as [|x body]; [done|]. intros [= ->].
    apply prefix_cons, prefix_cons, prefix_nil.
Qed.

Lemma endsWith_selfClosed body :
  Api.endsWith (60%N :: body ++ [62%N]) (js "/>")
  = bool_decide (last body = Some 47%N).
Proof.
  apply bool_decide_ext. change (js "/>") with ([47%N] ++ [62%N]).
  rewrite app_comm_cons. split.
  - intros Hsuf%suffix_snoc_inv_2. destruct Hsuf as [k Hk].
    destruct body as [|x body _] using rev_ind.
    + by destruct k as [|? [|? ?]].
    + rewrite app_comm_cons in Hk. apply app_inj_tail in Hk as [_ ->].
      apply last_snoc.
  - intros (k & ->)%last_Some. apply suffix_snoc.
    exists (60%N :: k). by rewrite app_comm_cons.
Qed.

Lemma indented_tagLine (indent : jsstring) (d : nat) body (rest : list jsstring) :
  indented indent d ((60%N :: body ++ [62%N]) :: rest)
  = let closing := bool_decide (head body = Some 47%N) in
    let selfClosed := bool_decide (last body = Some 47%N) in
    let level := if closing then Nat.pred d else d in
    (repeated indent level ++ 60%N :: body ++ [62%N])
    :: indented indent (if negb closing && negb selfClosed then S level else level) rest.
Proof.
  cbn [indented]. rewrite trim_between by done. cbn [truthy negb].
  by rewrite (startsWith_open body), startsWith_close, endsWith_selfClosed.
Qed.

(** *** The tags of a tidy element *)

Lemma htmlName_truthy options (tagName : jsstring) :
  htmlName toLowerCase options tagName ≠ [].
Proof.
  unfold htmlName, htmlTagNameOf. apply or_else_truthy. by vm_compute.
Qed.

Lemma plain_inner (s : jsstring) : forallb plain s = true → Forall inner s.
Proof.
  rewrite forallb_forall, Forall_forall. intros Hs c Hc%list_elem_of_In.
  specialize (Hs c Hc). unfold plain in Hs.
  apply negb_true_iff in Hs. repeat (apply orb_false_iff in Hs as [Hs ?]).
  repeat split; by apply N.eqb_neq.
Qed.

Lemma plain_no_slash (s : jsstring) (c : N) :
  forallb plain s = true → c ∈ s → c ≠ 47%N.
Proof.
  rewrite forallb_forall. intros Hs Hc%list_elem_of_In.
  specialize (Hs c Hc). unfold plain in Hs.
  apply negb_true_iff in Hs. repeat (apply orb_false_iff in Hs as [Hs ?]).
  by apply N.eqb_neq.
Qed.

Lemma escapeHtml_inner (text : jsstring) :
  forallb (λ c, negb (isLineFeed c)) text = true → Forall inner (escapeHtml text).
Proof.
  induction text as [|c text IH]; [by constructor|].
  cbn [forallb]. intros [Hc Htext]%andb_true_iff.
  rewrite escapeHtml_cons. apply Forall_app. split; [|by apply IH].
  rewrite escapeHtml_single. apply negb_true_iff, N.eqb_neq in Hc.
  repeat case_match; try (repeat constructor; by vm_compute).
  constructor; [|constructor]. repeat split; try done; by apply N.eqb_neq.
Qed.

Lemma attrToHtml_inner (attr : Attr) :
  forallb plain (attrName attr) = true →
  forallb (λ c, negb (isLineFeed c)) (attrValue attr) = true →
  Forall inner (attrToHtml attr) ∧ last (attrToHtml attr) = Some quot.
Proof.
  assert (Hn : attrName attr = name attr) by (unfold attrName, or_else; by destruct (name attr)).
  assert (Hv : attrValue attr = value attr)
    by (unfold attrValue, or_else; by destruct (value attr)).
  rewrite Hn, Hv. intros Hname Hvalue. unfold attrToHtml. split.
  - repeat (apply Forall_app; split).
    + repeat constructor; by vm_compute.
    + by apply plain_inner.
    + repeat constructor; by vm_compute.
    + repeat constructor; by vm_compute.
    + by apply escapeHtml_inner.
    + repeat constructor; by vm_compute.
  - by rewrite !app_assoc, last_snoc.
Qed.

Lemma attributes_inner (attributes : list Attr) :
  forallb (λ attr, forallb plain (attrName attr)
                   && forallb (λ c, negb (isLineFeed c)) (attrValue attr))
          attributes = true →
  Forall inner (flat_map attrToHtml attributes)
  ∧ (attributes ≠ [] → last (flat_map attrToHtml attributes) = Some quot).
Proof.
  induction attributes as [|attr attributes IH]; [by split|].
  cbn [forallb flat_map]. intros [[Hn Hv]%andb_true_iff Hrest]%andb_true_iff.
  destruct (attrToHtml_inner attr Hn Hv) as [Hinner Hlast].
  destruct (IH Hrest) as [Hinner' Hlast']. split.
  - by apply Forall_app.
  - intros _. rewrite last_app. destruct attributes as [|next attributes].
    + cbn. by rewrite Hlast.
    + by rewrite Hlast'.
Qed.

Lemma openTag_body options (tagName : jsstring) (attributes : list Attr) :
  forallb plain (htmlName toLowerCase options tagName) = true →
  forallb (λ attr, forallb plain (attrName attr)
                   && forallb (λ c, negb (isLineFeed c)) (attrValue attr))
          attributes = true →
  ∃ body,
    openTag options (htmlName toLowerCase options tagName) attributes = 60%N :: body
    ∧ Forall inner body
    ∧ head body ≠ Some 47%N
    ∧ last body ≠ Some 47%N
    ∧ body ≠ [].
Proof.
  intros Hname Hattrs. rewrite openTag_eq.
  set (h := htmlName toLowerCase options tagName) in *.
  pose proof (htmlName_truthy options tagName) as Hne. fold h in Hne.
  destruct (attributes_inner attributes Hattrs) as [Hinner Hlast].
  exists (h ++ (if preserveAttributes options then flat_map attrToHtml attributes else [])).
  split; [done|]. split; [|split; [|split]].
  - apply Forall_app. split; [by apply plain_inner|]. by destruct (preserveAttributes options).
  - destruct h as [|c h']; [done|]. cbn. intros [= ->].
    by apply (plain_no_slash _ 47%N Hname); [left|].
  - assert (Hh : last h ≠ Some 47%N).
    { destruct (last h) as [c|] eqn:Hl; [|done]. intros [= ->].
      apply last_Some in Hl as [k Hk].
      apply (plain_no_slash _ 47%N Hname); [|done]. rewrite Hk.
      apply elem_of_app. right. by left. }
    rewrite last_app.
    destruct (preserveAttributes options); [destruct attributes as [|attr attributes]|].
    + done.
    + by rewrite Hlast.
    + done.
  - by destruct h.
Qed.

Lemma repeated_nil (count : nat) : repeated [] count = [].
Proof. unfold repeated. induction count as [|n IH]; [done|]. by cbn. Qed.

Lemma openLine_tagLine body : Forall inner body → tagLine ((60%N :: body) ++ js ">").
Proof. intros Hbody. by exists body. Qed.

Lemma selfClosedLine_tagLine body :
  Forall inner body → tagLine ((60%N :: body) ++ js " />").
Proof.
  intros Hbody. exists (body ++ [32%N; 47%N]). split.
  - change (js " />") with ([32%N; 47%N] ++ [62%N]). by rewrite app_comm_cons, app_assoc.
  - apply Forall_app. split; [done|]. repeat constructor; by vm_compute.
Qed.

Lemma closeLine_tagLine (h : jsstring) :
  forallb plain h = true → tagLine (js "</" ++ h ++ js ">").
Proof.
  intros Hh. exists (47%N :: h). split; [done|].
  constructor; [by vm_compute|]. by apply plain_inner.
Qed.

Lemma tidy_children_truthy options (children : list Node) :
  forallb (tidy toLowerCase options) children = true →
  truthy (childrenToHtml toLowerCase options children)
  = match children with [] => false | _ => true end.
Proof.
  destruct children as [|child rest]; [done|]. cbn [forallb].
  intros [Hchild _]%andb_true_iff. rewrite childrenToHtml_cons.
  destruct child as [| | | | |t a cs| |]; try done.
  by destruct (nodeToHtml_element_shape toLowerCase options t a cs) as [middle ->].
Qed.

Lemma closesItself_tidy options (tagName : jsstring) (children : list Node) :
  forallb (tidy toLowerCase options) children = true →
  closesItself toLowerCase options tagName children
  = includes (htmlName toLowerCase options tagName) selfClosingTags
    && match children with [] => true | _ => false end.
Proof.
  intros Hchildren. unfold closesItself. rewrite tidy_children_truthy by done.
  by destruct children.
Qed.

(** The markup of a tidy tree is its tags, one after the other. *)
Lemma tidy_html options node :
  tidy toLowerCase options node = true →
  ∀ k, nodeToHtml toLowerCase options node
       = concat (layoutOf toLowerCase options [] k node)
       ∧ Forall tagLine (layoutOf toLowerCase options [] k node).
Proof.
  induction node as [t|t|t|t d|n|t a cs IH|cs IH|cs IH] using Node_nested_ind;
    try done.
  cbn [tidy]. intros [[Hname Hattrs]%andb_true_iff Hchildren]%andb_true_iff k.
  destruct (openTag_body options t a Hname Hattrs) as (body & Hopen & Hbody & _).
  rewrite nodeToHtml_element. cbv zeta. rewrite closesItself_tidy by done.
  cbn [layoutOf]. fold (htmlName toLowerCase options t). rewrite repeated_nil, Hopen.
  destruct (_ && _).
  - cbn [concat app]. rewrite app_nil_r. split; [done|].
    constructor; [|done]. by apply selfClosedLine_tagLine.
  - assert (Hcs : childrenToHtml toLowerCase options cs
                  = concat (flat_map (layoutOf toLowerCase options [] (S k)) cs)
                  ∧ Forall tagLine (flat_map (layoutOf toLowerCase options [] (S k)) cs)).
    { clear -IH Hchildren. induction cs as [|c cs IHcs]; [done|].
      cbn [forallb] in Hchildren. apply andb_true_iff in Hchildren as [Hc Hcs].
      apply Forall_cons in IH as [IHc IH].
      destruct (IHc Hc (S k)) as [Hhtml Hlines].
      destruct (IHcs IH Hcs) as [Hhtml' Hlines'].
      rewrite childrenToHtml_cons. cbn [flat_map]. rewrite concat_app.
      split; [by rewrite Hhtml, Hhtml'|]. by apply Forall_app. }
    destruct Hcs as [Hhtml Hlines]. split.
    + rewrite !concat_app. cbn [concat app]. rewrite !app_nil_r, Hhtml.
      unfold closeTag. by rewrite <- !app_assoc.
    + apply Forall_app. split; [|apply Forall_app; split; [done|]].
      * constructor; [|done]. by apply openLine_tagLine.
      * constructor; [|done]. by apply closeLine_tagLine.
Qed.

(** The formatter indents the tags of a tidy tree by their depth. *)
Lemma indented_layout options (indent : jsstring) node :
  tidy toLowerCase options node = true →
  ∀ d k (rest : list jsstring),
    indented indent d (layoutOf toLowerCase options [] k node ++ rest)
    = layoutOf toLowerCase options indent d node ++ indented indent d rest.
Proof.
  induction node as [t|t|t|t d|n|t a cs IH|cs IH|cs IH] using Node_nested_ind;
    try done.
  cbn [tidy]. intros [[Hname Hattrs]%andb_true_iff Hchildren]%andb_true_iff d k rest.
  destruct (openTag_body options t a Hname Hattrs)
    as (body & Hopen & Hbody & Hhead & Hlast & Hne).
  cbn [layoutOf]. fold (htmlName toLowerCase options t). rewrite repeated_nil, Hopen.
  set (h := htmlName toLowerCase options t) in *.
  destruct (_ && _).
  - cbn [app]. change (js " />") with ([32%N; 47%N] ++ [62%N]).
    rewrite (app_assoc body [32%N; 47%N] [62%N]).
    rewrite indented_tagLine. cbv zeta.
    rewrite bool_decide_eq_false_2.
    2:{ rewrite head_app. by destruct body. }
    rewrite bool_decide_eq_true_2 by (by rewrite last_app).
    done.
  - assert (Hcs : ∀ rest',
               indented indent (S d)
                 (flat_map (layoutOf toLowerCase options [] (S k)) cs ++ rest')
               = flat_map (layoutOf toLowerCase options indent (S d)) cs
                 ++ indented indent (S d) rest').
    { clear -IH Hchildren. induction cs as [|c cs IHcs]; intros rest'; [done|].
      cbn [forallb] in Hchildren. apply andb_true_iff in Hchildren as [Hc Hcs].
      apply Forall_cons in IH as [IHc IH]. cbn [flat_map].
      rewrite <- !app_assoc, (IHc Hc), (IHcs IH Hcs). done. }
    cbn [app]. change (js ">") with [62%N].
    rewrite indented_tagLine. cbv zeta.
    rewrite !bool_decide_eq_false_2 by done. cbn [negb andb].
    rewrite <- !app_assoc, Hcs. cbn [app].
    change (js "</" ++ h ++ [62%N]) with (60%N :: (47%N :: h) ++ [62%N]).
    rewrite (indented_tagLine indent (S d) (47%N :: h)). cbv zeta.
    rewrite bool_decide_eq_true_2 by done. cbn [negb andb Nat.pred].
    done.
Qed.

Lemma layoutOf_truthy options (indent : jsstring) node :
  ∀ d, Forall (λ line, truthy line = true) (layoutOf toLowerCase options indent d node).
Proof.
  induction node as [t|t|t|t d|n|t a cs IH|cs IH|cs IH] using Node_nested_ind;
    intros depth; try by constructor.
  cbn [layoutOf]. destruct (_ && _).
  - constructor; [|done]. rewrite !truthy_app. by rewrite !orb_true_r.
  - apply Forall_app. split; [|apply Forall_app; split].
    + constructor; [|done]. rewrite !truthy_app. by rewrite !orb_true_r.
    + apply Forall_flat_map. eapply Forall_impl; [exact IH|]. intros c Hc. apply Hc.
    + constructor; [|done]. rewrite !truthy_app. by rewrite !orb_true_r.
Qed.

(** X29.  On a document whose root is a tree of elements only, with names
    free of less-than sign, greater-than sign, slash and line feed, and
    attribute values free of line feed, [xml2htmlFormatted] without
    [wrapperTag] and with an [indentSize] that is not negative returns
    every tag on a line of its own, indented once for each element around
    it. *)
Theorem formatted_tree_is_laid_out (parseFromString : jsstring → Completion Node)
    (xmlString : jsstring) options (layout : Layout) (xmlDoc root : Node) :
  parseXML parseFromString xmlString = Some xmlDoc →
  documentElement xmlDoc = Some root →
  tidy toLowerCase options root = true →
  wrapperTag options = [] →
  (0 ≤ sizeOf layout)%Z →
  xml2htmlFormatted toLowerCase parseFromString xmlString options layout
  = Normal
      (Text.join [lineFeed]
         (layoutOf toLowerCase options
            (repeated (charOf layout) (Z.to_nat (sizeOf layout))) 0 root)).
Proof.
  intros Hparse Hroot Htidy Hwrap Hsize.
  destruct (parseXML_Some _ _ _ Hparse) as (Htrim & _ & _).
  destruct (tidy_html options root Htidy 0) as [Hhtml Hlines].
  assert (Hxml : xml2html toLowerCase parseFromString xmlString options
                 = concat (layoutOf toLowerCase options [] 0 root)).
  { unfold xml2html. rewrite Htrim, Hparse, Hroot, Hwrap.
    cbn [negb default from_option id truthy]. by rewrite nodeToHtml_nodeOptions. }
  assert (Hsome : layoutOf toLowerCase options [] 0 root ≠ []).
  { destruct root; try done. cbn [layoutOf]. by destruct (_ && _). }
  unfold xml2htmlFormatted. rewrite Hxml.
  destruct (concat _) as [|c html'] eqn:Hconcat.
  { exfalso. destruct (layoutOf toLowerCase options [] 0 root) as [|line lines]; [done|].
    apply Forall_cons in Hlines as [(body & -> & _) _]. done. }
  cbn [truthy negb]. rewrite bool_decide_eq_false_2 by lia.
  rewrite <- Hconcat, breakTags_lines, split_lines by done.
  rewrite <- (app_nil_r (layoutOf toLowerCase options [] 0 root)).
  rewrite indented_layout by done. cbn [indented]. rewrite app_nil_r.
  f_equal. f_equal. apply filter_all. intros line Hline.
  pose proof (layoutOf_truthy options
                (repeated (charOf layout) (Z.to_nat (sizeOf layout))) root 0) as Hall.
  rewrite Forall_forall in Hall. by apply Hall.
Qed.
End LayoutFacts.

(** A table row with a line break in its cell, laid out with two spaces
    for each level. *)
Lemma formatted_tree_is_laid_out_witness :
  Formatter.xml2htmlFormatted Reference.toLowerCase Reference.parseFromString
    (js "<tr><td><br/></td><td/></tr>") defaultOptions
    {| Formatter.indentSize := None; Formatter.indentChar := None |}
  = Normal
      (Text.join [Formatter.lineFeed]
         [js "<tr>"; js "  <td>"; js "    <br />"; js "  </td>"; js "  <td>";
          js "  </td>"; js "</tr>"]).
Proof.
  etrans.
  - apply (formatted_tree_is_laid_out Reference.toLowerCase Reference.parseFromString
             (js "<tr><td><br/></td><td/></tr>") defaultOptions
             {| Formatter.indentSize := None; Formatter.indentChar := None |}
             (DocumentNode
                [ElementNode (js "tr") []
                   [ElementNode (js "td") [] [ElementNode (js "br") [] []];
                    ElementNode (js "td") [] []]])
             (ElementNode (js "tr") []
                [ElementNode (js "td") [] [ElementNode (js "br") [] []];
                 ElementNode (js "td") [] []])).
    + by vm_compute.
    + by vm_compute.
    + by vm_compute.
    + done.
    + by vm_compute.
  - by vm_compute.
Defined.

(** ** The formatter on a row of cells *)

Section RowFacts.
Import Xml2Html Vocabulary Formatter Lines Rows.
Context (toLowerCase : jsstring → jsstring).
Implicit Types (options : Options) (node : Node) (line body : jsstring).

Lemma tagLine_unbroken line : tagLine line → unbroken line.
Proof.
  intros (body & -> & Hbody). exists body. split; [done|]. intros rest.
  rewrite !app_comm_cons. apply breakTags_copy.
  constructor; [done|]. eapply Forall_impl; [exact Hbody|]. by intros c (_ & ? & _).
Qed.

Lemma breakTags_unbroken_lines (lines : list jsstring) :
  Forall unbroken lines → breakTags (concat lines) = Text.join [lineFeed] lines.
Proof.
  induction 1 as [|line lines (front & -> & Hfront) Hlines IH]; [done|].
  cbn [concat]. rewrite <- app_comm_cons, <- app_assoc, Hfront.
  destruct Hlines as [|next lines (front' & -> & Hfront') Hlines].
  - cbn [concat]. rewrite app_nil_r. cbn [app breakTags head].
    rewrite bool_decide_eq_false_2 by done. by rewrite andb_false_r.
  - rewrite join_cons, <- IH. cbn [concat app breakTags head].
    rewrite bool_decide_eq_true_2 by done. cbn [N.eqb Pos.eqb andb].
    by rewrite <- !app_assoc.
Qed.

Lemma split_join (lines : list jsstring) :
  Forall (λ line, forallb (λ c, negb (isLineFeed c)) line = true) lines →
  lines ≠ [] →
  Text.split isLineFeed (Text.join [lineFeed] lines) = lines.
Proof.
  induction 1 as [|line lines Hline Hlines IH]; [done|]. intros _.
  destruct lines as [|next lines].
  - cbn. by apply split_free.
  - rewrite join_cons. cbn [app].
    rewrite split_app by done. rewrite IH by done.
    by rewrite split_free.
Qed.

Lemma breakTags_after_gt (c : N) (rest : jsstring) :
  c ≠ 60%N → breakTags (62%N :: c :: rest) = 62%N :: breakTags (c :: rest).
Proof.
  intros Hc. cbn [breakTags head].
  rewrite bool_decide_eq_false_2 by (by intros [= ->]). by rewrite andb_false_r.
Qed.

Lemma inner_no_lineFeed (s : jsstring) :
  Forall inner s → forallb (λ c, negb (isLineFeed c)) s = true.
Proof.
  intros Hs. apply forallb_forall. intros c Hc%list_elem_of_In.
  rewrite Forall_forall in Hs. destruct (Hs c Hc) as (_ & _ & Hlf).
  by apply negb_true_iff, N.eqb_neq.
Qed.

(** The markup of a cell is one line, which stays in one piece and is
    taken for an open tag. *)
Lemma cell_line options node :
  preserveTextNodes options = true →
  cell toLowerCase options node = true →
  unbroken (nodeToHtml toLowerCase options node)
  ∧ opening (nodeToHtml toLowerCase options node)
  ∧ forallb (λ c, negb (isLineFeed c)) (nodeToHtml toLowerCase options node) = true.
Proof.
  intros Hkeep Hcell.
  destruct node as [| | | | |t a [|[text| | | | | | |] [|]]| |]; try done.
  cbn [cell] in Hcell.
  apply andb_true_iff in Hcell as [[[Hname Hattrs]%andb_true_iff Htext]%andb_true_iff Hlf].
  destruct (openTag_body toLowerCase options t a Hname Hattrs)
    as (b & Hopen & Hb & Hhead & Hlast & Hne).
  set (h := htmlName toLowerCase options t) in *.
  set (e := escapeHtml (trim text)).
  assert (He : Forall inner e) by (by apply escapeHtml_inner).
  assert (Hsome : e ≠ []).
  { intros Hnil. apply (escapeHtml_nil_iff (trim text)) in Hnil. by rewrite Hnil in Htext. }
  assert (Hhtml : nodeToHtml toLowerCase options (ElementNode t a [TextNode text])
                  = 60%N :: (b ++ [62%N] ++ e ++ [60%N; 47%N] ++ h) ++ [62%N]).
  { rewrite nodeToHtml_element. cbv zeta.
    fold (htmlName toLowerCase options t). fold h. rewrite Hopen.
    unfold closesItself, childrenToHtml. cbn [flat_map nodeToHtml].
    rewrite Hkeep. cbn [negb]. fold e. rewrite app_nil_r.
    destruct e as [|c e'] eqn:Ee; [done|]. cbn [truthy negb]. rewrite andb_false_r.
    unfold closeTag. change (js ">") with [62%N]. change (js "</") with [60%N; 47%N].
    by rewrite <- !app_assoc. }
  assert (Hfree : ∀ s, Forall inner s → Forall (λ c, c ≠ 62%N) s).
  { intros s Hs. eapply Forall_impl; [exact Hs|]. by intros c (_ & ? & _). }
  rewrite Hhtml. split; [|split].
  - eexists. split; [done|]. intros rest.
    rewrite <- !app_assoc. rewrite app_comm_cons, breakTags_copy
      by (constructor; [done|by apply Hfree]).
    destruct e as [|c e'] eqn:Ee; [done|].
    pose proof (Forall_inv He) as (Hc & _ & _).
    cbn [app]. rewrite breakTags_after_gt by done.
    rewrite (app_comm_cons e'), breakTags_copy by (by apply Hfree).
    change (60%N :: 47%N :: h ++ rest) with ((60%N :: 47%N :: h) ++ rest).
    rewrite breakTags_copy; [done|].
    constructor; [done|]. constructor; [done|]. by apply Hfree, plain_inner.
  - eexists. split; [done|]. split.
    + rewrite head_app. destruct b as [|x b']; [done|]. exact Hhead.
    + rewrite !last_app. cbn [last].
      destruct (last h) as [x|] eqn:Hl.
      2:{ apply last_None in Hl. by destruct (htmlName_truthy toLowerCase options t). }
      intros [= ->].
      apply last_Some in Hl as [k Hk].
      apply (plain_no_slash _ 47%N Hname); [|done]. fold h. rewrite Hk.
      apply elem_of_app. right. by left.
  - cbn [forallb]. rewrite !forallb_app. cbn [forallb].
    rewrite (inner_no_lineFeed b), (inner_no_lineFeed e), (inner_no_lineFeed h);
      [done|by apply plain_inner|done|done].
Qed.

Lemma indented_opening (indent : jsstring) (d : nat) line (rest : list jsstring) :
  opening line →
  indented indent d (line :: rest)
  = (repeated indent d ++ line) :: indented indent (S d) rest.
Proof.
  intros (body & -> & Hhead & Hlast). rewrite indented_tagLine. cbv zeta.
  by rewrite !bool_decide_eq_false_2 by done.
Qed.

Lemma indented_cells (indent : jsstring) (lines rest : list jsstring) (d : nat) :
  Forall opening lines →
  indented indent d (lines ++ rest)
  = imap (λ i line, repeated indent (d + i) ++ line) lines
    ++ indented indent (d + length lines) rest.
Proof.
  intros Hlines. revert d. induction Hlines as [|line lines Hline _ IH]; intros d.
  { cbn. by rewrite Nat.add_0_r. }
  cbn [app]. rewrite indented_opening by done. rewrite imap_cons, IH.
  cbn [app length]. rewrite Nat.add_0_r, Nat.add_succ_r. f_equal. f_equal.
  apply imap_ext. intros i x _. cbn. by rewrite Nat.add_succ_r.
Qed.

(** X30.  With [preserveTextNodes] on, without [wrapperTag] and with an
    [indentSize] that is not negative, on a document whose root holds
    cells only, and at least one (a cell is an element with one text
    node whose text is not blank; the tag names as the markup shows them
    and the attribute names, of the root and of the cells, are free of
    less-than sign, greater-than sign, slash and line feed, attribute
    values and trimmed texts free of line feed), as the rows of a table do,
    [xml2htmlFormatted] does not indent by depth: every cell is taken for
    an open tag, so each cell is indented once more than the one before,
    and the close tag of the root is indented as many times as there are
    cells. *)
Theorem formatted_row_drifts (parseFromString : jsstring → Completion Node)
    (xmlString : jsstring) options (layout : Layout) (xmlDoc : Node)
    (tagName : jsstring) (attributes : list Attr) (cells : list Node) :
  parseXML parseFromString xmlString = Some xmlDoc →
  documentElement xmlDoc = Some (ElementNode tagName attributes cells) →
  tidy toLowerCase options (ElementNode tagName attributes []) = true →
  cells ≠ [] →
  forallb (cell toLowerCase options) cells = true →
  preserveTextNodes options = true →
  wrapperTag options = [] →
  (0 ≤ sizeOf layout)%Z →
  xml2htmlFormatted toLowerCase parseFromString xmlString options layout
  = Normal
      (Text.join [lineFeed]
         (rowLayout toLowerCase options
            (repeated (charOf layout) (Z.to_nat (sizeOf layout)))
            tagName attributes cells)).
Proof.
  intros Hparse Hroot Htidy Hsome Hcells Hkeep Hwrap Hsize.
  destruct (parseXML_Some _ _ _ Hparse) as (Htrim & _ & _).
  cbn [tidy forallb] in Htidy. rewrite andb_true_r in Htidy.
  apply andb_true_iff in Htidy as [Hname Hattrs].
  destruct (openTag_body toLowerCase options tagName attributes Hname Hattrs)
    as (body & Hopen & Hbody & Hhead & Hlast & Hne).
  set (h := htmlName toLowerCase options tagName) in *.
  set (indent := repeated (charOf layout) (Z.to_nat (sizeOf layout))).
  set (lines := nodeToHtml toLowerCase options <$> cells).
  assert (Hlines : Forall (λ line, unbroken line ∧ opening line
                    ∧ forallb (λ c, negb (isLineFeed c)) line = true) lines).
  { subst lines. apply Forall_fmap, Forall_forall. intros c Hc.
    apply cell_line; [done|].
    rewrite forallb_forall in Hcells. by apply Hcells, list_elem_of_In. }
  assert (Hchildren : childrenToHtml toLowerCase options cells = concat lines).
  { unfold childrenToHtml. by rewrite flat_map_concat_map. }
  assert (Htruthy : truthy (concat lines) = true).
  { destruct lines as [|line lines'] eqn:El.
    - destruct cells; [done|]. by subst lines.
    - apply Forall_cons in Hlines as [((front & -> & _) & _) _]. done. }
  set (all := [60%N :: body ++ [62%N]] ++ lines ++ [js "</" ++ h ++ js ">"]).
  assert (Hxml : xml2html toLowerCase parseFromString xmlString options = concat all).
  { unfold xml2html. rewrite Htrim, Hparse, Hroot, Hwrap.
    cbn [negb default from_option Datatypes.id truthy]. rewrite nodeToHtml_nodeOptions.
    rewrite nodeToHtml_element. cbv zeta.
    fold (htmlName toLowerCase options tagName). fold h.
    unfold closesItself. rewrite Hchildren, Htruthy, andb_false_r, Hopen.
    subst all. rewrite !concat_app. cbn [concat]. rewrite !app_nil_r.
    unfold closeTag. change (js ">") with [62%N].
    cbn [app]. by rewrite <- app_assoc. }
  assert (Hall : Forall unbroken all
                 ∧ Forall (λ line, forallb (λ c, negb (isLineFeed c)) line = true) all).
  { subst all. split; (apply Forall_app; split; [|apply Forall_app; split]).
    - constructor; [|done]. apply tagLine_unbroken. by exists body.
    - eapply Forall_impl; [exact Hlines|]. by intros line (? & _).
    - constructor; [|done]. by apply tagLine_unbroken, closeLine_tagLine.
    - constructor; [|done]. apply tagLine_no_lineFeed. by exists body.
    - eapply Forall_impl; [exact Hlines|]. by intros line (_ & _ & ?).
    - constructor; [|done]. by apply tagLine_no_lineFeed, closeLine_tagLine. }
  destruct Hall as [Hunbroken Hfree].
  unfold xml2htmlFormatted. rewrite Hxml.
  destruct (concat all) as [|c html'] eqn:Hconcat; [done|].
  cbn [truthy negb]. rewrite bool_decide_eq_false_2 by lia.
  rewrite <- Hconcat, breakTags_unbroken_lines, split_join by done.
  fold indent. subst all. cbn [app]. rewrite indented_tagLine. cbv zeta.
  rewrite !bool_decide_eq_false_2 by done. cbn [negb andb].
  rewrite indented_cells.
  2:{ eapply Forall_impl; [exact Hlines|]. by intros line (_ & ? & _). }
  change (js "</" ++ h ++ js ">") with (60%N :: (47%N :: h) ++ [62%N]).
  rewrite indented_tagLine. cbv zeta.
  rewrite bool_decide_eq_true_2 by done. cbn [negb andb Nat.pred Nat.add indented].
  f_equal. f_equal. rewrite filter_all.
  - unfold rowLayout. fold h. rewrite Hopen. cbn [app repeated replicate concat].
    change (js ">") with [62%N]. f_equal.
    subst lines. rewrite imap_fmap, length_fmap. done.
  - intros line Hline. apply elem_of_cons in Hline as [->|Hline].
    { by rewrite truthy_app, orb_true_r. }
    apply elem_of_app in Hline as [Hline|Hline%list_elem_of_singleton].
    + apply elem_of_lookup_imap in Hline as (i & y & -> & Hy).
      apply list_elem_of_lookup_2 in Hy. rewrite Forall_forall in Hlines.
      destruct (Hlines y Hy) as ((front & -> & _) & _).
      by rewrite truthy_app, orb_true_r.
    + subst line. by rewrite truthy_app, orb_true_r.
Qed.
End RowFacts.

(** A row of two cells: the second cell and the close tag of the row are
    indented too far. *)
Lemma formatted_row_drifts_witness :
  Formatter.xml2htmlFormatted Reference.toLowerCase Reference.parseFromString
    (js "<tr><td>a</td><td>b</td></tr>") defaultOptions
    {| Formatter.indentSize := None; Formatter.indentChar := None |}
  = Normal
      (Text.join [Formatter.lineFeed]
         [js "<tr>"; js "  <td>a</td>"; js "    <td>b</td>"; js "    </tr>"]).
Proof.
  etrans.
  - apply (formatted_row_drifts Reference.toLowerCase Reference.parseFromString
             (js "<tr><td>a</td><td>b</td></tr>") defaultOptions
             {| Formatter.indentSize := None; Formatter.indentChar := None |}
             (DocumentNode
                [ElementNode (js "tr") []
                   [ElementNode (js "td") [] [TextNode (js "a")];
                    ElementNode (js "td") [] [TextNode (js "b")]]])
             (js "tr") []
             [ElementNode (js "td") [] [TextNode (js "a")];
              ElementNode (js "td") [] [TextNode (js "b")]]).
    + by vm_compute.
    + by vm_compute.
    + by vm_compute.
    + done.
    + by vm_compute.
    + done.
    + done.
    + by vm_compute.
  - by vm_compute.
Defined.
